(** * Canonicalization of molecular graphs (automol/graph/base/_canon.py)

    A shallow embedding of the canonical-priority and stereo-parity
    algorithm, together with the properties stated about it.

    Python dictionaries become [gmap]s, frozensets become [gset]s, tuples
    and lists become [list]s.  A function that can raise returns a value
    of [res]; loops are bounded by a fuel that is computed from the
    input and is shown to suffice where a result is promised. *)

From Stdlib Require Import ZArith List Bool Lia.
From stdpp Require Import base tactics option list sorting gmap strings fin_maps fin_sets.

Local Open Scope Z_scope.

(** ** Exceptions and results *)

Abbreviation parity := (option bool) (only parsing).
Abbreviation bkey := (Z * Z)%type (only parsing).

(** What the Python code can raise.  The two precondition violations
    are the asserts at the head of [refine_priorities] and
    [break_priority_ties]; the two consistency violations are the
    asserts of [canonical_keys] and carry the input and the returned
    parity dictionaries. [OutOfFuel] belongs to the model only. *)
Inductive exn :=
| NotConnected
| HasDummyAtoms
| AtomParityMismatch (input ret : gmap Z parity)
| BondParityMismatch (input ret : gmap bkey parity)
| TooManyNeighbors
| NotAPermutation
| KeyError
| ValueError
| IndexError
| OutOfFuel.

Inductive res (A : Type) :=
| Ok (a : A)
| Raise (e : exn).
Arguments Ok {A} a.
Arguments Raise {A} e.

#[global] Instance res_bind : MBind res := λ A B f m,
  match m with
  | Ok a => f a
  | Raise e => Raise e
  end.
#[global] Instance res_ret : MRet res := λ A a, Ok a.

Definition assert (b : bool) (e : exn) : res unit :=
  if b then Ok tt else Raise e.

Fixpoint rmapM {A B} (f : A → res B) (l : list A) : res (list B) :=
  match l with
  | [] => Ok []
  | x :: l => y ← f x; ys ← rmapM f l; Ok (y :: ys)
  end.

Definition is_precondition_violation (e : exn) : bool :=
  match e with
  | NotConnected | HasDummyAtoms => true
  | _ => false
  end.

Definition is_consistency_violation (e : exn) : bool :=
  match e with
  | AtomParityMismatch _ _ | BondParityMismatch _ _ => true
  | _ => false
  end.

(** ** Python sequences *)

Section sequences.
Context {A : Type}.

(** [sorted(l, key=...)]: a stable sort; [le x y] is [key(x) <= key(y)]. *)
Fixpoint insert_by (le : A → A → bool) (x : A) (l : list A) : list A :=
  match l with
  | [] => [x]
  | y :: l' => if le x y then x :: l else y :: insert_by le x l'
  end.

Definition sorted_by (le : A → A → bool) (l : list A) : list A :=
  foldr (insert_by le) [] l.

(** [itertools.groupby]: maximal runs of adjacent elements with equal keys. *)
Fixpoint groupby (eq : A → A → bool) (l : list A) : list (list A) :=
  match l with
  | [] => []
  | x :: l' =>
      match groupby eq l' with
      | (y :: g) :: gs => if eq x y then (x :: y :: g) :: gs else [x] :: (y :: g) :: gs
      | gs => [x] :: gs
      end
  end.
End sequences.

Definition sorted_Z (l : list Z) : list Z := sorted_by Z.leb l.

(** Iterating over a frozenset of integer keys: the model takes the
    elements in ascending order. *)
Definition elements_Z (s : gset Z) : list Z := sorted_Z (elements s).

(** Lexicographic order on tuples of integers, as Python compares tuples. *)
Fixpoint lex_compare {A} (cmp : A → A → comparison) (l1 l2 : list A) : comparison :=
  match l1, l2 with
  | [], [] => Eq
  | [], _ :: _ => Lt
  | _ :: _, [] => Gt
  | x :: l1', y :: l2' =>
      match cmp x y with
      | Eq => lex_compare cmp l1' l2'
      | c => c
      end
  end.

Definition cmp_leb (c : comparison) : bool :=
  match c with Gt => false | _ => true end.
Definition cmp_eqb (c : comparison) : bool :=
  match c with Eq => true | _ => false end.

(** ** Dictionary helpers (automol.util.dict_) *)

Module dict_.
(** [by_key(dct, keys, fill_val=v)]: the dictionary on [keys], absent
    entries filled with [v]. *)
Definition by_key_fill {V} (d : gmap Z V) (ks : gset Z) (v : V) : gmap Z V :=
  filter (λ kv, kv.1 ∈ ks) d ∪ gset_to_gmap v ks.

(** [by_key(dct, keys)] on the keys that [dct] has. *)
Definition by_key {K V} `{Countable K} (d : gmap K V) (ks : gset K) : gmap K V :=
  filter (λ kv, kv.1 ∈ ks) d.

Definition transform_values {K V W} `{Countable K} (d : gmap K V) (f : V → W) : gmap K W :=
  f <$> d.

Definition filter_by_value {K V} `{Countable K} (d : gmap K V) (p : V → bool) : gmap K V :=
  filter (λ kv, p kv.2 = true) d.

Definition keys_by_value {K V} `{Countable K} (d : gmap K V) (p : V → bool) : gset K :=
  dom (filter_by_value d p).

(** [dct.update(other)] *)
Definition update {K V} `{Countable K} (d other : gmap K V) : gmap K V :=
  other ∪ d.

(** [pri_dct.__getitem__] *)
Definition getitem {K V} `{Countable K} (d : gmap K V) (k : K) : res V :=
  match d !! k with
  | Some v => Ok v
  | None => Raise KeyError
  end.
End dict_.

(** ** The graph data structure (Graph Core) *)

(** An atom is [(symbol, implicit hydrogen count, stereo parity)], a bond
    is [(order, stereo parity)].  Bond orders are kept in tenths, so that
    the reserved values 0.1 and 0.9 of forming and breaking bonds are the
    integers 1 and 9 and a single bond is 10.  A bond key
    [frozenset({k1, k2})] is the pair with the smaller key first. *)
Record atom := Atom { atom_symbol : string; atom_hyd : Z; atom_par : parity }.
Record bond := Bond { bond_ord : Z; bond_par : parity }.
Record graph := Graph { atoms : gmap Z atom; bonds : gmap bkey bond }.

#[global] Instance atom_eq_dec : EqDecision atom.
Proof. solve_decision. Defined.
#[global] Instance bond_eq_dec : EqDecision bond.
Proof. solve_decision. Defined.
#[global] Instance graph_eq_dec : EqDecision graph.
Proof. solve_decision. Defined.

Definition bk (a b : Z) : bkey := (Z.min a b, Z.max a b).

(** A stereo key is an atom key or a bond key; a dictionary over stereo
    keys is the pair of its atom part and its bond part. *)
Inductive stereo_key :=
| AtomKey (k : Z)
| BondKey (k : bkey).

Record parities := Parities { atom_pars : gmap Z parity; bond_pars : gmap bkey parity }.

(** The periodic table (package phydat) and the valence analysis of the
    Graph Core are consumed through this interface. *)
Class External := {
  (** [ptab.to_symbol]: the normalised element symbol *)
  to_symbol : string → string;
  (** [ptab.to_number]: the atomic number, 0 for a dummy atom *)
  to_number : string → Z;
  (** [ptab.to_mass_number] *)
  to_mass_number : string → Z;
  (** [tetrahedral_atom_keys]: the candidate atom stereocentres *)
  tetrahedral_atom_keys : graph → gset Z;
  (** [rigid_planar_bond_keys]: the candidate bond stereocentres *)
  rigid_planar_bond_keys : graph → gset bkey;
  (** [rings_bond_keys(gra, ts_=False)]: the bond keys of each ring *)
  rings_bond_keys : graph → list (gset bkey);
}.

Module Core.
Section core.
Context `{External}.

(** Modelled from the spec: the getters of the Graph Core, which is
    not among the sources ("atom-key/bond-key enumeration, attribute
    getters/setters"). *)
Definition atom_keys (g : graph) : gset Z := dom (atoms g).
Definition bond_keys (g : graph) : gset bkey := dom (bonds g).
Definition atom_symbols (g : graph) : gmap Z string := atom_symbol <$> atoms g.
Definition atom_implicit_hydrogens (g : graph) : gmap Z Z := atom_hyd <$> atoms g.
Definition atom_stereo_parities (g : graph) : gmap Z parity := atom_par <$> atoms g.
Definition bond_orders (g : graph) : gmap bkey Z := bond_ord <$> bonds g.
Definition bond_stereo_parities (g : graph) : gmap bkey parity := bond_par <$> bonds g.
Definition stereo_parities (g : graph) : parities :=
  Parities (atom_stereo_parities g) (bond_stereo_parities g).
Definition mass_numbers (g : graph) : gmap Z Z :=
  dict_.transform_values (atom_symbols g) to_mass_number.

(** [atom_keys(gra, symb='H')] *)
Definition atom_keys_symb (g : graph) (s : string) : gset Z :=
  dom (filter (λ ka, atom_symbol ka.2 = s) (atoms g)).

(** Modelled from the spec: the setters of the Graph Core; a setter
    changes the entries of the keys it is given and returns a new
    graph value. *)
Definition set_par_of_atom (p : parity) (a : atom) : atom :=
  Atom (atom_symbol a) (atom_hyd a) p.
Definition set_hyd_of_atom (h : Z) (a : atom) : atom :=
  Atom (atom_symbol a) h (atom_par a).
Definition set_par_of_bond (p : parity) (b : bond) : bond :=
  Bond (bond_ord b) p.
Definition set_ord_of_bond (o : Z) (b : bond) : bond :=
  Bond o (bond_par b).

Definition set_atom_stereo_parities (g : graph) (d : gmap Z parity) : graph :=
  Graph (map_imap (λ k a, Some (match d !! k with
                                | Some p => set_par_of_atom p a
                                | None => a
                                end)) (atoms g))
        (bonds g).

Definition set_bond_stereo_parities (g : graph) (d : gmap bkey parity) : graph :=
  Graph (atoms g)
        (map_imap (λ k b, Some (match d !! k with
                                | Some p => set_par_of_bond p b
                                | None => b
                                end)) (bonds g)).

Definition set_stereo_parities (g : graph) (d : parities) : graph :=
  set_bond_stereo_parities (set_atom_stereo_parities g (atom_pars d)) (bond_pars d).

Definition set_bond_orders (g : graph) (d : gmap bkey Z) : graph :=
  Graph (atoms g)
        (map_imap (λ k b, Some (match d !! k with
                                | Some o => set_ord_of_bond o b
                                | None => b
                                end)) (bonds g)).

(** Modelled from the spec: the stereo keys are the keys whose parity
    is [True] or [False]. *)
Definition atom_stereo_keys (g : graph) : gset Z :=
  dict_.keys_by_value (atom_stereo_parities g) (λ p, bool_decide (is_Some p)).
Definition bond_stereo_keys (g : graph) : gset bkey :=
  dict_.keys_by_value (bond_stereo_parities g) (λ p, bool_decide (is_Some p)).
Definition has_atom_stereo (g : graph) : bool :=
  bool_decide (atom_stereo_keys g ≠ ∅).
Definition has_bond_stereo (g : graph) : bool :=
  bool_decide (bond_stereo_keys g ≠ ∅).
Definition has_stereo (g : graph) : bool :=
  has_atom_stereo g || has_bond_stereo g.

Definition without_stereo (g : graph) : graph :=
  Graph (set_par_of_atom None <$> atoms g) (set_par_of_bond None <$> bonds g).

(** Modelled from the spec: graph editing of the Graph Core.
    [subgraph(gra, keys, stereo=True)] keeps the atoms of [keys] and the
    bonds between them. *)
Definition subgraph (g : graph) (ks : gset Z) : graph :=
  Graph (filter (λ ka, ka.1 ∈ ks) (atoms g))
        (filter (λ kb, kb.1.1 ∈ ks ∧ kb.1.2 ∈ ks) (bonds g)).

Definition remove_atoms (g : graph) (ks : gset Z) : graph :=
  subgraph g (atom_keys g ∖ ks).

(** Modelled from the spec: a dummy atom is one of atomic number 0;
    [without_dummy_atoms] is the subgraph on the other atoms. *)
Definition without_dummy_atoms (g : graph) : graph :=
  subgraph g (dom (filter (λ ka, to_number (atom_symbol ka.2) ≠ 0) (atoms g))).

(** Modelled from the spec: [without_pi_bonds] sets every bond order to
    1, except the orders 0, 0.1 and 0.9. *)
Definition without_pi_bonds (g : graph) : graph :=
  Graph (atoms g)
        ((λ b, if bool_decide (bond_ord b ∈ [0; 1; 9])
               then b else set_ord_of_bond 10 b) <$> bonds g).

(** Modelled from the spec: [without_bonds_by_orders(gra, ords)] removes
    the bonds whose order is one of [ords]. *)
Definition without_bonds_by_orders (g : graph) (ords : list Z) : graph :=
  Graph (atoms g) (filter (λ kb, bond_ord kb.2 ∉ ords) (bonds g)).

(** Modelled from the spec: connectivity queries of the Graph Core.  The
    neighbours of an atom are the other ends of its bonds, reacting
    bonds included. *)
Definition neighbors_in (bnd_keys : gset bkey) (k : Z) : gset Z :=
  set_omap (λ b : bkey, if bool_decide (b.1 = k) then Some b.2
                        else if bool_decide (b.2 = k) then Some b.1
                        else None) bnd_keys.

Definition neighbor_keys (g : graph) (k : Z) : gset Z :=
  neighbors_in (bond_keys g) k.

Definition atoms_neighbor_atom_keys (g : graph) : gmap Z (gset Z) :=
  map_imap (λ k _, Some (neighbor_keys g k)) (atoms g).

Definition atoms_bond_keys (g : graph) : gmap Z (gset bkey) :=
  map_imap (λ k _, Some (filter (λ b : bkey, b.1 = k ∨ b.2 = k) (bond_keys g))) (atoms g).

(** Modelled from the spec: hydrogens of the backbone.  A hydrogen
    belongs to the backbone when all its neighbours are hydrogens of
    larger key (one atom of H2) or when it has more than one neighbour;
    the other hydrogens can be made implicit. *)
Definition backbone_hydrogen_keys (g : graph) : gset Z :=
  let hyd_keys := atom_keys_symb g "H"%string in
  filter (λ h, (∀ n, n ∈ neighbor_keys g h → n ∈ hyd_keys ∧ h < n)
               ∨ (1 < size (neighbor_keys g h))%nat) hyd_keys.

Definition nonbackbone_hydrogen_keys (g : graph) : gset Z :=
  atom_keys_symb g "H"%string ∖ backbone_hydrogen_keys g.

(** [backbone_keys(gra, hyd=True)] and [backbone_keys(gra, hyd=False)] *)
Definition backbone_keys (g : graph) : gset Z :=
  atom_keys g ∖ nonbackbone_hydrogen_keys g.
Definition backbone_keys_no_hyd (g : graph) : gset Z :=
  atom_keys g ∖ atom_keys_symb g "H"%string.

Definition atom_nonbackbone_hydrogen_keys (g : graph) : gmap Z (gset Z) :=
  dict_.transform_values (atoms_neighbor_atom_keys g)
    (λ ns, ns ∩ nonbackbone_hydrogen_keys g).

(** Modelled from the spec: [implicit] turns the hydrogens outside the
    backbone into implicit hydrogen counts of their parent atoms. *)
Definition implicit (g : graph) : graph :=
  let hyd_dct := dict_.by_key (atom_nonbackbone_hydrogen_keys g) (backbone_keys g) in
  let exp_hyd_keys : gset Z := map_fold (λ _ hs acc, hs ∪ acc) ∅ hyd_dct in
  let g' := Graph (map_imap (λ k a, Some (match hyd_dct !! k with
                                          | Some hs => set_hyd_of_atom (atom_hyd a + Z.of_nat (size hs)) a
                                          | None => a
                                          end)) (atoms g))
                  (bonds g) in
  remove_atoms g' exp_hyd_keys.

Definition max_key (g : graph) : Z :=
  set_fold Z.max 0 (atom_keys g).

(** Modelled from the spec: [explicit] gives every backbone atom, in
    ascending key order, one new hydrogen atom per implicit hydrogen;
    the new keys follow the largest key of the graph. *)
Definition add_bonded_hydrogens (k : Z) (n : nat) (st : Z * graph) : Z * graph :=
  Nat.iter n (λ st : Z * graph,
    (st.1 + 1,
     Graph (<[st.1 := Atom "H"%string 0 None]> (atoms st.2))
           (<[bk k st.1 := Bond 10 None]> (bonds st.2)))) st.

Definition explicit (g : graph) : graph :=
  let step (st : Z * graph) (k : Z) : Z * graph :=
    match atoms g !! k with
    | Some a =>
        add_bonded_hydrogens k (Z.to_nat (atom_hyd a))
          (st.1, Graph (<[k := set_hyd_of_atom 0 a]> (atoms st.2)) (bonds st.2))
    | None => st
    end in
  (foldl step (max_key g + 1, g) (elements_Z (backbone_keys g))).2.

(** Modelled from the spec: [relabel(gra, key_dct)] renames the atom
    keys, and the bond keys with them; a key outside [key_dct] keeps its
    name. *)
Definition relabel_key (d : gmap Z Z) (k : Z) : Z := default k (d !! k).

Definition relabel (g : graph) (d : gmap Z Z) : graph :=
  Graph (list_to_map ((λ ka : Z * atom, (relabel_key d ka.1, ka.2)) <$> map_to_list (atoms g)))
        (list_to_map ((λ kb : bkey * bond,
                         (bk (relabel_key d kb.1.1) (relabel_key d kb.1.2), kb.2))
                      <$> map_to_list (bonds g))).

(** Modelled from the spec: transition-state graphs.  Forming bonds have
    order 0.1, breaking bonds 0.9; reversing the direction swaps them. *)
Definition ts_forming_bond_keys (g : graph) : gset bkey :=
  dict_.keys_by_value (bond_orders g) (λ o, bool_decide (o = 1)).
Definition ts_breaking_bond_keys (g : graph) : gset bkey :=
  dict_.keys_by_value (bond_orders g) (λ o, bool_decide (o = 9)).
Definition is_ts_graph (g : graph) : bool :=
  bool_decide (ts_forming_bond_keys g ∪ ts_breaking_bond_keys g ≠ ∅).
Definition ts_reverse (g : graph) : graph :=
  Graph (atoms g)
        ((λ b, if bool_decide (bond_ord b = 1) then set_ord_of_bond 9 b
               else if bool_decide (bond_ord b = 9) then set_ord_of_bond 1 b
               else b) <$> bonds g).

(** Modelled from the spec: connected components, found on the atom
    keys and the bond keys alone.  The component of an atom is found by
    adding neighbours as often as there are atoms. *)
Definition expand (bnd_keys : gset bkey) (s : gset Z) : gset Z :=
  s ∪ set_fold (λ k acc, neighbors_in bnd_keys k ∪ acc) ∅ s.

Definition component_of (atm_keys : gset Z) (bnd_keys : gset bkey) (k : Z) : gset Z :=
  Nat.iter (size atm_keys) (expand bnd_keys) {[k]}.

Fixpoint components_aux (fuel : nat) (atm_keys : gset Z) (bnd_keys : gset bkey)
    (todo : list Z) : list (gset Z) :=
  match fuel, todo with
  | S n, k :: rest =>
      let c := component_of atm_keys bnd_keys k in
      c :: components_aux n atm_keys bnd_keys (filter (λ k', k' ∉ c) rest)
  | _, _ => []
  end.

Definition connected_components_atom_keys (g : graph) : list (gset Z) :=
  components_aux (size (atom_keys g)) (atom_keys g) (bond_keys g)
                 (elements_Z (atom_keys g)).

Definition connected_components (g : graph) : list graph :=
  subgraph g <$> connected_components_atom_keys g.

Definition is_connected (g : graph) : bool :=
  bool_decide (length (connected_components g) = 1%nat).


(** Modelled from the spec: the neighbours that matter for a
    stereocentre, sorted by priority.  [sorted(keys, key=pri.__getitem__)]
    raises a [KeyError] for a key without a priority. *)
Definition sorted_by_priority (pri : gmap Z Z) (ks : list Z) : res (list Z) :=
  kps ← rmapM (λ k, p ← dict_.getitem pri k; Ok (k, p)) ks;
  Ok ((sorted_by (λ a b : Z * Z, a.2 <=? b.2) kps).*1).

Definition atom_stereo_sorted_neighbor_keys
    (g : graph) (key : Z) (pri : gmap Z Z) : res (list Z) :=
  nkeys ← dict_.getitem (atoms_neighbor_atom_keys g) key;
  sorted_by_priority pri (elements_Z nkeys).

Definition bond_stereo_sorted_neighbor_keys
    (g : graph) (key1 key2 : Z) (pri : gmap Z Z) : res (list Z * list Z) :=
  nkeys1 ← dict_.getitem (atoms_neighbor_atom_keys g) key1;
  nkeys2 ← dict_.getitem (atoms_neighbor_atom_keys g) key2;
  nkey1s ← sorted_by_priority pri (elements_Z (nkeys1 ∖ {[key2]}));
  nkey2s ← sorted_by_priority pri (elements_Z (nkeys2 ∖ {[key1]}));
  Ok (nkey1s, nkey2s).

(** Modelled from the spec: [util.is_even_permutation(seq1, seq2)], the
    parity of the permutation that takes one order of the same distinct
    values to the other; it is the parity of the number of pairs that
    the two orders put differently. *)
Fixpoint index_of (x : Z) (l : list Z) : nat :=
  match l with
  | [] => 0
  | y :: l' => if bool_decide (y = x) then 0 else S (index_of x l')
  end.

Fixpoint inversions (l : list nat) : nat :=
  match l with
  | [] => 0
  | x :: l' => length (filter (λ y, y < x)%nat l') + inversions l'
  end.

Definition is_even_permutation (seq1 seq2 : list Z) : res bool :=
  _ ← assert (bool_decide (sorted_Z seq1 = sorted_Z seq2 ∧ NoDup seq1)) NotAPermutation;
  Ok (Nat.even (inversions ((λ v, index_of v seq2) <$> seq1))).

End core.
End Core.

(** ** The canonicalization module (_canon.py) *)

Module Canon.
Import Core.
Section canon.
Context `{External}.

(** *** Priority classes *)

(** [pri_dct[k]] for a key [k] of [pri_dct] itself. *)
Definition pri_of (pri : gmap Z Z) (k : Z) : Z := default 0 (pri !! k).

(** [sorted(sorted(pri_dct.keys()), key=pri_dct.__getitem__)] *)
Definition keys_by_priority (pri : gmap Z Z) : list Z :=
  sorted_by (λ a b, pri_of pri a <=? pri_of pri b) (elements_Z (dom pri)).

Definition sorted_classes_from_priority_dict (pri : gmap Z Z) : list (list Z) :=
  groupby (λ a b, pri_of pri a =? pri_of pri b) (keys_by_priority pri).

Definition class_dict_from_priority_dict (pri : gmap Z Z) : gmap Z (list Z) :=
  list_to_map ((λ c, (pri_of pri (hd 0 c), c)) <$> sorted_classes_from_priority_dict pri).

(** [sorted(dct.items(), reverse=True)] for a class dictionary: the
    items by descending class index. *)
Definition sorted_items_reverse (d : gmap Z (list Z)) : list (Z * list Z) :=
  sorted_by (λ a b : Z * list Z, b.1 <=? a.1) (map_to_list d).

(** The classes with more than one member, largest index first. *)
Definition classes_to_refine (pri : gmap Z Z) : list (Z * list Z) :=
  sorted_items_reverse
    (dict_.filter_by_value (class_dict_from_priority_dict pri)
                           (λ v, bool_decide (1 < length v)%nat)).

(** *** Sort values of the atom invariants *)

(** The tuple [(symb, deg, hnum, mnum, apar, bpars, bords, nidxs)]. *)
Record sort_value := SortValue {
  sv_symb : string;
  sv_deg : Z;
  sv_hnum : Z;
  sv_mnum : Z;
  sv_apar : Z;
  sv_bpars : list Z;
  sv_bords : list Z;
  sv_nidxs : list Z;
}.

(** [_replace_none]: [None] becomes [numpy.inf], which sorts after
    [False] (0) and [True] (1). *)
Definition replace_none (p : parity) : Z :=
  match p with
  | Some false => 0
  | Some true => 1
  | None => 2
  end.

(** [_replace_reacting_bond_order]: [int(val * 100)] for 0.1 and 0.9,
    so that non-reacting < forming < breaking; in tenths. *)
Definition replace_reacting_bond_order (o : Z) : Z :=
  if bool_decide (o ∈ [1; 9]) then 100 * o else o.

(** [_normalize_symbol]: C first, H last, the others alphabetically. *)
Definition normalize_symbol (symb : string) : string :=
  let symb := to_symbol symb in
  if bool_decide (symb = "C"%string) then ""%string
  else if bool_decide (symb = "H"%string) then "zz"%string
  else symb.

Definition then_compare (c1 c2 : comparison) : comparison :=
  match c1 with
  | Eq => c2
  | c => c
  end.

(** Python's order on the tuples. *)
Definition sort_value_compare (v w : sort_value) : comparison :=
  then_compare (String.compare (sv_symb v) (sv_symb w))
  (then_compare (sv_deg v ?= sv_deg w)
  (then_compare (sv_hnum v ?= sv_hnum w)
  (then_compare (sv_mnum v ?= sv_mnum w)
  (then_compare (sv_apar v ?= sv_apar w)
  (then_compare (lex_compare Z.compare (sv_bpars v) (sv_bpars w))
  (then_compare (lex_compare Z.compare (sv_bords v) (sv_bords w))
                (lex_compare Z.compare (sv_nidxs v) (sv_nidxs w)))))))).

(** [sort_evaluator_atom_invariants_(gra)(pri_dct)(key)] *)
Definition sort_evaluator_atom_invariants_
    (g : graph) (pri : gmap Z Z) (key : Z) : res sort_value :=
  let g := without_pi_bonds (implicit g) in
  let g_no_rxbs := without_bonds_by_orders g [1; 9] in
  let bnds_dct_no_rxbs := atoms_bond_keys g_no_rxbs in
  let symb_dct := dict_.transform_values (atom_symbols g_no_rxbs) normalize_symbol in
  let hnum_dct := atom_implicit_hydrogens g_no_rxbs in
  let mnum_dct := mass_numbers g_no_rxbs in
  let apar_dct := dict_.transform_values (atom_stereo_parities g_no_rxbs) replace_none in
  let bpar_dct := bond_stereo_parities g_no_rxbs in
  let sortable_bond_stereo_values (bnd_keys : gset bkey) : list Z :=
    sorted_Z ((λ k, replace_none (default None (bpar_dct !! k))) <$> elements bnd_keys) in
  let bpars_dct := dict_.transform_values bnds_dct_no_rxbs sortable_bond_stereo_values in
  let bord_dct := bond_orders g in
  let sortable_bond_orders (bnd_keys : gset bkey) : list Z :=
    sorted_Z ((λ k, replace_reacting_bond_order (default 0 (bord_dct !! k)))
              <$> elements bnd_keys) in
  let bords_dct := dict_.transform_values (atoms_bond_keys g) sortable_bond_orders in
  let nkeys_dct := atoms_neighbor_atom_keys g in
  symb ← dict_.getitem symb_dct key;
  bnds ← dict_.getitem bnds_dct_no_rxbs key;
  hnum ← dict_.getitem hnum_dct key;
  mnum ← dict_.getitem mnum_dct key;
  apar ← dict_.getitem apar_dct key;
  bpars ← dict_.getitem bpars_dct key;
  bords ← dict_.getitem bords_dct key;
  nkeys ← dict_.getitem nkeys_dct key;
  nidxs ← rmapM (dict_.getitem pri) (elements_Z nkeys);
  Ok (SortValue symb (Z.of_nat (size bnds)) hnum mnum apar bpars bords (sorted_Z nidxs)).

(** *** Refining priorities *)

(** [sorted(cla, key=srt_val_)] followed by [itertools.groupby]. *)
Definition sort_and_partition (g : graph) (pri : gmap Z Z) (cla : list Z)
  : res (list (list Z)) :=
  kvs ← rmapM (λ k, v ← sort_evaluator_atom_invariants_ g pri k; Ok (k, v)) cla;
  let srt := sorted_by (λ a b : Z * sort_value,
                          cmp_leb (sort_value_compare a.2 b.2)) kvs in
  Ok ((λ part : list (Z * sort_value), part.*1)
      <$> groupby (λ a b : Z * sort_value,
                     cmp_eqb (sort_value_compare a.2 b.2)) srt).

(** The state of the loop of [refine_priorities]: the priorities, the
    class dictionary and the classes that are up for re-evaluation. *)
Record refine_state := RefineState {
  rs_pri : gmap Z Z;
  rs_cla : gmap Z (list Z);
  rs_new : list (Z * list Z);
}.

(** [for part in parts: cla_dct[new_idx] = part; pri_dct.update(...);
    new_idxs.append(new_idx); new_idx += len(part)] *)
Definition assign_part (st : gmap Z Z * gmap Z (list Z) * list Z * Z) (part : list Z)
  : gmap Z Z * gmap Z (list Z) * list Z * Z :=
  let '(pri, cla_dct, new_idxs, new_idx) := st in
  (dict_.update pri (list_to_map ((λ k, (k, new_idx)) <$> part)),
   <[new_idx := part]> cla_dct,
   new_idxs ++ [new_idx],
   new_idx + Z.of_nat (length part)).

(** One pass of [for new_idx in new_idxs], collecting the classes of
    the neighbours of the atoms that were re-classified. *)
Definition neighbor_classes (ngb_keys_dct : gmap Z (gset Z)) (pri : gmap Z Z)
    (cla_dct : gmap Z (list Z)) (new_clas : list (Z * list Z))
    (ngb_idxs : gset Z) (new_idx : Z) : res (gset Z) :=
  new_cla ← dict_.getitem cla_dct new_idx;
  nss ← rmapM (dict_.getitem ngb_keys_dct) new_cla;
  let ngb_keys : gset Z := ⋃ nss in
  ps ← rmapM (dict_.getitem pri) (elements_Z ngb_keys);
  Ok ((ngb_idxs ∪ list_to_set ps) ∖ list_to_set (new_clas.*1)).

Fixpoint rfoldl {A B} (f : A → B → res A) (a : A) (l : list B) : res A :=
  match l with
  | [] => Ok a
  | x :: l => a' ← f a x; rfoldl f a' l
  end.

(** The body of the [while new_clas] loop, after the pop. *)
Definition refine_step (g : graph) (ngb_keys_dct : gmap Z (gset Z))
    (pri : gmap Z Z) (cla_dct : gmap Z (list Z))
    (idx : Z) (cla : list Z) (new_clas : list (Z * list Z)) : res refine_state :=
  parts ← sort_and_partition g pri cla;
  if bool_decide (1 < length parts)%nat then
    let '(pri, cla_dct, new_idxs, _) := foldl assign_part (pri, cla_dct, [], idx) parts in
    ngb_idxs ← rfoldl (neighbor_classes ngb_keys_dct pri cla_dct new_clas) ∅ new_idxs;
    new_clas ← rfoldl (λ new_clas ngb_idx,
                         ngb_cla ← dict_.getitem cla_dct ngb_idx;
                         Ok (if bool_decide (1 < length ngb_cla)%nat
                             then (ngb_idx, ngb_cla) :: new_clas
                             else new_clas))
                      new_clas (elements_Z ngb_idxs);
    Ok (RefineState pri cla_dct new_clas)
  else Ok (RefineState pri cla_dct new_clas).

Fixpoint refine_loop (fuel : nat) (g : graph) (ngb_keys_dct : gmap Z (gset Z))
    (st : refine_state) : res (gmap Z Z) :=
  match rs_new st with
  | [] => Ok (rs_pri st)
  | (idx, cla) :: new_clas =>
      match fuel with
      | O => Raise OutOfFuel
      | S fuel =>
          st' ← refine_step g ngb_keys_dct (rs_pri st) (rs_cla st) idx cla new_clas;
          refine_loop fuel g ngb_keys_dct st'
      end
  end.

(** A bound on the number of passes of the loops over priorities: every
    pass that changes the priorities raises their sum, no priority
    exceeds the largest initial one by the number of atoms or more, and
    the list of classes to re-evaluate never holds more classes than
    there are atoms. *)
Definition pri_sum (pri : gmap Z Z) : Z := map_fold (λ _ p acc, p + acc) 0 pri.
Definition pri_max (pri : gmap Z Z) : Z := map_fold (λ _ p acc, Z.max p acc) 0 pri.
Definition pri_slack (pri : gmap Z Z) : Z :=
  let n := Z.of_nat (size pri) in
  n * (pri_max pri + n) - pri_sum pri.
Definition refine_fuel (pri : gmap Z Z) : nat :=
  Z.to_nat ((Z.of_nat (size pri) + 1) * (pri_slack pri + 1)).

Definition refine_priorities (g : graph) (pri : option (gmap Z Z)) : res (gmap Z Z) :=
  _ ← assert (is_connected g) NotConnected;
  _ ← assert (bool_decide (g = without_dummy_atoms g)) HasDummyAtoms;
  let g := implicit g in
  let pri := default ∅ pri in
  let pri := dict_.by_key_fill pri (atom_keys g) 0 in
  let ngb_keys_dct := atoms_neighbor_atom_keys g in
  let cla_dct := class_dict_from_priority_dict pri in
  refine_loop (refine_fuel pri) g ngb_keys_dct
    (RefineState pri cla_dct (classes_to_refine pri)).

(** *** Breaking ties *)

Fixpoint break_ties_loop (fuel : nat) (g : graph) (pri : gmap Z Z) : res (gmap Z Z) :=
  match classes_to_refine pri with
  | [] => Ok pri
  | (idx, cla) :: _ =>
      match fuel with
      | O => Raise OutOfFuel
      | S fuel =>
          match last cla with
          | None => Raise IndexError
          | Some k =>
              let new_idx := idx + Z.of_nat (length cla) - 1 in
              pri ← refine_priorities g (Some (<[k := new_idx]> pri));
              break_ties_loop fuel g pri
          end
      end
  end.

Definition break_ties_fuel (pri : gmap Z Z) : nat :=
  S (Z.to_nat (pri_slack pri)).

Definition break_priority_ties (g : graph) (pri : gmap Z Z) : res (gmap Z Z) :=
  _ ← assert (is_connected g) NotConnected;
  _ ← assert (bool_decide (g = without_dummy_atoms g)) HasDummyAtoms;
  break_ties_loop (break_ties_fuel pri) g pri.

(** *** Priorities of hydrogens *)

Definition list_max_Z (l : list Z) : res Z :=
  match l with
  | [] => Raise ValueError
  | x :: l' => Ok (foldl Z.max x l')
  end.

(** [for hyd_part in hyd_parts: hyd_pri_dct.update({k: next_idx for k in
    hyd_part}); next_idx += len(hyd_part)] *)
Definition assign_hyd_part (st : gmap Z Z * Z) (hyd_part : list Z) : gmap Z Z * Z :=
  (dict_.update st.1 (list_to_map ((λ k, (k, st.2)) <$> hyd_part)),
   st.2 + Z.of_nat (length hyd_part)).

(** [{k: -abs(p) if k in all_hyd_keys else p for k, p in pri_dct.items()}] *)
Definition negate_hydrogen_priorities (g : graph) (pri : gmap Z Z) : gmap Z Z :=
  let all_hyd_keys := atom_keys_symb g "H"%string in
  map_imap (λ k p, Some (if bool_decide (k ∈ all_hyd_keys) then - Z.abs p else p)) pri.

Definition assign_hydrogen_priorities
    (g : graph) (pri : gmap Z Z) (break_ties neg : bool) : res (gmap Z Z) :=
  let hyd_keys_pool := nonbackbone_hydrogen_keys g in
  '(g, pri) ←
    (if bool_decide (hyd_keys_pool ≠ ∅) then
       bbn_keys ← sorted_by_priority pri (elements_Z (backbone_keys g));
       let bbn_pri_dct := dict_.by_key pri (list_to_set bbn_keys) in
       let g := explicit g in
       let hyd_keys_dct := atom_nonbackbone_hydrogen_keys g in
       max_pri ← list_max_Z ((map_to_list bbn_pri_dct).*2);
       let next_idx := max_pri + 1 in
       hyd_pri_dct ←
         (if negb break_ties then
            let bbn_parts := sorted_classes_from_priority_dict pri in
            hyd_parts ← rmapM (λ bbn_part,
                                 hss ← rmapM (dict_.getitem hyd_keys_dct) bbn_part;
                                 Ok (concat (elements_Z <$> hss))) bbn_parts;
            Ok (foldl assign_hyd_part (∅, next_idx) hyd_parts).1
          else
            hss ← rmapM (dict_.getitem hyd_keys_dct) bbn_keys;
            let srt_hyd_keys := concat (elements_Z <$> hss) in
            Ok (list_to_map (imap (λ i k, (k, Z.of_nat i + next_idx)) srt_hyd_keys))
          : res (gmap Z Z));
       let hyd_pri_dct := dict_.by_key hyd_pri_dct hyd_keys_pool in
       Ok (g, dict_.update pri hyd_pri_dct)
     else Ok (g, pri) : res (graph * gmap Z Z));
  Ok (if neg then negate_hydrogen_priorities g pri else pri).

(** *** Stereogenic atoms and bonds *)

Definition rfilter {A} (p : A → res bool) (l : list A) : res (list A) :=
  bs ← rmapM (λ x, b ← p x; Ok (x, b)) l;
  Ok ((filter (λ xb : A * bool, xb.2 = true) bs).*1).

Definition distinct (l : list Z) : bool := bool_decide (NoDup l).

Definition stereogenic_atom_keys_from_priorities
    (g : graph) (pri : gmap Z Z) (assigned : bool) : res (gset Z) :=
  let g := without_pi_bonds g in
  let g := explicit g in
  pri ← assign_hydrogen_priorities g pri false false;
  let atm_keys := tetrahedral_atom_keys g in
  let atm_keys := if negb assigned then atm_keys ∖ atom_stereo_keys g else atm_keys in
  let is_stereogenic (key : Z) : res bool :=
    nkeys ← atom_stereo_sorted_neighbor_keys g key pri;
    _ ← assert (bool_decide (length nkeys ≤ 4)%nat) TooManyNeighbors;
    pris ← rmapM (dict_.getitem pri) nkeys;
    Ok (distinct pris) in
  ks ← rfilter is_stereogenic (elements_Z atm_keys);
  Ok (list_to_set ks).

(** The contribution of one end of a bond: [False if not nkeys else
    True if len(nkeys) == 1 else len(set(pris)) == len(pris)]. *)
Definition end_is_stereogenic (pri : gmap Z Z) (nkeys : list Z) : res bool :=
  _ ← assert (bool_decide (length nkeys ≤ 2)%nat) TooManyNeighbors;
  pris ← rmapM (dict_.getitem pri) nkeys;
  Ok (match nkeys with
      | [] => false
      | [_] => true
      | _ => distinct pris
      end).

Definition bond_is_stereogenic (g : graph) (pri : gmap Z Z) (key : bkey) : res bool :=
  '(nkey1s, nkey2s) ← bond_stereo_sorted_neighbor_keys g key.1 key.2 pri;
  r1 ← end_is_stereogenic pri nkey1s;
  r2 ← end_is_stereogenic pri nkey2s;
  Ok (true && r1 && r2).

(** The bonds of the rings of fewer than 8 atoms. *)
Definition small_ring_bond_keys (g : graph) : gset bkey :=
  ⋃ (filter (λ x : gset bkey, (size x < 8)%nat) (rings_bond_keys g)).

Definition sorted_bkeys (s : gset bkey) : list bkey :=
  sorted_by (λ a b : bkey, cmp_leb (then_compare (a.1 ?= b.1) (a.2 ?= b.2))) (elements s).

Definition stereogenic_bond_keys_from_priorities
    (g : graph) (pri : gmap Z Z) (assigned : bool) : res (gset bkey) :=
  let g := without_pi_bonds g in
  let g := explicit g in
  pri ← assign_hydrogen_priorities g pri false false;
  let bnd_keys := rigid_planar_bond_keys g in
  let bnd_keys := if negb assigned then bnd_keys ∖ bond_stereo_keys g else bnd_keys in
  let bnd_keys := bnd_keys ∖ small_ring_bond_keys g in
  ks ← rfilter (bond_is_stereogenic g pri) (sorted_bkeys bnd_keys);
  Ok (list_to_set ks).

Definition stereogenic_keys_from_priorities
    (g : graph) (pri : gmap Z Z) (assigned : bool) : res (gset Z * gset bkey) :=
  ste_atm_keys ← stereogenic_atom_keys_from_priorities g pri assigned;
  ste_bnd_keys ← stereogenic_bond_keys_from_priorities g pri assigned;
  Ok (ste_atm_keys, ste_bnd_keys).

(** *** Parity evaluators *)

(** The local ``priority'' of a key: the key itself for a heavy atom,
    [-abs(k)] for a backbone hydrogen and [-numpy.inf] for the other
    hydrogens. *)
Inductive loc_pri :=
| NegInf
| Fin (z : Z).

Definition loc_pri_leb (a b : loc_pri) : bool :=
  match a, b with
  | NegInf, _ => true
  | Fin _, NegInf => false
  | Fin x, Fin y => x <=? y
  end.

Definition local_priority_dict (g : graph) : gmap Z loc_pri :=
  let d1 : gmap Z loc_pri := set_to_map (λ k, (k, Fin k)) (backbone_keys_no_hyd g) in
  let d2 : gmap Z loc_pri := set_to_map (λ k, (k, Fin (- Z.abs k))) (backbone_hydrogen_keys g) in
  let d3 : gmap Z loc_pri := gset_to_gmap NegInf (nonbackbone_hydrogen_keys g) in
  dict_.update (dict_.update d1 d2) d3.

(** [sorted(keys, key=loc_pri_dct.__getitem__)] *)
Definition sorted_by_local_priority (loc : gmap Z loc_pri) (ks : list Z) : res (list Z) :=
  kps ← rmapM (λ k, p ← dict_.getitem loc k; Ok (k, p)) ks;
  Ok ((sorted_by (λ a b : Z * loc_pri, loc_pri_leb a.2 b.2) kps).*1).

(** [max(keys, key=loc_pri_dct.__getitem__)]: the first of the largest. *)
Definition max_by_local_priority (loc : gmap Z loc_pri) (ks : list Z) : res Z :=
  kps ← rmapM (λ k, p ← dict_.getitem loc k; Ok (k, p)) ks;
  match kps with
  | [] => Raise ValueError
  | kp :: kps' =>
      Ok (foldl (λ best kp' : Z * loc_pri,
                   if loc_pri_leb kp'.2 best.2 then best else kp') kp kps').1
  end.

(** [not par] *)
Definition py_not (par : parity) : parity :=
  match par with
  | Some b => Some (negb b)
  | None => Some true
  end.

Definition last_item (l : list Z) : res Z :=
  match last l with
  | Some x => Ok x
  | None => Raise IndexError
  end.

Inductive evaluator :=
| ReadCanonical
| FlipLocal.

Definition parity_evaluator_read_canonical_ (g : graph) (pri : gmap Z Z)
  : res (stereo_key → res parity) :=
  let atm_par_dct := atom_stereo_parities g in
  let bnd_par_dct := bond_stereo_parities g in
  Ok (λ key,
        match key with
        | AtomKey key => dict_.getitem atm_par_dct key
        | BondKey key => dict_.getitem bnd_par_dct key
        end).

Definition parity_evaluator_flip_local_ (g : graph) (pri : gmap Z Z)
  : res (stereo_key → res parity) :=
  let g := explicit g in
  let atm_par_dct := atom_stereo_parities g in
  let bnd_par_dct := bond_stereo_parities g in
  let loc_pri_dct := local_priority_dict g in
  pri ← assign_hydrogen_priorities g pri false true;
  Ok (λ key,
        match key with
        | AtomKey key =>
            par ← dict_.getitem atm_par_dct key;
            can_srt ← atom_stereo_sorted_neighbor_keys g key pri;
            loc_srt ← sorted_by_local_priority loc_pri_dct can_srt;
            is_even ← is_even_permutation loc_srt can_srt;
            Ok (if is_even : bool then par else py_not par)
        | BondKey key =>
            par ← dict_.getitem bnd_par_dct key;
            '(nkey1s, nkey2s) ← bond_stereo_sorted_neighbor_keys g key.1 key.2 pri;
            can_nmax1 ← last_item nkey1s;
            can_nmax2 ← last_item nkey2s;
            loc_nmax1 ← max_by_local_priority loc_pri_dct nkey1s;
            loc_nmax2 ← max_by_local_priority loc_pri_dct nkey2s;
            Ok (if negb (xorb (bool_decide (loc_nmax1 = can_nmax1))
                              (bool_decide (loc_nmax2 = can_nmax2)))
                then par else py_not par)
        end).

Definition parity_evaluator (ev : evaluator) : graph → gmap Z Z → res (stereo_key → res parity) :=
  match ev with
  | ReadCanonical => parity_evaluator_read_canonical_
  | FlipLocal => parity_evaluator_flip_local_
  end.

(** [{k: p_(k) for k in keys}] for [p_ = par_eval_(gra0, pri_dct1)] *)
Definition evaluate_parities (ev : evaluator) (g0 : graph) (pri : gmap Z Z)
    (keys : gset Z * gset bkey) : res parities :=
  p_ ← parity_evaluator ev g0 pri;
  aps ← rmapM (λ k, p ← p_ (AtomKey k); Ok (k, p)) (elements_Z keys.1);
  bps ← rmapM (λ k, p ← p_ (BondKey k); Ok (k, p)) (sorted_bkeys keys.2);
  Ok (Parities (list_to_map aps) (list_to_map bps)).

(** *** Representations for comparing assignments *)

(** A representation is a tuple of [(priorities, parity)] pairs; Python
    compares the tuples lexicographically. *)
Definition rep_item_compare (a b : list Z * parity) : comparison :=
  then_compare (lex_compare Z.compare a.1 b.1) (replace_none a.2 ?= replace_none b.2).

Definition sorted_pris (pri : gmap Z Z) (ks : list Z) : res (list Z) :=
  ps ← rmapM (dict_.getitem pri) ks;
  Ok (sorted_Z ps).

Definition bond_pris (pri : gmap Z Z) (ks : list bkey) : res (list (bkey * list Z)) :=
  rmapM (λ k : bkey, ps ← sorted_pris pri [k.1; k.2]; Ok (k, ps)) ks.

Definition stereo_assignment_representation (g : graph) (pri : gmap Z Z)
  : res (list (list Z * parity)) :=
  atm_keys ← sorted_by_priority pri (elements_Z (atom_stereo_keys g));
  bnd_kps ← bond_pris pri (sorted_bkeys (bond_stereo_keys g));
  let bnd_kps := sorted_by (λ a b : bkey * list Z,
                              cmp_leb (lex_compare Z.compare a.2 b.2)) bnd_kps in
  atm_pris ← rmapM (λ k, p ← dict_.getitem pri k; Ok [p]) atm_keys;
  let bnd_pris := bnd_kps.*2 in
  atm_pars ← rmapM (dict_.getitem (atom_stereo_parities g)) atm_keys;
  bnd_pars ← rmapM (dict_.getitem (bond_stereo_parities g)) (bnd_kps.*1);
  Ok (zip (atm_pris ++ bnd_pris) (atm_pars ++ bnd_pars)).

(** [True if urep < rrep else False if urep > rrep else None] *)
Definition is_canonical_enantiomer (ugra : graph) (upri : gmap Z Z)
    (rgra : graph) (rpri : gmap Z Z) : res (option bool) :=
  urep ← stereo_assignment_representation ugra upri;
  rrep ← stereo_assignment_representation rgra rpri;
  Ok (match lex_compare rep_item_compare urep rrep with
      | Lt => Some true
      | Gt => Some false
      | Eq => None
      end).

Record ts_rep := TsRep {
  ts_counts : list Z;
  ts_frm : list (list Z);
  ts_brk : list (list Z);
  ts_ste : list (list Z * parity);
}.

Definition ts_direction_representation (tsg : graph) (pri : gmap Z Z) : res ts_rep :=
  let frm_keys := ts_forming_bond_keys tsg in
  let brk_keys := ts_breaking_bond_keys tsg in
  frm ← bond_pris pri (sorted_bkeys frm_keys);
  brk ← bond_pris pri (sorted_bkeys brk_keys);
  let srt := sorted_by (λ a b : list Z, cmp_leb (lex_compare Z.compare a b)) in
  ste_rep ← stereo_assignment_representation tsg pri;
  Ok (TsRep [Z.of_nat (size frm_keys); Z.of_nat (size brk_keys)]
            (srt (frm.*2)) (srt (brk.*2)) ste_rep).

Definition ts_rep_compare (a b : ts_rep) : comparison :=
  then_compare (lex_compare Z.compare (ts_counts a) (ts_counts b))
  (then_compare (lex_compare (lex_compare Z.compare) (ts_frm a) (ts_frm b))
  (then_compare (lex_compare (lex_compare Z.compare) (ts_brk a) (ts_brk b))
                (lex_compare rep_item_compare (ts_ste a) (ts_ste b)))).

Definition ts_is_canonical_direciton (ftsg : graph) (fpri : gmap Z Z)
    (rtsg : graph) (rpri : gmap Z Z) : res bool :=
  let ftsg := implicit ftsg in
  let fpri := dict_.by_key fpri (atom_keys ftsg) in
  frep ← ts_direction_representation ftsg fpri;
  let rtsg := implicit rtsg in
  let rpri := dict_.by_key rpri (atom_keys rtsg) in
  rrep ← ts_direction_representation rtsg rpri;
  Ok (match ts_rep_compare frep rrep with Lt => true | _ => false end).

(** *** The canonicalization driver *)

Definition keys_empty (keys : gset Z * gset bkey) : bool :=
  bool_decide (keys.1 = ∅ ∧ keys.2 = ∅).

(** The loop of [_algo]: one pass refines the priorities, finds the
    stereogenic keys and assigns their parities; the loop is left when
    there is no such key or when the pass returned the priorities it
    started from. *)
Fixpoint algo_loop (fuel : nat) (par_eval_ par_eval2_ : evaluator)
    (g0 g1 g2 : graph) (pri1 : option (gmap Z Z)) : res (gmap Z Z * graph * graph) :=
  match fuel with
  | O => Raise OutOfFuel
  | S fuel =>
      let pri0 := pri1 in
      pri1 ← refine_priorities g1 pri1;
      keys ← stereogenic_keys_from_priorities g1 pri1 false;
      if keys_empty keys then Ok (pri1, g1, g2)
      else
        pars1 ← evaluate_parities par_eval_ g0 pri1 keys;
        let g1 := set_stereo_parities g1 pars1 in
        pars2 ← evaluate_parities par_eval2_ g0 pri1 keys;
        let g2 := set_stereo_parities g2 pars2 in
        if bool_decide (pri0 = Some pri1) then Ok (pri1, g1, g2)
        else algo_loop fuel par_eval_ par_eval2_ g0 g1 g2 (Some pri1)
  end.

Definition algo_fuel (g : graph) (pri : option (gmap Z Z)) : nat :=
  let pri := dict_.by_key_fill (default ∅ pri) (atom_keys (implicit g)) 0 in
  S (S (Z.to_nat (pri_slack pri))).

Definition algo (par_eval_ par_eval2_ : evaluator) (gra_ : graph)
    (pri_dct_ : option (gmap Z Z)) (ts_rev : bool) : res (gmap Z Z * graph * graph) :=
  let g0 := if ts_rev then ts_reverse gra_ else gra_ in
  let g1 := without_stereo g0 in
  let g2 := g1 in
  '(pri, g1, g2) ← algo_loop (algo_fuel g1 pri_dct_) par_eval_ par_eval2_ g0 g1 g2 pri_dct_;
  let g2 := if ts_rev then ts_reverse g2 else g2 in
  Ok (pri, g1, g2).

(** [_calculate_priorities_and_assign_stereo], for one connected component *)
Definition calculate_priorities_and_assign_stereo_connected
    (g : graph) (par_eval_ par_eval2_ : option evaluator)
    (break_ties backbone_only : bool) (pri : option (gmap Z Z))
  : res (gmap Z Z * graph) :=
  let par_eval_ := default ReadCanonical par_eval_ in
  let par_eval2_ := default par_eval_ par_eval2_ in
  '(pri, g1, g2) ← algo par_eval_ par_eval2_ g pri false;
  '(pri, g1, g2) ←
    (if is_ts_graph g then
       '(rpri, rg1, rg2) ← algo par_eval_ par_eval2_ g (Some pri) true;
       is_can ← ts_is_canonical_direciton g1 pri rg1 rpri;
       Ok (if is_can : bool then (pri, g1, g2) else (rpri, rg1, rg2))
     else Ok (pri, g1, g2) : res (gmap Z Z * graph * graph));
  pri ← (if break_ties then break_priority_ties g1 pri else Ok pri);
  pri ← (if negb backbone_only
         then assign_hydrogen_priorities g pri break_ties false
         else Ok pri);
  Ok (pri, g2).

Definition calculate_priorities_and_assign_stereo
    (g : graph) (par_eval_ par_eval2_ : option evaluator)
    (break_ties backbone_only : bool) (pri : option (gmap Z Z))
  : res (gmap Z Z * graph) :=
  let gra2 := without_stereo g in
  let g := without_dummy_atoms g in
  let cgras := connected_components g in
  rfoldl (λ (acc : gmap Z Z * graph) (cgra : graph),
            let cpri := (λ p, dict_.by_key p (atom_keys cgra)) <$> pri in
            '(cpri, cgra2) ← calculate_priorities_and_assign_stereo_connected
                               cgra par_eval_ par_eval2_ break_ties backbone_only cpri;
            Ok (dict_.update acc.1 cpri,
                set_stereo_parities acc.2 (stereo_parities cgra2)))
         (∅, gra2) cgras.

Definition canonical_priorities (g : graph) (backbone_only break_ties : bool)
    (pri : option (gmap Z Z)) : res (gmap Z Z) :=
  '(pri, _) ← calculate_priorities_and_assign_stereo g None None break_ties backbone_only pri;
  Ok pri.

(** *** Canonical keys *)

Definition canonical_keys (g : graph) (backbone_only : bool) : res (gmap Z Z) :=
  let atm_par_dct0 := atom_stereo_parities g in
  let bnd_par_dct0 := bond_stereo_parities g in
  '(can_key_dct, g) ← calculate_priorities_and_assign_stereo g None None true backbone_only None;
  let atm_par_dct := atom_stereo_parities g in
  let bnd_par_dct := bond_stereo_parities g in
  _ ← assert (bool_decide (atm_par_dct = atm_par_dct0))
             (AtomParityMismatch atm_par_dct0 atm_par_dct);
  _ ← assert (bool_decide (bnd_par_dct = bnd_par_dct0))
             (BondParityMismatch bnd_par_dct0 bnd_par_dct);
  Ok can_key_dct.

Definition canonical (g : graph) : res graph :=
  can_key_dct ← canonical_keys g false;
  Ok (relabel g can_key_dct).

(** *** Local and canonical stereo *)

Definition reflect_local_stereo (g : graph) : graph :=
  let atm_par_dct := atom_stereo_parities g in
  let atm_par_dct := dict_.transform_values atm_par_dct
                       (λ x, match x with None => x | Some b => Some (negb b) end) in
  set_atom_stereo_parities g atm_par_dct.

Definition to_local_stereo (g : graph) (pri : option (gmap Z Z)) : res graph :=
  let can_gra := g in
  if has_stereo can_gra then
    let pri_dct_ := (λ p, dict_.by_key p (backbone_keys can_gra)) <$> pri in
    '(_, loc_gra) ← calculate_priorities_and_assign_stereo
                      can_gra (Some ReadCanonical) (Some FlipLocal) false false pri_dct_;
    Ok loc_gra
  else Ok can_gra.

Definition from_local_stereo (g : graph) (pri : option (gmap Z Z)) : res graph :=
  let loc_gra := g in
  if has_stereo loc_gra then
    let pri_dct_ := (λ p, dict_.by_key p (backbone_keys loc_gra)) <$> pri in
    '(_, can_gra) ← calculate_priorities_and_assign_stereo
                      loc_gra (Some FlipLocal) (Some FlipLocal) false false pri_dct_;
    Ok can_gra
  else Ok loc_gra.

Definition reflect (g : graph) : res graph :=
  if has_atom_stereo g then
    loc_gra ← to_local_stereo g None;
    let loc_gra := reflect_local_stereo loc_gra in
    from_local_stereo loc_gra None
  else Ok g.

(** *** The canonical enantiomer *)

Definition canonical_enantiomer_with_keys (g : graph)
  : res (graph * gmap Z Z * option bool) :=
  if negb (has_atom_stereo g) then
    let ce_gra := g in
    ce_can_key_dct ← canonical_keys g false;
    Ok (ce_gra, ce_can_key_dct, None)
  else
    let ugra := g in
    '(ucan_key_dct, uloc_gra) ← calculate_priorities_and_assign_stereo
                                  ugra (Some ReadCanonical) (Some FlipLocal) true false None;
    let rloc_gra := reflect_local_stereo uloc_gra in
    '(rcan_key_dct, rgra) ← calculate_priorities_and_assign_stereo
                              rloc_gra (Some FlipLocal) (Some FlipLocal) true false None;
    is_can ← is_canonical_enantiomer ugra ucan_key_dct rgra rcan_key_dct;
    let is_refl := negb <$> is_can in
    Ok (if bool_decide (is_refl = Some true)
        then (rgra, rcan_key_dct, is_refl)
        else (ugra, ucan_key_dct, is_refl)).

Definition canonical_enantiomer (g : graph) : res (graph * option bool) :=
  '(ce_gra, _, is_refl) ← canonical_enantiomer_with_keys g;
  Ok (ce_gra, is_refl).

End canon.
End Canon.

(** ** A reference instance of the external interface

    The theorems below hold for every instance of [External]; the
    examples are evaluated with this one: a periodic table for the
    elements that occur in them and a plain valence analysis. *)

Module Reference.
Import Core.

Definition atomic_number (s : string) : Z :=
  if bool_decide (s = "H"%string) then 1
  else if bool_decide (s = "C"%string) then 6
  else if bool_decide (s = "N"%string) then 7
  else if bool_decide (s = "O"%string) then 8
  else if bool_decide (s = "F"%string) then 9
  else if bool_decide (s = "Cl"%string) then 17
  else if bool_decide (s = "Br"%string) then 35
  else 0.

Definition mass_number (s : string) : Z :=
  if bool_decide (s = "H"%string) then 1
  else if bool_decide (s = "C"%string) then 12
  else if bool_decide (s = "N"%string) then 14
  else if bool_decide (s = "O"%string) then 16
  else if bool_decide (s = "F"%string) then 19
  else if bool_decide (s = "Cl"%string) then 35
  else if bool_decide (s = "Br"%string) then 79
  else 0.

Definition valence (s : string) : Z :=
  if bool_decide (s = "C"%string) then 4
  else if bool_decide (s = "N"%string) then 3
  else if bool_decide (s = "O"%string) then 2
  else if bool_decide (s = "X"%string) then 0
  else 1.

Definition graph_neighbors (g : graph) (k : Z) : gset Z :=
  set_omap (λ b : bkey, if bool_decide (b.1 = k) then Some b.2
                        else if bool_decide (b.2 = k) then Some b.1
                        else None) (dom (bonds g)).

(** The number of sigma bonds of an atom, implicit hydrogens included. *)
Definition bond_count (g : graph) (k : Z) (a : atom) : Z :=
  Z.of_nat (size (graph_neighbors g k)) + atom_hyd a.

Definition tetrahedral (g : graph) : gset Z :=
  dom (filter (λ ka, bond_count g ka.1 ka.2 = 4) (atoms g)).

(** An atom with exactly one valence left after its sigma bonds. *)
Definition sp2_atom_keys (g : graph) : gset Z :=
  dom (filter (λ ka, valence (atom_symbol ka.2) - bond_count g ka.1 ka.2 = 1) (atoms g)).

Definition rigid_planar (g : graph) : gset bkey :=
  filter (λ b : bkey, b.1 ∈ sp2_atom_keys g ∧ b.2 ∈ sp2_atom_keys g) (dom (bonds g)).

(** The simple paths of at most [n] bonds from [a] to [b] that stay
    outside [seen], each as the list of its atoms after [a]. *)
Fixpoint simple_paths (n : nat) (g : graph) (seen : gset Z) (a b : Z) : list (list Z) :=
  match n with
  | O => []
  | S n =>
      concat ((λ c, if bool_decide (c = b) then [[b]]
                    else if bool_decide (c ∈ seen) then []
                    else (λ p, c :: p) <$> simple_paths n g ({[c]} ∪ seen) c b)
              <$> elements (graph_neighbors g a))
  end.

Fixpoint path_bonds (a : Z) (p : list Z) : gset bkey :=
  match p with
  | [] => ∅
  | c :: p' => {[bk a c]} ∪ path_bonds c p'
  end.

(** The rings of at most 7 atoms, each as the set of its bonds. *)
Definition rings (g : graph) : list (gset bkey) :=
  concat ((λ b : bkey,
             (λ p, path_bonds b.1 p)
             <$> filter (λ p, (2 < length p)%nat)
                        (simple_paths 7 g {[b.1]} b.1 b.1))
          <$> elements (dom (bonds g))).

#[global] Instance reference : External := {|
  to_symbol s := s;
  to_number := atomic_number;
  to_mass_number := mass_number;
  tetrahedral_atom_keys := tetrahedral;
  rigid_planar_bond_keys := rigid_planar;
  rings_bond_keys := rings;
|}.

(** A graph from the lists of its atoms and bonds. *)
Definition graph_of (ats : list (Z * atom)) (bs : list (bkey * bond)) : graph :=
  Graph (list_to_map ats) (list_to_map bs).

Definition single (a b : Z) : bkey * bond := (bk a b, Bond 10 None).

End Reference.

(** ** Example molecules *)

Module Examples.
Import Reference.

(** Methane, its carbon labelled 5. *)
Definition methane : graph := graph_of [(5, Atom "C" 4 None)] [].

(** Ethane-1,2-diol: carbons 0 and 1, oxygens 3 (on carbon 0) and 2. *)
Definition diol : graph :=
  graph_of [(0, Atom "C" 2 None); (1, Atom "C" 2 None);
            (2, Atom "O" 1 None); (3, Atom "O" 1 None)]
           [single 0 1; single 0 3; single 1 2].

(** The priorities that [refine_priorities] gives the atoms of the diol. *)
Definition diol_priorities : gmap Z Z :=
  list_to_map [(0, 0); (1, 0); (2, 2); (3, 2)].

(** Cuneane, C8H8: a cage in which every carbon has three carbon
    neighbours and one hydrogen.  Atoms 0 and 4 lie on no three-ring,
    atoms 2 and 6 join the two three-rings, atoms 1, 3, 5, 7 are the
    other corners of the three-rings. *)
Definition cuneane : graph :=
  graph_of ((λ k, (k, Atom "C" 1 None)) <$> [0; 1; 2; 3; 4; 5; 6; 7])
           [single 0 1; single 1 2; single 2 3; single 3 4; single 4 5; single 5 6;
            single 6 7; single 7 0; single 0 4; single 1 3; single 2 6; single 5 7].

(** The relabeling that exchanges the keys 4 and 7. *)
Definition swap_4_7 : gmap Z Z := list_to_map [(7, 4); (4, 7)].

(** The two canonical graphs that the two labelings of cuneane give. *)
Definition cuneane_canonical_1 : graph :=
  graph_of ((λ k, (k, Atom "C" 1 None)) <$> [0; 1; 2; 3; 4; 5; 6; 7])
           [single 0 1; single 0 2; single 0 3; single 1 2; single 1 4; single 2 5;
            single 3 4; single 3 6; single 4 7; single 5 6; single 5 7; single 6 7].
Definition cuneane_canonical_2 : graph :=
  graph_of ((λ k, (k, Atom "C" 1 None)) <$> [0; 1; 2; 3; 4; 5; 6; 7])
           [single 0 1; single 0 2; single 0 4; single 1 3; single 1 5; single 2 4;
            single 2 6; single 3 5; single 3 6; single 4 7; single 5 7; single 6 7].

(** 1-bromo-1,2-dichloro-1,2-difluoroethane, with the parities [p0] of
    carbon 0 (which carries Br) and [p1] of carbon 1 (which carries H). *)
Definition halo_ethane_with (p0 p1 : parity) : graph :=
  graph_of [(0, Atom "C" 0 p0); (1, Atom "C" 1 p1);
            (2, Atom "F" 0 None); (3, Atom "Cl" 0 None); (4, Atom "Br" 0 None);
            (5, Atom "F" 0 None); (6, Atom "Cl" 0 None)]
           [single 0 1; single 0 2; single 0 3; single 0 4; single 1 5; single 1 6].

(** The parity of carbon 0 is assigned, that of carbon 1 is left open. *)
Definition halo_ethane : graph := halo_ethane_with (Some true) None.

(** The priorities that [refine_priorities] gives the atoms of
    [halo_ethane]; no two of them are tied. *)
Definition halo_ethane_priorities : gmap Z Z :=
  list_to_map [(0, 1); (1, 0); (2, 6); (3, 4); (4, 2); (5, 5); (6, 3)].

(** Methane with explicit hydrogens: carbon 3, hydrogens 0, 1, 2, 7. *)
Definition methane_explicit : graph :=
  graph_of [(3, Atom "C" 0 None); (0, Atom "H" 0 None); (1, Atom "H" 0 None);
            (2, Atom "H" 0 None); (7, Atom "H" 0 None)]
           [single 0 3; single 1 3; single 2 3; single 3 7].

(** 1,2-difluoroethene and the priorities that [refine_priorities]
    gives its atoms. *)
Definition difluoroethene : graph :=
  graph_of [(0, Atom "C" 1 None); (1, Atom "C" 1 None);
            (2, Atom "F" 0 None); (3, Atom "F" 0 None)]
           [(bk 0 1, Bond 20 None); single 0 2; single 1 3].
Definition difluoroethene_priorities : gmap Z Z :=
  list_to_map [(0, 0); (1, 0); (2, 2); (3, 2)].

End Examples.


(** ** Notions used to state the properties *)

(** The substituents of one end [k] of a bond: its neighbours other
    than the other end. *)
Definition substituents `{External} (g : graph) (k other : Z) : gset Z :=
  Core.neighbor_keys g k ∖ {[other]}.

(** An end of a bond distinguishes its substituents when it has exactly
    one, or exactly two of different priority. *)
Definition end_distinguishes (pri : gmap Z Z) (subs : gset Z) : Prop :=
  size subs = 1%nat
  ∨ (size subs = 2%nat ∧ ∀ a b, a ∈ subs → b ∈ subs → a ≠ b → pri !! a ≠ pri !! b).

(** The bonds join atoms of [aks]. *)
Definition closed_bonds (aks : gset Z) (bks : gset bkey) : Prop :=
  ∀ b : bkey, b ∈ bks → b.1 ∈ aks ∧ b.2 ∈ aks.

(** The invariant of the graph data structure: the bonds of a graph
    join atoms of the graph. *)
Definition wf_bonds (g : graph) : Prop :=
  closed_bonds (Core.atom_keys g) (Core.bond_keys g).

#[global] Instance closed_bonds_dec aks bks : Decision (closed_bonds aks bks).
Proof.
  unfold closed_bonds.
  apply (set_Forall_dec (λ b : bkey, b.1 ∈ aks ∧ b.2 ∈ aks)).
Defined.

#[global] Instance wf_bonds_dec g : Decision (wf_bonds g).
Proof. unfold wf_bonds. apply _. Defined.

(** The keys of the atoms that are not dummy atoms. *)
Definition non_dummy_keys `{External} (g : graph) : gset Z :=
  dom (filter (λ ka, to_number (atom_symbol ka.2) ≠ 0) (atoms g)).

(** A dummy atom is an atom of atomic number 0. *)
Definition has_dummy_atoms `{External} (g : graph) : Prop :=
  ∃ k a, atoms g !! k = Some a ∧ to_number (atom_symbol a) = 0.

(** Two graphs with the same atoms, up to parities and hydrogen counts,
    and the same bond keys. *)
Definition same_frame (g g' : graph) : Prop :=
  Core.atom_symbols g = Core.atom_symbols g' ∧ Core.bond_keys g = Core.bond_keys g'.

(** A computation raises exceptions of [E] only. *)
Definition raises_in {A} (E : exn → Prop) (m : res A) : Prop :=
  ∀ e, m = Raise e → E e.

(** The exceptions other than the precondition and consistency
    violations. *)
Definition plain_exn (e : exn) : Prop :=
  is_precondition_violation e = false ∧ is_consistency_violation e = false.

(** A set of exceptions that holds the plain ones. *)
Class PlainIn (E : exn → Prop) := plain_in : ∀ e, plain_exn e → E e.

(** The two preconditions of [refine_priorities] hold for [g], or else
    [E] admits their violations. *)
Definition pre_ok `{External} (E : exn → Prop) (g : graph) : Prop :=
  (Core.is_connected g = false → E NotConnected)
  ∧ (g ≠ Core.without_dummy_atoms g → E HasDummyAtoms).

(** ** Notions used for the loops over priorities *)

(** Comparison of two elements by an integer key. *)
Definition key_leb {A} (f : A → Z) (x y : A) : bool := f x <=? f y.
Definition key_eqb {A} (f : A → Z) (x y : A) : bool := f x =? f y.

(** The class of index [idx]: the keys of that priority, in ascending order. *)
Definition class_of (pri : gmap Z Z) (idx : Z) : list Z :=
  filter (λ k, pri !! k = Some idx) (elements_Z (dom pri)).

(** The keys whose priority is below [p]. *)
Definition below (pri : gmap Z Z) (p : Z) : gset Z :=
  dom (filter (λ kv : Z * Z, kv.2 < p) pri).

(** No priority exceeds [P0] by more than the number of keys of smaller
    priority. *)
Definition bounded_by (P0 : Z) (pri : gmap Z Z) : Prop :=
  ∀ k p, pri !! k = Some p → p ≤ P0 + Z.of_nat (size (below pri p)).

(** [pri'] raises the priorities of [pri]. *)
Definition raises_priorities (pri pri' : gmap Z Z) : Prop :=
  dom pri' = dom pri
  ∧ ∀ k p p', pri !! k = Some p → pri' !! k = Some p' → p ≤ p'.

(** The indices that the loop over the parts of a class gives them:
    the first part keeps the index of the class, every later part
    follows its predecessor by the size of that one. *)
Fixpoint part_indices (new_idx : Z) (parts : list (list Z)) : list (Z * list Z) :=
  match parts with
  | [] => []
  | part :: parts => (new_idx, part) :: part_indices (new_idx + Z.of_nat (length part)) parts
  end.

(** The priorities and the classes after that loop. *)
Definition assign_priorities (pri : gmap Z Z) (ips : list (Z * list Z)) : gmap Z Z :=
  foldl (λ pri ip, dict_.update pri (list_to_map ((λ k, (k, ip.1)) <$> ip.2))) pri ips.
Definition assign_classes (cla_dct : gmap Z (list Z)) (ips : list (Z * list Z))
  : gmap Z (list Z) :=
  foldl (λ cla_dct ip, <[ip.1 := ip.2]> cla_dct) cla_dct ips.

(** A class [c] of index [j] is live when its members are distinct
    and have the priority [j]. *)
Definition live (pri : gmap Z Z) (j : Z) (c : list Z) : Prop :=
  NoDup c ∧ ∀ k, k ∈ c → pri !! k = Some j.

(** The invariant of the loop of [refine_priorities] on the keys [V]:
    the classes that are up for re-evaluation are live, tied and of
    different indices, the classes of the class dictionary are live,
    and the class dictionary has every priority in use. *)
Definition refine_inv (V : gset Z) (st : Canon.refine_state) : Prop :=
  dom (Canon.rs_pri st) = V
  ∧ (∀ j c, (j, c) ∈ Canon.rs_new st → live (Canon.rs_pri st) j c ∧ (1 < length c)%nat)
  ∧ NoDup (Canon.rs_new st).*1
  ∧ (∀ j c, Canon.rs_cla st !! j = Some c → live (Canon.rs_pri st) j c)
  ∧ (∀ k p, Canon.rs_pri st !! k = Some p → is_Some (Canon.rs_cla st !! p)).

(** One round of tie breaking, as [break_priority_ties] does it: the
    tied class of largest index [idx] gives up its member of largest
    key, which gets the index [idx + size - 1], and the priorities are
    refined again. *)
Definition tie_break_step `{External} (g : graph) (pri pri' : gmap Z Z) : Prop :=
  ∃ idx k,
    (1 < length (class_of pri idx))%nat
    ∧ (∀ j, (1 < length (class_of pri j))%nat → j ≤ idx)
    ∧ k ∈ class_of pri idx
    ∧ (∀ k', k' ∈ class_of pri idx → k' ≤ k)
    ∧ Canon.refine_priorities g
        (Some (<[k := idx + Z.of_nat (length (class_of pri idx)) - 1]> pri)) = Ok pri'.

(** Tie breaking that takes the tied class of lowest index first, as
    the specification words it; everything else is as in
    [break_priority_ties]. *)
Fixpoint break_ties_lowest_first_loop `{External} (fuel : nat) (g : graph)
    (pri : gmap Z Z) : res (gmap Z Z) :=
  match last (Canon.classes_to_refine pri) with
  | None => Ok pri
  | Some (idx, cla) =>
      match fuel with
      | O => Raise OutOfFuel
      | S fuel =>
          match last cla with
          | None => Raise IndexError
          | Some k =>
              let new_idx := idx + Z.of_nat (length cla) - 1 in
              pri ← Canon.refine_priorities g (Some (<[k := new_idx]> pri));
              break_ties_lowest_first_loop fuel g pri
          end
      end
  end.

Definition break_priority_ties_lowest_first `{External} (g : graph) (pri : gmap Z Z)
  : res (gmap Z Z) :=
  _ ← assert (Core.is_connected g) NotConnected;
  _ ← assert (bool_decide (g = Core.without_dummy_atoms g)) HasDummyAtoms;
  break_ties_lowest_first_loop (Canon.break_ties_fuel pri) g pri.

(** ** Notions used for the range of the canonical priorities *)

(** The graphs on which [refine_priorities] is shown to return:
    connected, without dummy atoms, and with a backbone that [implicit]
    leaves as it is. *)
Definition refinable `{External} (g : graph) : Prop :=
  Core.is_connected g = true
  ∧ g = Core.without_dummy_atoms g
  ∧ Core.atom_keys (Core.implicit (Core.implicit g)) = Core.atom_keys (Core.implicit g).

(** Priorities that are ranks: the priority of a key is the number of
    keys of smaller priority. *)
Definition exact_ranks (pri : gmap Z Z) : Prop :=
  ∀ k p, pri !! k = Some p → p = Z.of_nat (size (below pri p)).

(** Ranks of the keys [V]. *)
Definition ranked (V : gset Z) (pri : gmap Z Z) : Prop :=
  dom pri = V ∧ exact_ranks pri.

(** The class dictionary holds whole classes, and the classes that are
    up for re-evaluation are classes of the dictionary. *)
Definition whole_classes (st : Canon.refine_state) : Prop :=
  (∀ j c k, Canon.rs_cla st !! j = Some c → Canon.rs_pri st !! k = Some j → k ∈ c)
  ∧ (∀ j c, (j, c) ∈ Canon.rs_new st → Canon.rs_cla st !! j = Some c).

(** [pri'] keeps the strict order of [pri]. *)
Definition keeps_order (pri pri' : gmap Z Z) : Prop :=
  ∀ k1 k2 p1 p2 p1' p2',
    pri !! k1 = Some p1 → pri !! k2 = Some p2 →
    pri' !! k1 = Some p1' → pri' !! k2 = Some p2' →
    p1 < p2 → p1' < p2'.

(** The exceptions of the steps of the code on a graph that meets the
    preconditions: a failed lookup, an empty sequence, and the asserts
    on the number of neighbours and on permutations.  The precondition
    and consistency violations are not among them, nor is the
    exception of the model. *)
Definition step_exn (e : exn) : Prop :=
  match e with
  | TooManyNeighbors | NotAPermutation | KeyError | ValueError | IndexError => True
  | _ => False
  end.

(** * Properties *)

Import Core Canon.

(** ** Reasoning about results *)

Lemma bind_Ok {A B} (m : res A) (f : A → res B) (b : B) :
  m ≫= f = Ok b ↔ ∃ a, m = Ok a ∧ f a = Ok b.
Proof.
  destruct m as [a|e]; unfold mbind, res_bind; split.
  - intros Hf. exists a. done.
  - intros (a' & [= <-] & Hf). done.
  - done.
  - intros (a' & [=] & _).
Qed.

Lemma bind_Raise {A B} (m : res A) (f : A → res B) (e : exn) :
  m ≫= f = Raise e ↔ m = Raise e ∨ ∃ a, m = Ok a ∧ f a = Raise e.
Proof.
  destruct m as [a|e']; unfold mbind, res_bind; split.
  - intros Hf. right. exists a. done.
  - intros [[=]|(a' & [= <-] & Hf)]. done.
  - intros [= ->]. by left.
  - intros [[= ->]|(a' & [=] & _)]. done.
Qed.

Lemma assert_Ok (b : bool) (e : exn) (u : unit) : assert b e = Ok u ↔ b = true.
Proof. destruct b, u; simpl; split; done. Qed.

Lemma assert_Raise (b : bool) (e e' : exn) : assert b e = Raise e' ↔ b = false ∧ e = e'.
Proof.
  destruct b; simpl; split.
  - done.
  - intros [[=] _].
  - intros [= ->]. done.
  - intros [_ ->]. done.
Qed.

Lemma graph_eq (g1 g2 : graph) :
  atoms g1 = atoms g2 → bonds g1 = bonds g2 → g1 = g2.
Proof. destruct g1, g2; simpl; intros -> ->; done. Qed.

(** Closed goals about the example molecules are decided by evaluation. *)
Ltac by_evaluation :=
  first [ vm_compute; reflexivity
        | refine (bool_decide_eq_true_1 _ _); vm_compute; reflexivity ].

(** ** Lists, sorting and results *)

Section sequences_facts.
Context {A : Type}.
Implicit Types (le eq : A → A → bool) (l : list A).

Lemma insert_by_perm le (x : A) l : insert_by le x l ≡ₚ x :: l.
Proof.
  induction l as [|y l IH]; simpl; [done|].
  destruct (le x y); [done|]. rewrite IH. apply Permutation_swap.
Qed.

Lemma sorted_by_perm le l : sorted_by le l ≡ₚ l.
Proof.
  induction l as [|x l IH]; simpl; [done|].
  rewrite insert_by_perm. by f_equiv.
Qed.

Lemma elem_of_sorted_by le l (x : A) : x ∈ sorted_by le l ↔ x ∈ l.
Proof. by rewrite sorted_by_perm. Qed.

Lemma length_sorted_by le l : length (sorted_by le l) = length l.
Proof. by rewrite sorted_by_perm. Qed.

Lemma NoDup_sorted_by le l : NoDup (sorted_by le l) ↔ NoDup l.
Proof. by rewrite sorted_by_perm. Qed.

Lemma concat_groupby eq l : concat (groupby eq l) = l.
Proof.
  induction l as [|x l IH]; simpl; [done|].
  destruct (groupby eq l) as [|[|y g] gs]; simpl in *.
  - by subst.
  - by subst.
  - destruct (eq x y); simpl; by subst.
Qed.

Lemma groupby_nonempty eq l : Forall (λ g, g ≠ []) (groupby eq l).
Proof.
  induction l as [|x l IH]; simpl; [constructor|].
  destruct (groupby eq l) as [|[|y g] gs].
  - by repeat constructor.
  - by constructor.
  - inversion IH; subst. destruct (eq x y); by repeat constructor.
Qed.
End sequences_facts.

Lemma rmapM_Ok {A B} (f : A → res B) (l : list A) (ys : list B) :
  rmapM f l = Ok ys ↔ Forall2 (λ x y, f x = Ok y) l ys.
Proof.
  revert ys. induction l as [|x l IH]; intros ys; simpl.
  - split; [intros [= <-]; constructor | by inversion 1].
  - rewrite bind_Ok. split.
    + intros (y & Hy & (ys' & Hys & [= <-])%bind_Ok). constructor; [done|]. by apply IH.
    + inversion 1 as [|? y ? ys' Hy Hys]; subst. exists y. split; [done|].
      apply bind_Ok. exists ys'. split; [by apply IH|done].
Qed.

Lemma rmapM_Ok_elem {A B} (f : A → res B) (l : list A) (ys : list B) (x : A) :
  rmapM f l = Ok ys → x ∈ l → ∃ y, f x = Ok y ∧ y ∈ ys.
Proof.
  rewrite rmapM_Ok. intros HF Hx.
  destruct (proj1 (list_elem_of_lookup _ _) Hx) as [i Hi].
  destruct (Forall2_lookup_l _ _ _ _ _ HF Hi) as (y & Hy & Hfy).
  exists y. split; [done|]. by eapply list_elem_of_lookup_2.
Qed.

Lemma rmapM_Ok_length {A B} (f : A → res B) (l : list A) (ys : list B) :
  rmapM f l = Ok ys → length ys = length l.
Proof. rewrite rmapM_Ok. intros HF. symmetry. by eapply Forall2_length. Qed.

Lemma rmapM_pair_fst {A B} (f : A → res B) (l : list A) (kvs : list (A * B)) :
  rmapM (λ k, v ← f k; Ok (k, v)) l = Ok kvs → kvs.*1 = l ∧ rmapM f l = Ok (kvs.*2).
Proof.
  revert kvs. induction l as [|x l IH]; intros kvs; simpl.
  - intros [= <-]. done.
  - intros (kv & (v & Hv & [= <-])%bind_Ok & (kvs' & Hk & [= <-])%bind_Ok)%bind_Ok.
    destruct (IH _ Hk) as [IH1 IH2]. rewrite !fmap_cons. simpl.
    rewrite IH1, Hv. simpl. unfold mbind, res_bind in *. rewrite IH2. done.
Qed.

Lemma elements_Z_perm (s : gset Z) : elements_Z s ≡ₚ elements s.
Proof. apply sorted_by_perm. Qed.

Lemma elem_of_elements_Z (s : gset Z) (k : Z) : k ∈ elements_Z s ↔ k ∈ s.
Proof. rewrite elements_Z_perm. apply elem_of_elements. Qed.

Lemma NoDup_elements_Z (s : gset Z) : NoDup (elements_Z s).
Proof. rewrite elements_Z_perm. apply NoDup_elements. Qed.

Lemma length_elements_Z (s : gset Z) : length (elements_Z s) = size s.
Proof. by rewrite elements_Z_perm. Qed.

Lemma sorted_by_priority_Ok (pri : gmap Z Z) (ks l : list Z) :
  sorted_by_priority pri ks = Ok l →
  l ≡ₚ ks ∧ ∀ k, k ∈ ks → is_Some (pri !! k).
Proof.
  unfold sorted_by_priority.
  intros (kps & Hk & [= <-])%bind_Ok.
  destruct (rmapM_pair_fst _ _ _ Hk) as [H1 H2]. split.
  - by rewrite sorted_by_perm, H1.
  - intros k Hin. destruct (rmapM_Ok_elem _ _ _ _ H2 Hin) as (p & Hp & _).
    unfold dict_.getitem in Hp. destruct (pri !! k); [eauto|done].
Qed.

(** ** Reflection of local stereo (C10) *)

Definition negate_parity (p : parity) : parity := negb <$> p.

Lemma atoms_reflect_local_stereo `{External} (g : graph) :
  atoms (reflect_local_stereo g)
  = (λ a, Atom (atom_symbol a) (atom_hyd a) (negate_parity (atom_par a))) <$> atoms g.
Proof.
  apply map_eq. intros k.
  unfold reflect_local_stereo, set_atom_stereo_parities, dict_.transform_values,
    atom_stereo_parities. simpl.
  rewrite map_lookup_imap, !lookup_fmap.
  destruct (atoms g !! k) as [[s h p]|]; simpl; [|done].
  by destruct p.
Qed.

Lemma bonds_reflect_local_stereo `{External} (g : graph) :
  bonds (reflect_local_stereo g) = bonds g.
Proof. done. Qed.

(** C10: [reflect_local_stereo] negates every assigned atom parity,
    leaves an unassigned one unassigned, and changes nothing else: the
    bonds with their orders and parities, the atom symbols, the
    implicit hydrogen counts and the key sets are those of the input;
    so reflecting twice gives the input back. *)
Theorem reflect_local_stereo_frame `{External} (g : graph) :
  (∀ k, atom_stereo_parities (reflect_local_stereo g) !! k
        = negate_parity <$> atom_stereo_parities g !! k)
  ∧ (∀ k b, atom_stereo_parities g !! k = Some (Some b)
            → atom_stereo_parities (reflect_local_stereo g) !! k = Some (Some (negb b)))
  ∧ (∀ k, atom_stereo_parities g !! k = Some None
          → atom_stereo_parities (reflect_local_stereo g) !! k = Some None)
  ∧ bond_stereo_parities (reflect_local_stereo g) = bond_stereo_parities g
  ∧ bond_orders (reflect_local_stereo g) = bond_orders g
  ∧ atom_symbols (reflect_local_stereo g) = atom_symbols g
  ∧ atom_implicit_hydrogens (reflect_local_stereo g) = atom_implicit_hydrogens g
  ∧ atom_keys (reflect_local_stereo g) = atom_keys g
  ∧ bond_keys (reflect_local_stereo g) = bond_keys g
  ∧ bonds (reflect_local_stereo g) = bonds g
  ∧ reflect_local_stereo (reflect_local_stereo g) = g.
Proof.
  assert (Hpar : ∀ k, atom_stereo_parities (reflect_local_stereo g) !! k
                      = negate_parity <$> atom_stereo_parities g !! k).
  { intros k. unfold atom_stereo_parities.
    rewrite atoms_reflect_local_stereo, !lookup_fmap.
    by destruct (atoms g !! k). }
  split_and!; try done.
  - intros k b Hk. by rewrite Hpar, Hk.
  - intros k Hk. by rewrite Hpar, Hk.
  - unfold atom_symbols. rewrite atoms_reflect_local_stereo.
    rewrite <- map_fmap_compose. done.
  - unfold atom_implicit_hydrogens. rewrite atoms_reflect_local_stereo.
    rewrite <- map_fmap_compose. done.
  - unfold atom_keys. rewrite atoms_reflect_local_stereo. apply dom_fmap_L.
  - apply graph_eq; [|done].
    rewrite !atoms_reflect_local_stereo, <- map_fmap_compose.
    rewrite <- (map_fmap_id (atoms g)) at 2.
    apply map_fmap_ext. intros k [s h [[]|]] _; done.
Qed.

(** ** The canonical enantiomer of a graph without atom stereo (C4) *)


Lemma canonical_enantiomer_with_keys_short_circuit `{External} (g : graph) :
  has_atom_stereo g = false →
  canonical_enantiomer_with_keys g
  = (keys ← canonical_keys g false; Ok (g, keys, None)).
Proof. intros Hg. unfold canonical_enantiomer_with_keys. by rewrite Hg. Qed.

(** C4, as the code has it: for a graph without atom stereo
    [canonical_enantiomer_with_keys] short-circuits; it returns
    [is_reflected = None], the input graph itself, not relabelled, and
    the key assignment [canonical_keys(graph, backbone_only=False)], so
    that relabelling the returned graph with the returned keys gives
    [canonical(graph)]; it raises exactly when [canonical_keys] does. *)
Theorem canonical_enantiomer_with_keys_no_atom_stereo `{External} (g : graph) :
  has_atom_stereo g = false →
  (∀ ce keys r,
     canonical_enantiomer_with_keys g = Ok (ce, keys, r)
     → r = None ∧ ce = g ∧ canonical_keys g false = Ok keys
       ∧ canonical g = Ok (relabel ce keys))
  ∧ (∀ keys, canonical_keys g false = Ok keys
             → canonical_enantiomer_with_keys g = Ok (g, keys, None))
  ∧ (∀ e, canonical_enantiomer_with_keys g = Raise e ↔ canonical_keys g false = Raise e).
Proof.
  intros Hg. rewrite (canonical_enantiomer_with_keys_short_circuit g Hg).
  unfold canonical. split_and!.
  - intros ce keys r (keys' & Hk & [= <- <- <-])%bind_Ok. by rewrite Hk.
  - intros keys ->. done.
  - intros e. rewrite bind_Raise. split; [|by left].
    intros [?|(? & _ & [=])]. done.
Qed.

Lemma canonical_enantiomer_with_keys_no_atom_stereo_witness :
  has_atom_stereo Examples.methane = false
  ∧ canonical_enantiomer_with_keys Examples.methane
    = Ok (Examples.methane, {[5 := 0]}, None).
Proof.
  split; [vm_compute; reflexivity|].
  apply (canonical_enantiomer_with_keys_no_atom_stereo Examples.methane).
  - vm_compute; reflexivity.
  - vm_compute; reflexivity.
Defined.

Lemma canonical_enantiomer_with_keys_not_relabelled :
  has_stereo Examples.methane = false
  ∧ ∃ ce keys cg,
      canonical_enantiomer_with_keys Examples.methane = Ok (ce, keys, None)
      ∧ canonical Examples.methane = Ok cg
      ∧ atom_keys ce = {[5]} ∧ atom_keys cg = {[0]} ∧ ce ≠ cg.
Proof.
  split; [vm_compute; reflexivity|].
  exists Examples.methane, {[5 := 0]},
    (Reference.graph_of [(0, Atom "C" 4 None)] []).
  split_and!;
    first [ vm_compute; reflexivity
          | refine (bool_decide_eq_true_1 _ _); vm_compute; reflexivity ].
Qed.


(** ** The second call of [canonical_enantiomer], evaluated (C5) *)


(** ** Two defects, evaluated (C1, C2) *)

(** C1 at cuneane: the refinement leaves the eight carbons in one class,
    the tie is broken at the atom of largest key, and the two labelings
    put that key on atoms that no symmetry of the cage exchanges: the
    canonical graphs differ. *)
Lemma canonical_cuneane_depends_on_labels :
  is_connected Examples.cuneane = true
  ∧ has_stereo Examples.cuneane = false
  ∧ canonical Examples.cuneane = Ok Examples.cuneane_canonical_1
  ∧ canonical (relabel Examples.cuneane Examples.swap_4_7) = Ok Examples.cuneane_canonical_2
  ∧ atom_symbols Examples.cuneane_canonical_1 = atom_symbols Examples.cuneane_canonical_2
  ∧ bond_keys Examples.cuneane_canonical_1 ≠ bond_keys Examples.cuneane_canonical_2.
Proof. split_and!; by_evaluation. Qed.

(** C2 at a graph with one assigned and one open stereocentre: the
    flip-local evaluator turns the open parity [None] of carbon 1 into
    [True] on the way to local stereo and into [False] on the way back. *)
Lemma local_stereo_round_trip_assigns_open_parity :
  canonical_keys Examples.halo_ethane false
  = Ok (list_to_map [(0, 1); (1, 0); (2, 6); (3, 4); (4, 2); (5, 5); (6, 3)])
  ∧ to_local_stereo Examples.halo_ethane None
    = Ok (Examples.halo_ethane_with (Some false) (Some true))
  ∧ from_local_stereo (Examples.halo_ethane_with (Some false) (Some true)) None
    = Ok (Examples.halo_ethane_with (Some true) (Some false))
  ∧ Examples.halo_ethane_with (Some true) (Some false) ≠ Examples.halo_ethane.
Proof. split_and!; by_evaluation. Qed.

(** The same defect makes [canonical_enantiomer] unstable: on the graph
    above it reflects, and on its own result it reflects again. *)
Lemma canonical_enantiomer_reflects_twice :
  canonical_enantiomer Examples.halo_ethane
  = Ok (Examples.halo_ethane_with (Some false) (Some true), Some true)
  ∧ canonical_enantiomer (Examples.halo_ethane_with (Some false) (Some true))
    = Ok (Examples.halo_ethane_with (Some true) (Some false), Some true).
Proof. split_and!; by_evaluation. Qed.

Lemma rfilter_Ok {A} (p : A → res bool) (l ks : list A) (x : A) :
  rfilter p l = Ok ks → x ∈ ks ↔ x ∈ l ∧ p x = Ok true.
Proof.
  unfold rfilter. revert ks. induction l as [|x0 l IH]; intros ks.
  - simpl. intros [= <-]. simpl. rewrite !elem_of_nil. tauto.
  - simpl. intros (bs & Hbs & [= <-])%bind_Ok. revert Hbs.
    intros (xb & (b & Hb & [= <-])%bind_Ok & (bs' & Hbs' & [= <-])%bind_Ok)%bind_Ok.
    specialize (IH ((filter (λ xb : A * bool, xb.2 = true) bs').*1)).
    rewrite Hbs' in IH. specialize (IH eq_refl).
    rewrite filter_cons. destruct b; simpl.
    + rewrite !elem_of_cons, IH.
      split; [intros [->|[??]]; eauto | intros [[->|?] ?]; eauto].
    + rewrite elem_of_cons, IH.
      split; [intros [??]; eauto | intros [[->|?] Hp]; [congruence|eauto]].
Qed.

Lemma elem_of_sorted_bkeys (s : gset bkey) (k : bkey) : k ∈ sorted_bkeys s ↔ k ∈ s.
Proof. unfold sorted_bkeys. rewrite elem_of_sorted_by. apply elem_of_elements. Qed.

(** ** Stereogenic bonds (C9) *)

Section stereogenic_bonds.
Context `{External}.

Lemma elem_of_bond_stereo_keys (g : graph) (key : bkey) :
  key ∈ bond_stereo_keys g ↔ ∃ b, bond_stereo_parities g !! key = Some (Some b).
Proof.
  unfold bond_stereo_keys, dict_.keys_by_value, dict_.filter_by_value.
  rewrite elem_of_dom. unfold is_Some. setoid_rewrite map_lookup_filter_Some. simpl.
  split.
  - intros (p & Hp & Hs%bool_decide_eq_true). destruct Hs as [b ->]. eauto.
  - intros (b & Hb). exists (Some b). split; [done|]. apply bool_decide_eq_true. eauto.
Qed.

Lemma elem_of_small_ring_bond_keys (g : graph) (key : bkey) :
  key ∈ small_ring_bond_keys g
  ↔ ∃ ring, ring ∈ rings_bond_keys g ∧ (size ring < 8)%nat ∧ key ∈ ring.
Proof.
  unfold small_ring_bond_keys. rewrite elem_of_union_list.
  setoid_rewrite list_elem_of_filter. naive_solver.
Qed.

Lemma distinct_pair (a b : Z) : distinct [a; b] = true ↔ a ≠ b.
Proof.
  unfold distinct. rewrite bool_decide_eq_true, !NoDup_cons, list_elem_of_singleton.
  split; [naive_solver|]. intros Hab. split_and!; [done|apply not_elem_of_nil|apply NoDup_nil_2].
Qed.

Lemma end_is_stereogenic_Ok (pri : gmap Z Z) (nkeys : list Z) (subs : gset Z) (b : bool) :
  nkeys ≡ₚ elements subs →
  end_is_stereogenic pri nkeys = Ok b →
  (size subs ≤ 2)%nat ∧ (b = true ↔ end_distinguishes pri subs).
Proof.
  intros Hperm. unfold end_is_stereogenic.
  intros (_ & Hlen%assert_Ok%bool_decide_eq_true & (pris & Hpris & [= <-])%bind_Ok)%bind_Ok.
  assert (Hsize : size subs = length nkeys) by (by rewrite Hperm).
  assert (Helem : ∀ k, k ∈ subs ↔ k ∈ nkeys).
  { intros k. by rewrite Hperm, elem_of_elements. }
  assert (Hnd : NoDup nkeys) by (rewrite Hperm; apply NoDup_elements).
  split; [lia|]. unfold end_distinguishes. rewrite Hsize.
  destruct nkeys as [|a [|c [|d nkeys]]]; simpl in *; [| |clear Hlen|lia].
  - split; [done|]. intros [?|[? _]]; lia.
  - split; [by left|done].
  - revert Hpris. intros (pa & Hpa & (ps & (pc & Hpc & [= <-])%bind_Ok & [= <-])%bind_Ok)%bind_Ok.
    rewrite distinct_pair.
    unfold dict_.getitem in Hpa, Hpc.
    destruct (pri !! a) as [pa'|] eqn:Ea; [|done]. injection Hpa as ->.
    destruct (pri !! c) as [pc'|] eqn:Ec; [|done]. injection Hpc as ->.
    apply NoDup_cons in Hnd as [Hac _]. rewrite list_elem_of_singleton in Hac.
    split.
    + intros Hne. right. split; [done|]. intros x y Hx%Helem Hy%Helem Hxy.
      rewrite !elem_of_cons, !elem_of_nil in Hx, Hy.
      destruct Hx as [->|[->|[]]], Hy as [->|[->|[]]]; try done; congruence.
    + intros [?|[_ Hinj]]; [lia|]. intros ->.
      apply (Hinj a c); [apply Helem; set_solver|apply Helem; set_solver|done|congruence].
Qed.

Lemma bond_is_stereogenic_Ok (g : graph) (pri : gmap Z Z) (key : bkey) (b : bool) :
  bond_is_stereogenic g pri key = Ok b →
  (b = true ↔ end_distinguishes pri (substituents g key.1 key.2)
              ∧ end_distinguishes pri (substituents g key.2 key.1)).
Proof.
  unfold bond_is_stereogenic, bond_stereo_sorted_neighbor_keys.
  intros ([nkey1s nkey2s] & Hn & (r1 & Hr1 & (r2 & Hr2 & [= <-])%bind_Ok)%bind_Ok)%bind_Ok.
  revert Hn.
  intros (n1 & Hn1 & (n2 & Hn2 & (l1 & Hl1 & (l2 & Hl2 & [= <- <-])%bind_Ok)%bind_Ok)%bind_Ok)%bind_Ok.
  assert (Hnb : ∀ k n, dict_.getitem (atoms_neighbor_atom_keys g) k = Ok n → n = neighbor_keys g k).
  { intros k n. unfold dict_.getitem, atoms_neighbor_atom_keys.
    rewrite map_lookup_imap. destruct (atoms g !! k); simpl; [|done]. by intros [= <-]. }
  apply Hnb in Hn1, Hn2. subst n1 n2.
  apply sorted_by_priority_Ok in Hl1 as [Hp1 _], Hl2 as [Hp2 _].
  rewrite elements_Z_perm in Hp1, Hp2.
  destruct (end_is_stereogenic_Ok _ _ _ _ Hp1 Hr1) as [_ H1].
  destruct (end_is_stereogenic_Ok _ _ _ _ Hp2 Hr2) as [_ H2].
  unfold substituents. rewrite <- H1, <- H2. simpl.
  destruct r1, r2; simpl; naive_solver.
Qed.

(** C9: [stereogenic_bond_keys_from_priorities] returns exactly the
    rigid/planar candidate bonds of the graph (pi bonds removed,
    hydrogens explicit) that lie in no ring of fewer than 8 atoms and of
    which each end distinguishes its substituents: an end without
    substituent never does, an end with one substituent always does,
    an end with two does when their priorities differ; when [assigned]
    is false, the bonds that carry a parity are left out as well. *)
Theorem stereogenic_bond_keys_from_priorities_spec
    (g : graph) (pri : gmap Z Z) (assigned : bool) (keys : gset bkey) :
  stereogenic_bond_keys_from_priorities g pri assigned = Ok keys →
  let g' := explicit (without_pi_bonds g) in
  ∃ pri', assign_hydrogen_priorities g' pri false false = Ok pri'
    ∧ ∀ key : bkey,
        key ∈ keys
        ↔ key ∈ rigid_planar_bond_keys g'
          ∧ (assigned = false → ∀ b, bond_stereo_parities g' !! key ≠ Some (Some b))
          ∧ (∀ ring, ring ∈ rings_bond_keys g' → (size ring < 8)%nat → key ∉ ring)
          ∧ end_distinguishes pri' (substituents g' key.1 key.2)
          ∧ end_distinguishes pri' (substituents g' key.2 key.1).
Proof.
  unfold stereogenic_bond_keys_from_priorities. cbv zeta.
  set (g' := explicit (without_pi_bonds g)). intros Hres.
  apply bind_Ok in Hres as (pri' & Hpri & (ks & Hks & [= <-])%bind_Ok).
  exists pri'. split; [done|]. intros key.
  rewrite elem_of_list_to_set, (rfilter_Ok _ _ _ _ Hks), elem_of_sorted_bkeys.
  rewrite elem_of_difference, elem_of_small_ring_bond_keys.
  assert (Hcand : key ∈ (if negb assigned
                         then rigid_planar_bond_keys g' ∖ bond_stereo_keys g'
                         else rigid_planar_bond_keys g')
                  ↔ key ∈ rigid_planar_bond_keys g'
                    ∧ (assigned = false → ∀ b, bond_stereo_parities g' !! key ≠ Some (Some b))).
  { destruct assigned; simpl.
    - naive_solver.
    - rewrite elem_of_difference, elem_of_bond_stereo_keys. naive_solver. }
  rewrite Hcand. split.
  - intros [[[Hrp Has] Hring] Hst]. split_and!; try done.
    + intros ring Hin Hsz Hk. apply Hring. eauto.
    + by apply (bond_is_stereogenic_Ok _ _ _ _ Hst).
    + by apply (bond_is_stereogenic_Ok _ _ _ _ Hst).
  - intros (Hrp & Has & Hring & He1 & He2).
    assert (Hin : key ∈ sorted_bkeys ((if negb assigned
                         then rigid_planar_bond_keys g' ∖ bond_stereo_keys g'
                         else rigid_planar_bond_keys g') ∖ small_ring_bond_keys g')).
    { rewrite elem_of_sorted_bkeys, elem_of_difference, Hcand, elem_of_small_ring_bond_keys.
      naive_solver. }
    split; [split; [done|naive_solver]|].
    unfold rfilter in Hks. apply bind_Ok in Hks as (bs & Hbs & _).
    apply rmapM_pair_fst in Hbs as [_ Hbs].
    destruct (rmapM_Ok_elem _ _ _ _ Hbs Hin) as (b & Hb & _).
    rewrite Hb. f_equal. by apply (bond_is_stereogenic_Ok _ _ _ _ Hb).
Qed.

End stereogenic_bonds.

Lemma stereogenic_bond_keys_from_priorities_spec_witness :
  stereogenic_bond_keys_from_priorities
    Examples.difluoroethene Examples.difluoroethene_priorities false
  = Ok {[ (0, 1) ]}
  ∧ ∃ pri', assign_hydrogen_priorities (explicit (without_pi_bonds Examples.difluoroethene))
              Examples.difluoroethene_priorities false false = Ok pri'
    ∧ ∀ key : bkey,
        key ∈ ({[ (0, 1) ]} : gset bkey)
        ↔ key ∈ rigid_planar_bond_keys (explicit (without_pi_bonds Examples.difluoroethene))
          ∧ (false = false
             → ∀ b, bond_stereo_parities (explicit (without_pi_bonds Examples.difluoroethene))
                    !! key ≠ Some (Some b))
          ∧ (∀ ring, ring ∈ rings_bond_keys (explicit (without_pi_bonds Examples.difluoroethene))
                     → (size ring < 8)%nat → key ∉ ring)
          ∧ end_distinguishes pri'
              (substituents (explicit (without_pi_bonds Examples.difluoroethene)) key.1 key.2)
          ∧ end_distinguishes pri'
              (substituents (explicit (without_pi_bonds Examples.difluoroethene)) key.2 key.1).
Proof.
  assert (H1 : stereogenic_bond_keys_from_priorities
                 Examples.difluoroethene Examples.difluoroethene_priorities false
               = Ok {[ (0, 1) ]}) by by_evaluation.
  split; [exact H1|].
  exact (stereogenic_bond_keys_from_priorities_spec _ _ _ _ H1).
Defined.

(** ** Connected components *)

Section connectivity.
Implicit Types (aks s t : gset Z) (bks : gset bkey) (k x y : Z).

Lemma elem_of_neighbors_in bks x y :
  y ∈ neighbors_in bks x ↔ (x, y) ∈ bks ∨ (y, x) ∈ bks.
Proof.
  unfold neighbors_in. rewrite elem_of_set_omap. split.
  - intros ([a b] & Hin & Hf). simpl in Hf.
    repeat case_bool_decide; simplify_eq; auto.
  - intros [Hin|Hin].
    + exists (x, y). split; [done|]. simpl. by rewrite bool_decide_eq_true_2.
    + exists (y, x). split; [done|]. simpl.
      case_bool_decide; [by subst|]. by rewrite bool_decide_eq_true_2.
Qed.

Lemma neighbors_in_sym bks x y : y ∈ neighbors_in bks x → x ∈ neighbors_in bks y.
Proof. rewrite !elem_of_neighbors_in. tauto. Qed.

Lemma elem_of_expand bks s y :
  y ∈ expand bks s ↔ y ∈ s ∨ ∃ x, x ∈ s ∧ y ∈ neighbors_in bks x.
Proof.
  unfold expand, set_fold. simpl. rewrite elem_of_union.
  assert (Hfold : ∀ l : list Z,
            y ∈ foldr (λ k acc, neighbors_in bks k ∪ acc) (∅ : gset Z) l
            ↔ ∃ x, x ∈ l ∧ y ∈ neighbors_in bks x).
  { induction l as [|a l IH]; simpl.
    - rewrite elem_of_empty. split; [done|]. intros (x & Hx & _). by apply elem_of_nil in Hx.
    - rewrite elem_of_union, IH. setoid_rewrite elem_of_cons. naive_solver. }
  rewrite Hfold. setoid_rewrite elem_of_elements. done.
Qed.

Lemma expand_incr bks s : s ⊆ expand bks s.
Proof. intros x Hx. apply elem_of_expand. by left. Qed.

Lemma expand_mono bks s t : s ⊆ t → expand bks s ⊆ expand bks t.
Proof. intros Hst y. rewrite !elem_of_expand. set_solver. Qed.

Lemma expand_within aks bks s : closed_bonds aks bks → s ⊆ aks → expand bks s ⊆ aks.
Proof.
  intros Hcl Hs y [Hy|(x & Hx & Hn)]%elem_of_expand; [by apply Hs|].
  apply elem_of_neighbors_in in Hn as [Hb|Hb]; apply Hcl in Hb; simpl in Hb; tauto.
Qed.

Lemma iter_expand_incr bks s n : s ⊆ Nat.iter n (expand bks) s.
Proof.
  induction n as [|n IH]; simpl; [done|].
  etrans; [exact IH|]. apply expand_incr.
Qed.

Lemma iter_expand_within aks bks s n :
  closed_bonds aks bks → s ⊆ aks → Nat.iter n (expand bks) s ⊆ aks.
Proof.
  intros Hcl Hs. induction n as [|n IH]; simpl; [done|]. by apply (expand_within aks).
Qed.

Lemma iter_expand_least bks s t n :
  s ⊆ t → expand bks t ⊆ t → Nat.iter n (expand bks) s ⊆ t.
Proof.
  intros Hs Ht. induction n as [|n IH]; simpl; [done|].
  etrans; [|exact Ht]. by apply expand_mono.
Qed.

(** After [n] rounds the set is stable or has more than [n] members. *)
Lemma iter_expand_progress bks s n :
  s ≠ ∅ →
  expand bks (Nat.iter n (expand bks) s) = Nat.iter n (expand bks) s
  ∨ (n < size (Nat.iter n (expand bks) s))%nat.
Proof.
  intros Hne. induction n as [|n IH]; simpl.
  - right. assert (size s ≠ 0%nat); [|lia]. apply size_non_empty_iff. by intros ?%leibniz_equiv.
  - destruct IH as [IH|IH]; [left; by rewrite !IH|].
    destruct (decide (expand bks (Nat.iter n (expand bks) s) = Nat.iter n (expand bks) s))
      as [Heq|Hneq]; [left; by rewrite !Heq|].
    right. assert (Nat.iter n (expand bks) s ⊂ expand bks (Nat.iter n (expand bks) s)) as Hlt.
    { split; [apply expand_incr|]. intros Hsub. apply Hneq.
      apply set_eq. intros y. split; [apply Hsub|apply expand_incr]. }
    apply subset_size in Hlt. lia.
Qed.

Lemma component_of_stable aks bks k :
  closed_bonds aks bks → k ∈ aks →
  expand bks (component_of aks bks k) = component_of aks bks k.
Proof.
  intros Hcl Hk. unfold component_of.
  destruct (iter_expand_progress bks {[k]} (size aks)) as [?|Hlt]; [set_solver|done|].
  assert (Nat.iter (size aks) (expand bks) {[k]} ⊆ aks) as Hsub.
  { apply iter_expand_within; [done|set_solver]. }
  apply subseteq_size in Hsub. lia.
Qed.

Lemma component_of_self aks bks k : k ∈ component_of aks bks k.
Proof. apply (iter_expand_incr bks {[k]}). set_solver. Qed.

Lemma component_of_within aks bks k :
  closed_bonds aks bks → k ∈ aks → component_of aks bks k ⊆ aks.
Proof. intros. apply iter_expand_within; [done|set_solver]. Qed.

Lemma component_of_least aks bks k t :
  k ∈ t → expand bks t ⊆ t → component_of aks bks k ⊆ t.
Proof. intros. apply iter_expand_least; [set_solver|done]. Qed.

(** The component of an atom is the set of the atoms that a chain of
    bonds reaches from it. *)
Lemma elem_of_component_of aks bks k y :
  closed_bonds aks bks → k ∈ aks →
  y ∈ component_of aks bks k ↔ rtc (λ a b, b ∈ neighbors_in bks a) k y.
Proof.
  intros Hcl Hk. split.
  - unfold component_of. generalize (size aks). intros n. revert y.
    induction n as [|n IH]; simpl; intros y.
    + rewrite elem_of_singleton. by intros ->.
    + intros [Hy|(x & Hx & Hn)]%elem_of_expand; [by apply IH|].
      eapply rtc_r; [by apply IH|done].
  - revert y. apply rtc_ind_r; [apply component_of_self|].
    intros b c _ Hbc IH.
    rewrite <- (component_of_stable aks bks k) by done.
    apply elem_of_expand. right. eauto.
Qed.

Lemma component_of_eq aks bks k k' :
  closed_bonds aks bks → k ∈ aks → k' ∈ component_of aks bks k →
  component_of aks bks k' = component_of aks bks k.
Proof.
  intros Hcl Hk Hk'.
  assert (k' ∈ aks) as Hk'a by (by eapply component_of_within).
  assert (Hsym : ∀ a b, rtc (λ a b, b ∈ neighbors_in bks a) a b
                        → rtc (λ a b, b ∈ neighbors_in bks a) b a).
  { induction 1 as [|a b c Hab _ IH]; [done|].
    eapply rtc_r; [exact IH|]. by apply neighbors_in_sym. }
  apply (elem_of_component_of aks bks) in Hk'; [|done..].
  apply set_eq. intros y. rewrite !elem_of_component_of by done. split.
  - intros Hy. by etrans.
  - intros Hy. etrans; [by apply Hsym|done].
Qed.

Lemma components_aux_cons n aks bks k (rest : list Z) :
  components_aux (S n) aks bks (k :: rest)
  = component_of aks bks k
    :: components_aux n aks bks (filter (λ k', k' ∉ component_of aks bks k) rest).
Proof. done. Qed.

Lemma components_aux_nil n aks bks : components_aux n aks bks [] = [].
Proof. by destruct n. Qed.

Lemma components_aux_members fuel aks bks todo c :
  c ∈ components_aux fuel aks bks todo → ∃ k, k ∈ todo ∧ c = component_of aks bks k.
Proof.
  revert todo. induction fuel as [|fuel IH]; intros todo; simpl.
  - destruct todo; by intros ?%elem_of_nil.
  - destruct todo as [|k rest]; [by intros ?%elem_of_nil|].
    intros [->|Hc]%elem_of_cons; [exists k; split; [left|done]|].
    destruct (IH _ Hc) as (k' & Hk' & ->). exists k'. split; [|done].
    apply list_elem_of_filter in Hk' as [_ Hk']. by right.
Qed.

End connectivity.

Section graph_connectivity.
Context `{External}.

Lemma elem_of_atom_keys (g : graph) (k : Z) :
  k ∈ atom_keys g ↔ ∃ a, atoms g !! k = Some a.
Proof. unfold atom_keys. by rewrite elem_of_dom. Qed.

Lemma elem_of_bond_keys (g : graph) (b : bkey) :
  b ∈ bond_keys g ↔ ∃ bd, bonds g !! b = Some bd.
Proof. unfold bond_keys. by rewrite elem_of_dom. Qed.

Lemma atom_keys_subgraph (g : graph) (ks : gset Z) :
  atom_keys (subgraph g ks) = atom_keys g ∩ ks.
Proof.
  unfold atom_keys, subgraph. simpl. apply set_eq. intros k.
  rewrite elem_of_intersection, !elem_of_dom. unfold is_Some.
  setoid_rewrite map_lookup_filter_Some. simpl. naive_solver.
Qed.

Lemma elem_of_bond_keys_subgraph (g : graph) (ks : gset Z) (b : bkey) :
  b ∈ bond_keys (subgraph g ks) ↔ b ∈ bond_keys g ∧ b.1 ∈ ks ∧ b.2 ∈ ks.
Proof.
  unfold bond_keys, subgraph. simpl.
  rewrite !elem_of_dom. unfold is_Some.
  setoid_rewrite map_lookup_filter_Some. simpl. naive_solver.
Qed.

Lemma wf_bonds_subgraph (g : graph) (ks : gset Z) :
  ks ⊆ atom_keys g → wf_bonds (subgraph g ks).
Proof.
  intros Hks b (Hb & H1 & H2)%elem_of_bond_keys_subgraph.
  rewrite atom_keys_subgraph. set_solver.
Qed.

Lemma elem_of_non_dummy_keys (g : graph) (k : Z) :
  k ∈ non_dummy_keys g ↔ ∃ a, atoms g !! k = Some a ∧ to_number (atom_symbol a) ≠ 0.
Proof.
  unfold non_dummy_keys. rewrite elem_of_dom. unfold is_Some.
  setoid_rewrite map_lookup_filter_Some. done.
Qed.

Lemma non_dummy_keys_subseteq (g : graph) : non_dummy_keys g ⊆ atom_keys g.
Proof.
  intros k (a & Ha & _)%elem_of_non_dummy_keys. apply elem_of_atom_keys. eauto.
Qed.

Lemma wf_bonds_without_dummy_atoms (g : graph) : wf_bonds (without_dummy_atoms g).
Proof. apply wf_bonds_subgraph, non_dummy_keys_subseteq. Qed.

(** A graph is its own [without_dummy_atoms] exactly when it has no
    dummy atom and its bonds join atoms of the graph. *)
Lemma without_dummy_atoms_id (g : graph) :
  g = without_dummy_atoms g
  ↔ (∀ k a, atoms g !! k = Some a → to_number (atom_symbol a) ≠ 0) ∧ wf_bonds g.
Proof.
  split.
  - intros Heq. split.
    + intros k a Ha. rewrite Heq in Ha. unfold without_dummy_atoms, subgraph in Ha.
      simpl in Ha. apply map_lookup_filter_Some in Ha as [Ha Hk]. simpl in Hk.
      fold (non_dummy_keys g) in Hk.
      apply elem_of_non_dummy_keys in Hk as (a' & Ha' & Hnd). congruence.
    + rewrite Heq. apply wf_bonds_without_dummy_atoms.
  - intros [Hnd Hwf].
    assert (Hall : ∀ k, k ∈ atom_keys g → k ∈ non_dummy_keys g).
    { intros k [a Ha]%elem_of_atom_keys. apply elem_of_non_dummy_keys. eauto. }
    apply graph_eq; unfold without_dummy_atoms, subgraph; simpl;
      fold (non_dummy_keys g); symmetry; apply map_filter_id.
    + intros k a Ha. simpl. apply Hall, elem_of_atom_keys. eauto.
    + intros b bd Hb. simpl.
      assert (b ∈ bond_keys g) as Hin by (apply elem_of_bond_keys; eauto).
      apply Hwf in Hin as [??]. split; by apply Hall.
Qed.

Lemma without_dummy_atoms_subgraph (g : graph) (ks : gset Z) :
  ks ⊆ non_dummy_keys g →
  subgraph g ks = without_dummy_atoms (subgraph g ks).
Proof.
  intros Hks. apply without_dummy_atoms_id. split.
  - intros k a Ha. unfold subgraph in Ha. simpl in Ha.
    apply map_lookup_filter_Some in Ha as [Ha Hk]. simpl in Hk.
    apply Hks, elem_of_non_dummy_keys in Hk as (a' & Ha' & Hnd). congruence.
  - apply wf_bonds_subgraph. etrans; [exact Hks|apply non_dummy_keys_subseteq].
Qed.

Lemma is_connected_keys (g g' : graph) :
  atom_keys g = atom_keys g' → bond_keys g = bond_keys g' →
  is_connected g = is_connected g'.
Proof.
  intros Ha Hb. unfold is_connected, connected_components, connected_components_atom_keys.
  rewrite !length_fmap, Ha, Hb. done.
Qed.

Lemma connected_components_atom_keys_members (g : graph) (c : gset Z) :
  c ∈ connected_components_atom_keys g →
  ∃ k, k ∈ atom_keys g ∧ c = component_of (atom_keys g) (bond_keys g) k.
Proof.
  intros (k & Hk & ->)%components_aux_members. exists k. split; [|done].
  by apply elem_of_elements_Z.
Qed.

(** Every connected component is connected. *)
Lemma is_connected_component (g : graph) (c : gset Z) :
  wf_bonds g → c ∈ connected_components_atom_keys g →
  is_connected (subgraph g c) = true.
Proof.
  intros Hwf (k & Hk & ->)%connected_components_atom_keys_members.
  set (aks := atom_keys g). set (bks := bond_keys g).
  set (c := component_of aks bks k).
  assert (Hc : c ⊆ aks) by (by apply component_of_within).
  assert (Hst : expand bks c = c) by (by apply component_of_stable).
  assert (Haks : atom_keys (subgraph g c) = c).
  { rewrite atom_keys_subgraph. fold aks. set_solver. }
  set (bks_c := bond_keys (subgraph g c)).
  assert (Hcl : closed_bonds c bks_c).
  { intros b (_ & ? & ?)%elem_of_bond_keys_subgraph. done. }
  assert (Hnb : ∀ x, x ∈ c → neighbors_in bks_c x = neighbors_in bks x).
  { intros x Hx. apply set_eq. intros y. rewrite !elem_of_neighbors_in.
    unfold bks_c. rewrite !elem_of_bond_keys_subgraph. simpl.
    assert (y ∈ neighbors_in bks x → y ∈ c) as Hy.
    { intros Hy. rewrite <- Hst. apply elem_of_expand. right. eauto. }
    rewrite elem_of_neighbors_in in Hy. fold bks. naive_solver. }
  assert (k ∈ c) as Hkc by apply component_of_self.
  destruct (elements_Z c) as [|k' rest] eqn:Hel.
  { apply elem_of_elements_Z in Hkc. rewrite Hel in Hkc. by apply elem_of_nil in Hkc. }
  assert (k' ∈ c) as Hk'. { apply elem_of_elements_Z. rewrite Hel. left. }
  assert (∃ n, size c = S n) as [n Hn].
  { destruct (size c) eqn:Hsz; [|eauto].
    apply size_empty_iff, leibniz_equiv in Hsz. set_solver. }
  assert (component_of c bks_c k' = c) as Hcomp.
  { apply set_eq. intros y. split.
    - apply component_of_within; done.
    - intros Hy. change (y ∈ component_of aks bks k) in Hy.
      rewrite <- (component_of_eq aks bks k k') in Hy by done.
      revert y Hy. apply component_of_least; [apply component_of_self|].
      intros y [Hy|(x & Hx & Hxy)]%elem_of_expand; [done|].
      rewrite <- (component_of_stable c bks_c k') by done.
      apply elem_of_expand. right. exists x. split; [done|].
      rewrite Hnb; [done|]. by eapply component_of_within. }
  assert (filter (λ k'0, k'0 ∉ c) rest = []) as Hfilter.
  { assert (Hrest : ∀ x, x ∈ rest → x ∈ c).
    { intros x Hx. apply elem_of_elements_Z. rewrite Hel. by right. }
    clear Hel. induction rest as [|x rest IH]; [done|].
    rewrite filter_cons. destruct (decide (x ∉ c)) as [Hx|_].
    - exfalso. apply Hx, Hrest. left.
    - apply IH. intros; apply Hrest. by right. }
  unfold is_connected, connected_components, connected_components_atom_keys.
  rewrite length_fmap, Haks. fold bks_c. apply bool_decide_eq_true.
  rewrite Hel, Hn, components_aux_cons, Hcomp, Hfilter, components_aux_nil. done.
Qed.

End graph_connectivity.

(** ** Which exceptions a computation can raise *)

Lemma raises_in_Ok {A} (E : exn → Prop) (a : A) : raises_in E (Ok a).
Proof. intros e [=]. Qed.

Lemma raises_in_Raise {A} (E : exn → Prop) (e : exn) : E e → raises_in E (@Raise A e).
Proof. intros He e' [= <-]. done. Qed.

Lemma raises_in_bind {A B} (E : exn → Prop) (m : res A) (f : A → res B) :
  raises_in E m → (∀ a, m = Ok a → raises_in E (f a)) → raises_in E (m ≫= f).
Proof.
  intros Hm Hf e [He|(a & Ha & He)]%bind_Raise; [by apply Hm|by eapply Hf].
Qed.

Lemma raises_in_assert (E : exn → Prop) (b : bool) (e : exn) :
  (b = false → E e) → raises_in E (assert b e).
Proof. intros He e' [Hb <-]%assert_Raise. by apply He. Qed.

Lemma raises_in_mono {A} (E E' : exn → Prop) (m : res A) :
  (∀ e, E e → E' e) → raises_in E m → raises_in E' m.
Proof. intros HS Hm e He. by apply HS, Hm. Qed.

Lemma raises_in_rmapM {A B} (E : exn → Prop) (f : A → res B) (l : list A) :
  (∀ x, x ∈ l → raises_in E (f x)) → raises_in E (rmapM f l).
Proof.
  induction l as [|x l IH]; intros Hf; simpl; [apply raises_in_Ok|].
  apply raises_in_bind; [apply Hf; left|]. intros y _.
  apply raises_in_bind; [apply IH; intros; apply Hf; by right|].
  intros; apply raises_in_Ok.
Qed.

Lemma raises_in_rfoldl {A B} (E : exn → Prop) (f : A → B → res A) (a : A) (l : list B) :
  (∀ a x, x ∈ l → raises_in E (f a x)) → raises_in E (rfoldl f a l).
Proof.
  revert a. induction l as [|x l IH]; intros a Hf; simpl; [apply raises_in_Ok|].
  apply raises_in_bind; [apply Hf; left|]. intros a' _.
  apply IH. intros; apply Hf; by right.
Qed.

Lemma raises_in_getitem {K V} `{Countable K} (E : exn → Prop) (d : gmap K V) (k : K) :
  E KeyError → raises_in E (dict_.getitem d k).
Proof. intros HS e. unfold dict_.getitem. destruct (d !! k); [done|]. by intros [= <-]. Qed.

#[global] Instance plain_in_plain : PlainIn plain_exn.
Proof. by intros e. Qed.

(** A plain exception belongs to such a set. *)
Ltac plain := apply plain_in; split; reflexivity.

Create HintDb raises discriminated.
#[global] Hint Resolve raises_in_Ok : raises.

(** Walks through binds, conditionals and pattern matches. *)
Ltac raises_step :=
  lazymatch goal with
  | |- raises_in _ (Ok _) => apply raises_in_Ok
  | |- raises_in _ (Raise _) => apply raises_in_Raise; plain
  | |- raises_in _ (mbind _ _) => apply raises_in_bind; [|intros ? ?]
  | |- raises_in _ (assert _ _) => apply raises_in_assert; intros ?; plain
  | |- raises_in _ (rmapM _ _) => apply raises_in_rmapM; intros ? ?
  | |- raises_in _ (rfoldl _ _ _) => apply raises_in_rfoldl; intros ? ? ?
  | |- raises_in _ (dict_.getitem _ _) => apply raises_in_getitem; plain
  | |- raises_in _ (if ?b then _ else _) => destruct b
  | |- raises_in _ (match ?x with _ => _ end) => destruct x
  | |- raises_in _ (let _ := _ in _) => cbv zeta
  end.

Ltac raises := repeat (first [ solve [auto with raises] | raises_step ]).

Section raises.
Context `{External}.
Context (E : exn → Prop) `{!PlainIn E}.

Lemma raises_sorted_by_priority pri ks : raises_in E (sorted_by_priority pri ks).
Proof. unfold sorted_by_priority. raises. Qed.
Hint Resolve raises_sorted_by_priority : raises.

Lemma raises_atom_stereo_sorted_neighbor_keys g key pri :
  raises_in E (atom_stereo_sorted_neighbor_keys g key pri).
Proof. unfold atom_stereo_sorted_neighbor_keys. raises. Qed.

Lemma raises_bond_stereo_sorted_neighbor_keys g k1 k2 pri :
  raises_in E (bond_stereo_sorted_neighbor_keys g k1 k2 pri).
Proof. unfold bond_stereo_sorted_neighbor_keys. raises. Qed.
Hint Resolve raises_atom_stereo_sorted_neighbor_keys
  raises_bond_stereo_sorted_neighbor_keys : raises.

Lemma raises_is_even_permutation l1 l2 : raises_in E (is_even_permutation l1 l2).
Proof. unfold is_even_permutation. raises. Qed.
Hint Resolve raises_is_even_permutation : raises.

Lemma raises_list_max_Z l : raises_in E (list_max_Z l).
Proof. unfold list_max_Z. raises. Qed.
Hint Resolve raises_list_max_Z : raises.

Lemma raises_assign_hydrogen_priorities g pri b n :
  raises_in E (assign_hydrogen_priorities g pri b n).
Proof. unfold assign_hydrogen_priorities. raises. Qed.
Hint Resolve raises_assign_hydrogen_priorities : raises.

Lemma raises_rfilter {A} (p : A → res bool) (l : list A) :
  (∀ x, raises_in E (p x)) → raises_in E (rfilter p l).
Proof. intros Hp. unfold rfilter. raises. Qed.

Lemma raises_stereogenic_atom_keys_from_priorities g pri assigned :
  raises_in E (stereogenic_atom_keys_from_priorities g pri assigned).
Proof.
  unfold stereogenic_atom_keys_from_priorities. raises.
  apply raises_rfilter. intros key. raises.
Qed.

Lemma raises_end_is_stereogenic pri nkeys : raises_in E (end_is_stereogenic pri nkeys).
Proof. unfold end_is_stereogenic. raises. Qed.
Hint Resolve raises_end_is_stereogenic : raises.

Lemma raises_bond_is_stereogenic g pri key : raises_in E (bond_is_stereogenic g pri key).
Proof. unfold bond_is_stereogenic. raises. Qed.
Hint Resolve raises_bond_is_stereogenic : raises.

Lemma raises_stereogenic_bond_keys_from_priorities g pri assigned :
  raises_in E (stereogenic_bond_keys_from_priorities g pri assigned).
Proof.
  unfold stereogenic_bond_keys_from_priorities. raises.
  apply raises_rfilter. intros key. raises.
Qed.

Lemma raises_stereogenic_keys_from_priorities g pri assigned :
  raises_in E (stereogenic_keys_from_priorities g pri assigned).
Proof.
  unfold stereogenic_keys_from_priorities.
  apply raises_in_bind; [apply raises_stereogenic_atom_keys_from_priorities|]. intros ? _.
  apply raises_in_bind; [apply raises_stereogenic_bond_keys_from_priorities|]. intros ? _.
  raises.
Qed.
Hint Resolve raises_stereogenic_keys_from_priorities : raises.

Lemma raises_sorted_by_local_priority loc ks : raises_in E (sorted_by_local_priority loc ks).
Proof. unfold sorted_by_local_priority. raises. Qed.
Lemma raises_max_by_local_priority loc ks : raises_in E (max_by_local_priority loc ks).
Proof. unfold max_by_local_priority. raises. Qed.
Lemma raises_last_item l : raises_in E (last_item l).
Proof. unfold last_item. raises. Qed.
Hint Resolve raises_sorted_by_local_priority raises_max_by_local_priority
  raises_last_item : raises.

Lemma raises_evaluate_parities ev g0 pri keys :
  raises_in E (evaluate_parities ev g0 pri keys).
Proof.
  unfold evaluate_parities.
  apply raises_in_bind.
  { destruct ev; simpl.
    - unfold parity_evaluator_read_canonical_. raises.
    - unfold parity_evaluator_flip_local_. raises. }
  intros p_ Hp.
  assert (∀ key, raises_in E (p_ key)) as Hkey.
  { intros key. destruct ev; simpl in Hp.
    - unfold parity_evaluator_read_canonical_ in Hp. injection Hp as <-. raises.
    - unfold parity_evaluator_flip_local_ in Hp.
      apply bind_Ok in Hp as (pri' & _ & [= <-]). raises. }
  raises.
Qed.
Hint Resolve raises_evaluate_parities : raises.

Lemma raises_sorted_pris pri ks : raises_in E (sorted_pris pri ks).
Proof. unfold sorted_pris. raises. Qed.
Hint Resolve raises_sorted_pris : raises.

Lemma raises_bond_pris pri ks : raises_in E (bond_pris pri ks).
Proof. unfold bond_pris. raises. Qed.
Hint Resolve raises_bond_pris : raises.

Lemma raises_stereo_assignment_representation g pri :
  raises_in E (stereo_assignment_representation g pri).
Proof. unfold stereo_assignment_representation. raises. Qed.
Hint Resolve raises_stereo_assignment_representation : raises.

Lemma raises_ts_direction_representation g pri :
  raises_in E (ts_direction_representation g pri).
Proof. unfold ts_direction_representation. raises. Qed.
Hint Resolve raises_ts_direction_representation : raises.

Lemma raises_ts_is_canonical_direciton g1 p1 g2 p2 :
  raises_in E (ts_is_canonical_direciton g1 p1 g2 p2).
Proof. unfold ts_is_canonical_direciton. raises. Qed.
Hint Resolve raises_ts_is_canonical_direciton : raises.

Lemma raises_is_canonical_enantiomer g1 p1 g2 p2 :
  raises_in E (is_canonical_enantiomer g1 p1 g2 p2).
Proof. unfold is_canonical_enantiomer. raises. Qed.

Lemma raises_sort_evaluator_atom_invariants_ g pri key :
  raises_in E (sort_evaluator_atom_invariants_ g pri key).
Proof. unfold sort_evaluator_atom_invariants_. raises. Qed.
Hint Resolve raises_sort_evaluator_atom_invariants_ : raises.

Lemma raises_sort_and_partition g pri cla : raises_in E (sort_and_partition g pri cla).
Proof. unfold sort_and_partition. raises. Qed.
Hint Resolve raises_sort_and_partition : raises.

Lemma raises_neighbor_classes n p c q s i : raises_in E (neighbor_classes n p c q s i).
Proof. unfold neighbor_classes. raises. Qed.
Hint Resolve raises_neighbor_classes : raises.

Lemma raises_refine_step g n p c idx cla q : raises_in E (refine_step g n p c idx cla q).
Proof. unfold refine_step. raises. Qed.
Hint Resolve raises_refine_step : raises.

Lemma raises_refine_loop fuel g n st : raises_in E (refine_loop fuel g n st).
Proof.
  revert st. induction fuel as [|fuel IH]; intros st; simpl.
  - destruct (rs_new st) as [|[idx cla] q]; raises.
  - destruct (rs_new st) as [|[idx cla] q]; [raises|].
    apply raises_in_bind; [raises|]. intros st' _. apply IH.
Qed.
Hint Resolve raises_refine_loop : raises.

Lemma raises_refine_priorities g pri : pre_ok E g → raises_in E (refine_priorities g pri).
Proof.
  intros [Hc Hd]. unfold refine_priorities.
  apply raises_in_bind; [apply raises_in_assert; done|]. intros _ _.
  apply raises_in_bind.
  { apply raises_in_assert. intros Hb%bool_decide_eq_false. by apply Hd. }
  intros _ _. raises.
Qed.

Lemma raises_break_ties_loop fuel g pri :
  pre_ok E g → raises_in E (break_ties_loop fuel g pri).
Proof.
  intros Hg. revert pri. induction fuel as [|fuel IH]; intros pri; simpl.
  - destruct (classes_to_refine pri) as [|[idx cla] q]; raises.
  - destruct (classes_to_refine pri) as [|[idx cla] q]; [raises|].
    destruct (last cla); [|raises].
    apply raises_in_bind; [by apply raises_refine_priorities|]. intros pri' _. apply IH.
Qed.

Lemma raises_break_priority_ties g pri : pre_ok E g → raises_in E (break_priority_ties g pri).
Proof.
  intros Hg. unfold break_priority_ties.
  apply raises_in_bind; [apply raises_in_assert; apply Hg|]. intros _ _.
  apply raises_in_bind.
  { apply raises_in_assert. intros Hb%bool_decide_eq_false. by apply Hg. }
  intros _ _. by apply raises_break_ties_loop.
Qed.

End raises.

(** ** What the driver leaves unchanged in the graphs it refines (C7) *)

Section frames.
Context `{External}.

#[local] Instance same_frame_equiv : Equivalence same_frame.
Proof.
  split.
  - done.
  - intros g g' [??]. done.
  - intros g1 g2 g3 [??] [??]. split; congruence.
Qed.

Lemma same_frame_atom_keys g g' : same_frame g g' → atom_keys g = atom_keys g'.
Proof.
  intros [Hs _]. unfold atom_keys.
  rewrite <- (dom_fmap_L atom_symbol (atoms g)), <- (dom_fmap_L atom_symbol (atoms g')).
  unfold atom_symbols in Hs. by rewrite Hs.
Qed.

Lemma same_frame_set_stereo_parities g d : same_frame g (set_stereo_parities g d).
Proof.
  split.
  - unfold atom_symbols, set_stereo_parities, set_bond_stereo_parities,
      set_atom_stereo_parities. simpl.
    apply map_eq. intros k. rewrite !lookup_fmap, map_lookup_imap.
    destruct (atoms g !! k) as [a|]; simpl; [|done].
    by destruct (atom_pars d !! k).
  - unfold bond_keys, set_stereo_parities, set_bond_stereo_parities. simpl.
    apply set_eq. intros b. rewrite !elem_of_dom. unfold is_Some.
    rewrite map_lookup_imap. destruct (bonds g !! b); simpl; naive_solver.
Qed.

Lemma same_frame_without_stereo g : same_frame g (without_stereo g).
Proof.
  split.
  - unfold atom_symbols, without_stereo. simpl. by rewrite <- map_fmap_compose.
  - unfold bond_keys, without_stereo. simpl. by rewrite dom_fmap_L.
Qed.

Lemma same_frame_ts_reverse g : same_frame g (ts_reverse g).
Proof.
  split; [done|]. unfold bond_keys, ts_reverse. simpl. by rewrite dom_fmap_L.
Qed.

Lemma is_connected_same_frame g g' : same_frame g g' → is_connected g = is_connected g'.
Proof.
  intros Hf. apply is_connected_keys; [by apply same_frame_atom_keys|apply Hf].
Qed.

Lemma dummy_free_same_frame g g' :
  same_frame g g' → g = without_dummy_atoms g → g' = without_dummy_atoms g'.
Proof.
  intros Hf. rewrite !without_dummy_atoms_id. intros [Hnd Hwf]. split.
  - intros k a' Ha'. destruct Hf as [Hs _].
    assert (atom_symbols g !! k = Some (atom_symbol a')) as Hk.
    { rewrite Hs. unfold atom_symbols. by rewrite lookup_fmap, Ha'. }
    unfold atom_symbols in Hk. rewrite lookup_fmap in Hk.
    destruct (atoms g !! k) as [a|] eqn:Ha; [|done]. injection Hk as <-. by eapply Hnd.
  - unfold wf_bonds in *. by rewrite <- (same_frame_atom_keys g g'), <- (proj2 Hf).
Qed.

Lemma pre_ok_same_frame (E : exn → Prop) g g' :
  same_frame g g' → pre_ok E g → pre_ok E g'.
Proof.
  intros Hf [Hc Hd]. split.
  - rewrite <- (is_connected_same_frame g g') by done. done.
  - intros Hne. apply Hd. intros Heq. apply Hne. by eapply dummy_free_same_frame.
Qed.

Context (E : exn → Prop) `{!PlainIn E}.

Lemma algo_loop_spec fuel ev1 ev2 g0 g1 g2 pri :
  pre_ok E g1 →
  raises_in E (algo_loop fuel ev1 ev2 g0 g1 g2 pri)
  ∧ ∀ pri' g1' g2', algo_loop fuel ev1 ev2 g0 g1 g2 pri = Ok (pri', g1', g2')
                    → same_frame g1 g1'.
Proof.
  revert g1 g2 pri. induction fuel as [|fuel IH]; intros g1 g2 pri Hg1; simpl.
  { split; [apply raises_in_Raise; plain|done]. }
  split.
  - apply raises_in_bind; [by apply raises_refine_priorities|]. intros pri1 _.
    apply raises_in_bind; [by apply raises_stereogenic_keys_from_priorities|]. intros keys _.
    destruct (keys_empty keys); [apply raises_in_Ok|].
    apply raises_in_bind; [by apply raises_evaluate_parities|]. intros pars1 _.
    apply raises_in_bind; [by apply raises_evaluate_parities|]. intros pars2 _.
    case_bool_decide; [apply raises_in_Ok|].
    apply IH. eapply pre_ok_same_frame; [apply same_frame_set_stereo_parities|done].
  - intros pri' g1' g2'.
    intros (pri1 & _ & (keys & _ & Hrest)%bind_Ok)%bind_Ok. revert Hrest.
    destruct (keys_empty keys); [by intros [= <- <- <-]|].
    intros (pars1 & _ & (pars2 & _ & Hrest)%bind_Ok)%bind_Ok. revert Hrest.
    case_bool_decide.
    + intros [= <- <- <-]. apply same_frame_set_stereo_parities.
    + intros Hrec. etrans; [apply (same_frame_set_stereo_parities g1 pars1)|].
      eapply IH; [|exact Hrec].
      eapply pre_ok_same_frame; [apply same_frame_set_stereo_parities|done].
Qed.

Lemma algo_spec ev1 ev2 g pri ts_rev :
  pre_ok E g →
  raises_in E (algo ev1 ev2 g pri ts_rev)
  ∧ ∀ pri' g1' g2', algo ev1 ev2 g pri ts_rev = Ok (pri', g1', g2') → same_frame g g1'.
Proof.
  intros Hg. unfold algo.
  set (g0 := if ts_rev then ts_reverse g else g).
  assert (same_frame g (without_stereo g0)) as Hf.
  { etrans; [|apply same_frame_without_stereo].
    unfold g0. destruct ts_rev; [apply same_frame_ts_reverse|done]. }
  assert (pre_ok E (without_stereo g0)) as Hpre by (by eapply pre_ok_same_frame).
  destruct (algo_loop_spec (algo_fuel (without_stereo g0) pri) ev1 ev2 g0
              (without_stereo g0) (without_stereo g0) pri Hpre) as [Hr Hfr].
  split.
  - apply raises_in_bind; [done|]. intros [[??]?] _. apply raises_in_Ok.
  - intros pri' g1' g2' ([[p a] b] & Hloop & [= <- <- <-])%bind_Ok.
    etrans; [exact Hf|]. by eapply Hfr.
Qed.

Lemma raises_calculate_connected g ev1 ev2 bt bb pri :
  pre_ok E g →
  raises_in E (calculate_priorities_and_assign_stereo_connected g ev1 ev2 bt bb pri).
Proof.
  intros Hg. unfold calculate_priorities_and_assign_stereo_connected.
  set (e1 := default ReadCanonical ev1). set (e2 := default e1 ev2).
  destruct (algo_spec e1 e2 g pri false Hg) as [Hr1 Hf1].
  apply raises_in_bind; [done|]. intros [[pri1 g1] g2] Halgo.
  assert (same_frame g g1) as Hfg1 by (by eapply Hf1).
  apply raises_in_bind.
  { destruct (is_ts_graph g); [|apply raises_in_Ok].
    destruct (algo_spec e1 e2 g (Some pri1) true Hg) as [Hr2 _].
    apply raises_in_bind; [done|]. intros [[rpri rg1] rg2] _.
    apply raises_in_bind; [by apply raises_ts_is_canonical_direciton|].
    intros; apply raises_in_Ok. }
  intros [[pri2 g1'] g2'] Hsel.
  assert (same_frame g g1') as Hfg1'.
  { revert Hsel. destruct (is_ts_graph g); [|by intros [= <- <- <-]].
    intros ([[rpri rg1] rg2] & Hrev & (is_can & _ & Hsel)%bind_Ok)%bind_Ok.
    destruct (algo_spec e1 e2 g (Some pri1) true Hg) as [_ Hf2].
    destruct is_can; injection Hsel as <- <- <-; [done|by eapply Hf2]. }
  apply raises_in_bind.
  { destruct bt; [|apply raises_in_Ok].
    apply raises_break_priority_ties; [done|]. by eapply pre_ok_same_frame. }
  intros pri3 _.
  apply raises_in_bind.
  { destruct (negb bb); [by apply raises_assign_hydrogen_priorities|apply raises_in_Ok]. }
  intros; apply raises_in_Ok.
Qed.

Lemma raises_calculate g ev1 ev2 bt bb pri :
  (∀ c, c ∈ connected_components (without_dummy_atoms g) → pre_ok E c) →
  raises_in E (calculate_priorities_and_assign_stereo g ev1 ev2 bt bb pri).
Proof.
  intros Hc. unfold calculate_priorities_and_assign_stereo.
  apply raises_in_rfoldl. intros acc cgra Hin.
  apply raises_in_bind; [by apply raises_calculate_connected, Hc|].
  intros [??] _. apply raises_in_Ok.
Qed.

End frames.

Section preconditions.
Context `{External}.

Lemma pre_ok_component (E : exn → Prop) (g c : graph) :
  c ∈ connected_components (without_dummy_atoms g) → pre_ok E c.
Proof.
  unfold connected_components. intros (ks & -> & Hks)%list_elem_of_fmap.
  assert (Hwf := wf_bonds_without_dummy_atoms g).
  split.
  - rewrite (is_connected_component _ _ Hwf Hks). done.
  - intros Hne. exfalso. apply Hne.
    apply connected_components_atom_keys_members in Hks as (k & Hk & ->).
    apply without_dummy_atoms_id. split.
    + intros k' a Ha. unfold subgraph in Ha. simpl in Ha.
      apply map_lookup_filter_Some in Ha as [Ha _].
      unfold without_dummy_atoms, subgraph in Ha. simpl in Ha.
      apply map_lookup_filter_Some in Ha as [Ha Hnd]. simpl in Hnd.
      fold (non_dummy_keys g) in Hnd.
      apply elem_of_non_dummy_keys in Hnd as (a' & Ha' & Hnd). congruence.
    + apply wf_bonds_subgraph. by apply component_of_within.
Qed.

Lemma refine_priorities_cases (g : graph) (pri : option (gmap Z Z)) :
  (is_connected g = false ∧ refine_priorities g pri = Raise NotConnected)
  ∨ (is_connected g = true ∧ g ≠ without_dummy_atoms g
     ∧ refine_priorities g pri = Raise HasDummyAtoms)
  ∨ (is_connected g = true ∧ g = without_dummy_atoms g
     ∧ raises_in plain_exn (refine_priorities g pri)).
Proof.
  destruct (is_connected g) eqn:Hc.
  - right. destruct (decide (g = without_dummy_atoms g)) as [Hd|Hd].
    + right. split_and!; [done..|].
      apply raises_refine_priorities; [apply _|]. split; [congruence|done].
    + left. split_and!; [done..|].
      unfold refine_priorities. rewrite Hc. simpl.
      by rewrite bool_decide_eq_false_2.
  - left. split; [done|]. unfold refine_priorities. by rewrite Hc.
Qed.

(** C7: [refine_priorities] raises a precondition violation exactly when
    its graph is disconnected or has a dummy atom, and the public entry
    point, which removes the dummy atoms and splits the graph into its
    connected components, never raises one. *)
Theorem refine_priorities_precondition (g : graph) (pri : option (gmap Z Z)) :
  (wf_bonds g →
   (refine_priorities g pri = Raise NotConnected ↔ is_connected g = false)
   ∧ (refine_priorities g pri = Raise HasDummyAtoms
      ↔ is_connected g = true ∧ has_dummy_atoms g)
   ∧ ((∃ e, refine_priorities g pri = Raise e ∧ is_precondition_violation e = true)
      ↔ is_connected g = false ∨ has_dummy_atoms g))
  ∧ (∀ g0 par_eval_ par_eval2_ break_ties backbone_only pri0 e,
       calculate_priorities_and_assign_stereo
         g0 par_eval_ par_eval2_ break_ties backbone_only pri0 = Raise e
       → is_precondition_violation e = false).
Proof.
  split.
  - intros Hwf.
    assert (Hdummy : g ≠ without_dummy_atoms g ↔ has_dummy_atoms g).
    { rewrite without_dummy_atoms_id. unfold has_dummy_atoms. split.
      - intros Hne. apply dec_stable. intros Hno. apply Hne. split; [|done].
        intros k a Ha Hz. apply Hno. eauto.
      - intros (k & a & Ha & Hz) [Hnd _]. by eapply Hnd. }
    destruct (refine_priorities_cases g pri)
      as [[Hc Hr]|[(Hc & Hd & Hr)|(Hc & Hd & Hr)]]; rewrite Hc.
    + rewrite Hr. split_and!; [done|naive_solver|].
      split; [by left|]. intros _. by exists NotConnected.
    + rewrite Hr. apply Hdummy in Hd. split_and!; [done|done|].
      split; [by right|]. intros _. by exists HasDummyAtoms.
    + assert (¬ has_dummy_atoms g) as Hnd by (by rewrite <- Hdummy; intros []).
      split_and!.
      * split; [|done]. intros He. apply Hr in He. by destruct He.
      * split; [|naive_solver]. intros He. apply Hr in He. by destruct He.
      * split; [|naive_solver]. intros (e & He & Hv). apply Hr in He.
        destruct He as [He _]. congruence.
  - intros g0 ev1 ev2 bt bb pri0 e Hr.
    assert (raises_in plain_exn
              (calculate_priorities_and_assign_stereo g0 ev1 ev2 bt bb pri0)) as Hp.
    { apply raises_calculate; [apply _|]. intros c. apply pre_ok_component. }
    apply Hp in Hr. apply Hr.
Qed.

End preconditions.

Lemma refine_priorities_precondition_witness :
  wf_bonds Examples.diol
  ∧ (refine_priorities Examples.diol None = Raise NotConnected
     ↔ is_connected Examples.diol = false).
Proof.
  assert (Hwf : wf_bonds Examples.diol) by by_evaluation.
  split; [exact Hwf|].
  exact (proj1 (proj1 (refine_priorities_precondition Examples.diol None) Hwf)).
Defined.

(** Two examples: two methane molecules in one graph, and a carbon with
    a dummy atom attached. *)
Lemma refine_priorities_precondition_examples :
  refine_priorities
    (Reference.graph_of [(0, Atom "C" 4 None); (1, Atom "C" 4 None)] []) None
  = Raise NotConnected
  ∧ refine_priorities
      (Reference.graph_of [(0, Atom "C" 3 None); (1, Atom "X" 0 None)]
                          [Reference.single 0 1]) None
    = Raise HasDummyAtoms
  ∧ calculate_priorities_and_assign_stereo
      (Reference.graph_of [(0, Atom "C" 3 None); (1, Atom "X" 0 None);
                           (2, Atom "C" 4 None)]
                          [Reference.single 0 1]) None None false true None
    = Ok (list_to_map [(0, 0); (2, 0)],
          Reference.graph_of [(0, Atom "C" 3 None); (1, Atom "X" 0 None);
                              (2, Atom "C" 4 None)]
                             [Reference.single 0 1]).
Proof. split_and!; by_evaluation. Qed.

(** ** Consistency of the parities that canonicalization recomputes (C8) *)

Section consistency.
Context `{External}.

#[local] Instance plain_in_not_consistency :
  PlainIn (λ e, is_consistency_violation e = false).
Proof. by intros e [_ ?]. Qed.

Lemma calculate_raises_no_consistency_violation g ev1 ev2 bt bb pri e :
  calculate_priorities_and_assign_stereo g ev1 ev2 bt bb pri = Raise e →
  is_consistency_violation e = false.
Proof.
  intros Hr.
  assert (raises_in (λ e, is_consistency_violation e = false)
            (calculate_priorities_and_assign_stereo g ev1 ev2 bt bb pri)) as Hp.
  { apply raises_calculate; [apply _|]. intros c _. split; done. }
  by apply Hp.
Qed.

(** C8: [canonical_keys] raises a consistency violation exactly when the
    parities that the canonicalization assigns differ from those of the
    input graph, and the violation carries the input parities and the
    assigned ones; when they agree it returns the canonical keys. *)
Theorem canonical_keys_consistency (g : graph) (backbone_only : bool) :
  (∀ keys g',
     calculate_priorities_and_assign_stereo g None None true backbone_only None
     = Ok (keys, g') →
     (atom_stereo_parities g' ≠ atom_stereo_parities g
      → canonical_keys g backbone_only
        = Raise (AtomParityMismatch (atom_stereo_parities g) (atom_stereo_parities g')))
     ∧ (atom_stereo_parities g' = atom_stereo_parities g
        → bond_stereo_parities g' ≠ bond_stereo_parities g
        → canonical_keys g backbone_only
          = Raise (BondParityMismatch (bond_stereo_parities g) (bond_stereo_parities g')))
     ∧ (atom_stereo_parities g' = atom_stereo_parities g
        → bond_stereo_parities g' = bond_stereo_parities g
        → canonical_keys g backbone_only = Ok keys))
  ∧ (∀ e, canonical_keys g backbone_only = Raise e →
          is_consistency_violation e = true →
          ∃ keys g',
            calculate_priorities_and_assign_stereo g None None true backbone_only None
            = Ok (keys, g')
            ∧ ((e = AtomParityMismatch (atom_stereo_parities g) (atom_stereo_parities g')
                ∧ atom_stereo_parities g' ≠ atom_stereo_parities g)
               ∨ (e = BondParityMismatch (bond_stereo_parities g) (bond_stereo_parities g')
                  ∧ bond_stereo_parities g' ≠ bond_stereo_parities g)))
  ∧ (∀ e, calculate_priorities_and_assign_stereo g None None true backbone_only None
          = Raise e
          → canonical_keys g backbone_only = Raise e
            ∧ is_consistency_violation e = false).
Proof.
  unfold canonical_keys. split_and!.
  - intros keys g' ->. simpl. split_and!.
    + intros Hne.
      by rewrite (bool_decide_eq_false_2 (atom_stereo_parities g' = _)).
    + intros Heq Hne.
      rewrite (bool_decide_eq_true_2 (atom_stereo_parities g' = _)) by done.
      by rewrite (bool_decide_eq_false_2 (bond_stereo_parities g' = _)).
    + intros Heq1 Heq2.
      rewrite (bool_decide_eq_true_2 (atom_stereo_parities g' = _)) by done.
      by rewrite (bool_decide_eq_true_2 (bond_stereo_parities g' = _)).
  - intros e Hr He.
    destruct (calculate_priorities_and_assign_stereo g None None true backbone_only None)
      as [[keys g']|e'] eqn:Hcalc.
    + exists keys, g'. split; [done|]. simpl in Hr. revert Hr.
      destruct (decide (atom_stereo_parities g' = atom_stereo_parities g)) as [Ha|Ha];
        [destruct (decide (bond_stereo_parities g' = bond_stereo_parities g)) as [Hb|Hb]|].
      * rewrite (bool_decide_eq_true_2 (atom_stereo_parities g' = _)) by done.
        by rewrite (bool_decide_eq_true_2 (bond_stereo_parities g' = _)).
      * rewrite (bool_decide_eq_true_2 (atom_stereo_parities g' = _)) by done.
        rewrite (bool_decide_eq_false_2 (bond_stereo_parities g' = _)) by done.
        intros [= <-]. right. by split.
      * rewrite (bool_decide_eq_false_2 (atom_stereo_parities g' = _)) by done.
        intros [= <-]. left. by split.
    + simpl in Hr. injection Hr as ->.
      apply calculate_raises_no_consistency_violation in Hcalc. congruence.
  - intros e Hcalc. rewrite Hcalc. split; [done|].
    by eapply calculate_raises_no_consistency_violation.
Qed.

End consistency.

Lemma canonical_keys_consistency_witness :
  calculate_priorities_and_assign_stereo Examples.methane None None true false None
  = Ok ({[5 := 0]}, Examples.methane)
  ∧ canonical_keys Examples.methane false = Ok {[5 := 0]}.
Proof.
  assert (H1 : calculate_priorities_and_assign_stereo
                 Examples.methane None None true false None
               = Ok ({[5 := 0]}, Examples.methane)) by by_evaluation.
  split; [exact H1|].
  exact (proj2 (proj2 (proj1 (canonical_keys_consistency Examples.methane false)
                         _ _ H1)) eq_refl eq_refl).
Defined.

(** A parity on a carbon that is no stereocentre is not reproduced:
    [canonical_keys] raises, and the violation carries both mappings. *)
Lemma canonical_keys_consistency_violated :
  canonical_keys (Reference.graph_of [(5, Atom "C" 4 (Some true))] []) false
  = Raise (AtomParityMismatch {[5 := Some true]} {[5 := None]}).
Proof. by_evaluation. Qed.

(** ** Sorting by a key: order, stability and groups *)

Lemma filter_none {A} (P : A → Prop) `{∀ x, Decision (P x)} (l : list A) :
  (∀ x, x ∈ l → ¬ P x) → filter P l = [].
Proof.
  induction l as [|x l IH]; intros Hl; [done|].
  rewrite filter_cons, decide_False by (apply Hl; left).
  apply IH. intros y Hy. apply Hl. by right.
Qed.

Lemma filter_all {A} (P : A → Prop) `{∀ x, Decision (P x)} (l : list A) :
  (∀ x, x ∈ l → P x) → filter P l = l.
Proof.
  induction l as [|x l IH]; intros Hl; [done|].
  rewrite filter_cons, decide_True by (apply Hl; left).
  f_equal. apply IH. intros y Hy. apply Hl. by right.
Qed.

Section sort_by_order.
Context {A : Type} (R : relation A) (le : A → A → bool).
Context (Hle : ∀ x y, le x y = true → R x y).
Context (Hgt : ∀ x y, le x y = false → R y x).
Context `{!Transitive R}.
Implicit Types (l : list A) (x y : A).

Lemma insert_by_sorted x l :
  StronglySorted R l → StronglySorted R (insert_by le x l).
Proof.
  induction 1 as [|y l Hl IH Hy]; simpl.
  - repeat constructor.
  - destruct (le x y) eqn:Hxy.
    + constructor; [by constructor|]. constructor; [by apply Hle|].
      eapply Forall_impl; [exact Hy|]. simpl. intros z Hz.
      transitivity y; [by apply Hle|done].
    + constructor; [done|].
      rewrite insert_by_perm. constructor; [by apply Hgt|done].
Qed.

Lemma sorted_by_sorted l : StronglySorted R (sorted_by le l).
Proof.
  induction l as [|x l IH]; simpl; [constructor|]. by apply insert_by_sorted.
Qed.
End sort_by_order.

Section sort_by_key.
Context {A : Type} (f : A → Z).
Implicit Types (l : list A) (x y : A).

Lemma insert_by_key_sorted x l :
  StronglySorted (λ a b, f a ≤ f b) l →
  StronglySorted (λ a b, f a ≤ f b) (insert_by (key_leb f) x l).
Proof.
  induction 1 as [|y l Hl IH Hy]; simpl.
  - repeat constructor.
  - unfold key_leb at 1. destruct (Z.leb_spec (f x) (f y)) as [Hxy|Hxy].
    + constructor; [by constructor|]. constructor; [done|].
      eapply Forall_impl; [exact Hy|]. simpl. intros; lia.
    + constructor; [done|].
      rewrite insert_by_perm. constructor; [lia|done].
Qed.

Lemma sorted_by_key_sorted l :
  StronglySorted (λ a b, f a ≤ f b) (sorted_by (key_leb f) l).
Proof.
  induction l as [|x l IH]; simpl; [constructor|]. by apply insert_by_key_sorted.
Qed.

(** The sort is stable: the elements of one key keep their order. *)
Lemma filter_insert_by_key (j : Z) x l :
  filter (λ a, f a = j) (insert_by (key_leb f) x l) = filter (λ a, f a = j) (x :: l).
Proof.
  induction l as [|y l IH]; simpl; [done|].
  unfold key_leb at 1. destruct (Z.leb_spec (f x) (f y)) as [Hxy|Hxy]; [done|].
  rewrite (filter_cons _ y), IH, !(filter_cons _ x), (filter_cons _ y).
  destruct (decide (f x = j)), (decide (f y = j)); try done. lia.
Qed.

Lemma filter_sorted_by_key (j : Z) l :
  filter (λ a, f a = j) (sorted_by (key_leb f) l) = filter (λ a, f a = j) l.
Proof.
  induction l as [|x l IH]; simpl; [done|].
  rewrite filter_insert_by_key, !filter_cons, IH. done.
Qed.
End sort_by_key.

Section groups.
Context (f : Z → Z).
Implicit Types (l g : list Z) (x y : Z).

(** The groups of a list that is sorted by its key are the classes of
    the key, each with the elements in the order of the list. *)
Lemma groupby_key_sorted l :
  StronglySorted (λ a b, f a ≤ f b) l →
  NoDup ((λ g, f (hd 0 g)) <$> groupby (key_eqb f) l)
  ∧ ∀ g, g ∈ groupby (key_eqb f) l → g ≠ [] ∧ g = filter (λ a, f a = f (hd 0 g)) l.
Proof.
  induction 1 as [|x l Hl IH Hx]; simpl.
  { split; [constructor|]. by intros g ?%elem_of_nil. }
  destruct IH as [IHnd IH].
  assert (Hcat := concat_groupby (key_eqb f) l).
  assert (Hne := groupby_nonempty (key_eqb f) l).
  destruct (groupby (key_eqb f) l) as [|[|y g0] gs] eqn:Hg.
  - simpl in Hcat. subst l. split; [repeat constructor; by intros ?%elem_of_nil|].
    intros g ->%list_elem_of_singleton. split; [done|].
    simpl. by rewrite filter_cons, decide_True.
  - by inversion Hne.
  - assert (Hy : y ∈ l) by (rewrite <- Hcat; simpl; left).
    assert (Hxy : f x ≤ f y) by (by eapply Forall_forall in Hx).
    assert (Hmin : ∀ z, z ∈ l → f y ≤ f z).
    { intros z Hz. rewrite <- Hcat in Hl, Hz. simpl in Hl, Hz.
      apply StronglySorted_cons in Hl as [Hl _].
      apply elem_of_cons in Hz as [->|Hz]; [lia|]. by eapply Forall_forall in Hl. }
    assert (Hfilter_lt : ∀ j, j < f y → filter (λ a, f a = j) l = []).
    { intros j Hj. apply filter_none. intros z Hz%Hmin. lia. }
    destruct (key_eqb f x y) eqn:Hkxy; unfold key_eqb in Hkxy;
      [apply Z.eqb_eq in Hkxy as Heq|apply Z.eqb_neq in Hkxy as Hneq].
    + split.
      * simpl in *. by rewrite Heq.
      * intros g [->|Hin]%elem_of_cons.
        -- split; [done|]. simpl. rewrite filter_cons, decide_True by done.
           destruct (IH (y :: g0)) as [_ IHy]; [left|]. simpl in IHy.
           rewrite Heq, <- IHy. done.
        -- destruct (IH g) as [Hgne IHg]; [by right|]. split; [done|].
           rewrite filter_cons, decide_False; [done|].
           simpl in IHnd. apply NoDup_cons in IHnd as [Hnotin _].
           intros Hk. apply Hnotin. rewrite <- Heq, Hk.
           by apply (list_elem_of_fmap_2 (λ g, f (hd 0 g))).
    + assert (f x < f y) as Hlt by lia. split.
      * simpl. constructor; [|done].
        intros Hin. apply elem_of_cons in Hin as [Hxy'|Hin]; [simpl in Hxy'; lia|].
        apply list_elem_of_fmap in Hin as (g & Hk & Hin).
        assert (hd 0 g ∈ l) as Hhd.
        { destruct (IH g) as [Hgne Hg']; [by right|]. destruct g as [|z g]; [done|]. simpl.
          assert (z ∈ z :: g) as Hz by left. rewrite Hg' in Hz.
          by apply list_elem_of_filter in Hz as [_ ?]. }
        apply Hmin in Hhd. simpl in Hk. lia.
      * intros g [->|Hin]%elem_of_cons.
        -- split; [done|]. simpl. rewrite filter_cons, decide_True by done.
           by rewrite Hfilter_lt.
        -- destruct (IH g) as [Hgne IHg]; [done|]. split; [done|].
           rewrite filter_cons, decide_False; [done|].
           assert (hd 0 g ∈ l) as Hhd.
           { destruct g as [|z g]; [done|]. simpl.
             assert (z ∈ z :: g) as Hz by left. rewrite IHg in Hz.
             by apply list_elem_of_filter in Hz as [_ ?]. }
           apply Hmin in Hhd. lia.
Qed.
End groups.

(** ** Priority classes *)

Lemma filter_ext_in {A} (P Q : A → Prop) `{∀ x, Decision (P x)} `{∀ x, Decision (Q x)}
    (l : list A) :
  (∀ x, x ∈ l → P x ↔ Q x) → filter P l = filter Q l.
Proof.
  induction l as [|x l IH]; intros Hl; [done|].
  rewrite !filter_cons, IH by (intros y Hy; apply Hl; by right).
  assert (P x ↔ Q x) as Hx by (apply Hl; left).
  destruct (decide (P x)), (decide (Q x)); tauto.
Qed.

Lemma elem_of_concat {A} (x : A) (ls : list (list A)) :
  x ∈ concat ls ↔ ∃ l, x ∈ l ∧ l ∈ ls.
Proof.
  induction ls as [|l ls IH]; simpl.
  - split; [by intros ?%elem_of_nil|]. by intros (l & _ & ?%elem_of_nil).
  - rewrite elem_of_app, IH. split.
    + intros [Hx|(l' & Hx & Hl')]; [exists l; split; [done|left]|].
      exists l'. split; [done|by right].
    + intros (l' & Hx & [->|Hl']%elem_of_cons); [by left|]. right. eauto.
Qed.

Lemma StronglySorted_filter {A} (R : relation A) (P : A → Prop)
    `{∀ x, Decision (P x)} (l : list A) :
  StronglySorted R l → StronglySorted R (filter P l).
Proof.
  induction 1 as [|x l Hl IH Hx]; [constructor|].
  rewrite filter_cons. destruct (decide (P x)); [|done].
  constructor; [done|].
  apply Forall_forall. intros y [_ Hy]%list_elem_of_filter.
  by eapply Forall_forall in Hx.
Qed.

Lemma last_sorted_max (l : list Z) (k : Z) :
  StronglySorted Z.le l → last l = Some k → k ∈ l ∧ ∀ k', k' ∈ l → k' ≤ k.
Proof.
  intros Hl Hk. apply last_Some in Hk as [l' ->].
  split; [apply elem_of_app; right; left|].
  intros k' [Hk'|Hk']%elem_of_app.
  - eapply (StronglySorted_app_1_elem_of Z.le); [done..|left].
  - apply list_elem_of_singleton in Hk'. lia.
Qed.

Section classes.
Implicit Types (pri : gmap Z Z) (c cla : list Z) (j idx k : Z).

Lemma elements_Z_sorted (s : gset Z) : StronglySorted Z.le (elements_Z s).
Proof. apply (sorted_by_key_sorted (λ x : Z, x)). Qed.

Lemma elem_of_class_of pri j k : k ∈ class_of pri j ↔ pri !! k = Some j.
Proof.
  unfold class_of. rewrite list_elem_of_filter, elem_of_elements_Z, elem_of_dom.
  naive_solver.
Qed.

Lemma NoDup_class_of pri j : NoDup (class_of pri j).
Proof. apply NoDup_filter, NoDup_elements_Z. Qed.

Lemma class_of_sorted pri j : StronglySorted Z.le (class_of pri j).
Proof. apply StronglySorted_filter, elements_Z_sorted. Qed.

Lemma class_of_by_pri_of pri j :
  filter (λ k, pri_of pri k = j) (elements_Z (dom pri)) = class_of pri j.
Proof.
  unfold class_of. apply filter_ext_in.
  intros k [v Hk]%elem_of_elements_Z%elem_of_dom. unfold pri_of. rewrite Hk. simpl.
  naive_solver.
Qed.

(** The classes of a priority dictionary, by ascending priority. *)
Lemma sorted_classes_spec pri :
  NoDup ((λ c, pri_of pri (hd 0 c)) <$> sorted_classes_from_priority_dict pri)
  ∧ ∀ c, c ∈ sorted_classes_from_priority_dict pri →
         c ≠ [] ∧ c = class_of pri (pri_of pri (hd 0 c)).
Proof.
  destruct (groupby_key_sorted (pri_of pri) (keys_by_priority pri)) as [Hnd Hg].
  { apply (sorted_by_key_sorted (pri_of pri)). }
  split; [exact Hnd|].
  intros c Hc. destruct (Hg c Hc) as [Hne Heq]. split; [done|].
  rewrite Heq at 1. unfold keys_by_priority.
  rewrite (filter_sorted_by_key (pri_of pri)). apply class_of_by_pri_of.
Qed.

Lemma class_dict_lookup pri j c :
  class_dict_from_priority_dict pri !! j = Some c ↔ c = class_of pri j ∧ c ≠ [].
Proof.
  destruct (sorted_classes_spec pri) as [Hnd Hcs].
  unfold class_dict_from_priority_dict.
  rewrite <- elem_of_list_to_map by (by rewrite <- list_fmap_compose).
  rewrite list_elem_of_fmap. split.
  - intros (c' & Heq' & Hc). injection Heq' as -> ->.
    destruct (Hcs _ Hc) as [Hne Heq]. done.
  - intros [-> Hne]. 
    destruct (class_of pri j) as [|k c'] eqn:Hcj; [done|].
    assert (pri !! k = Some j) as Hk by (apply elem_of_class_of; rewrite Hcj; left).
    assert (k ∈ concat (sorted_classes_from_priority_dict pri)) as Hin.
    { unfold sorted_classes_from_priority_dict. rewrite concat_groupby.
      unfold keys_by_priority. rewrite elem_of_sorted_by, elem_of_elements_Z.
      apply elem_of_dom. eauto. }
    apply elem_of_concat in Hin as (c & Hkc & Hc).
    destruct (Hcs _ Hc) as [Hne' Heq].
    rewrite Heq in Hkc. apply elem_of_class_of in Hkc.
    assert (pri_of pri (hd 0 c) = j) as Hj by congruence.
    exists c. split; [|done]. rewrite Hj. f_equal. rewrite Heq, Hj. done.
Qed.

Lemma sorted_items_reverse_sorted (d : gmap Z (list Z)) :
  StronglySorted (λ a b : Z * list Z, b.1 ≤ a.1) (sorted_items_reverse d).
Proof.
  apply sorted_by_sorted.
  - intros x y. apply Z.leb_le.
  - intros x y Hxy%Z.leb_gt. lia.
  - intros x y z ??. lia.
Qed.

Lemma elem_of_classes_to_refine pri j c :
  (j, c) ∈ classes_to_refine pri ↔ c = class_of pri j ∧ (1 < length c)%nat.
Proof.
  unfold classes_to_refine, sorted_items_reverse, dict_.filter_by_value.
  rewrite elem_of_sorted_by, elem_of_map_to_list, map_lookup_filter_Some.
  rewrite class_dict_lookup, bool_decide_eq_true. simpl.
  split; [naive_solver|]. intros [-> Hlen]. split; [|done]. split; [done|].
  destruct (class_of pri j); simpl in *; [lia|done].
Qed.

Lemma NoDup_classes_to_refine pri : NoDup (classes_to_refine pri).*1.
Proof.
  unfold classes_to_refine, sorted_items_reverse.
  rewrite sorted_by_perm. apply NoDup_fst_map_to_list.
Qed.

(** The loops take the tied class of largest index first. *)
Lemma classes_to_refine_head pri idx cla rest :
  classes_to_refine pri = (idx, cla) :: rest →
  cla = class_of pri idx ∧ (1 < length cla)%nat
  ∧ ∀ j, (1 < length (class_of pri j))%nat → j ≤ idx.
Proof.
  intros Heq.
  assert ((idx, cla) ∈ classes_to_refine pri) as Hin by (rewrite Heq; left).
  apply elem_of_classes_to_refine in Hin as [-> Hlen]. split; [done|]. split; [done|].
  intros j Hj.
  assert ((j, class_of pri j) ∈ classes_to_refine pri) as Hin
    by (by apply elem_of_classes_to_refine).
  assert (Hs := sorted_items_reverse_sorted
    (dict_.filter_by_value (class_dict_from_priority_dict pri)
       (λ v, bool_decide (1 < length v)%nat))).
  fold (classes_to_refine pri) in Hs. rewrite Heq in Hs, Hin.
  apply StronglySorted_cons in Hs as [Hall _].
  apply elem_of_cons in Hin as [Hin|Hin]; [injection Hin as -> _; lia|].
  eapply Forall_forall in Hall; [|exact Hin]. exact Hall.
Qed.

(** When no class is tied the priorities are injective. *)
Lemma classes_to_refine_nil pri :
  classes_to_refine pri = [] →
  ∀ k k' p, pri !! k = Some p → pri !! k' = Some p → k = k'.
Proof.
  intros Heq k k' p Hk Hk'.
  destruct (decide (1 < length (class_of pri p))%nat) as [Hlen|Hlen].
  { assert ((p, class_of pri p) ∈ classes_to_refine pri) as Hin
      by (by apply elem_of_classes_to_refine).
    rewrite Heq in Hin. by apply elem_of_nil in Hin. }
  apply elem_of_class_of in Hk, Hk'.
  destruct (class_of pri p) as [|a [|b c]]; simpl in Hlen; [|..|lia].
  - by apply elem_of_nil in Hk.
  - apply list_elem_of_singleton in Hk, Hk'. congruence.
Qed.

End classes.

(** ** Sums and bounds of priorities *)

Section priority_bounds.
Implicit Types (pri : gmap Z Z) (k p idx : Z).

Lemma pri_sum_empty : pri_sum ∅ = 0.
Proof. apply map_fold_empty. Qed.

Lemma pri_sum_insert pri k p :
  pri !! k = None → pri_sum (<[k := p]> pri) = p + pri_sum pri.
Proof. intros Hk. unfold pri_sum. rewrite map_fold_insert_L; [done| |done]. intros; lia. Qed.

Lemma pri_sum_delete pri k p :
  pri !! k = Some p → pri_sum pri = p + pri_sum (delete k pri).
Proof.
  intros Hk. rewrite <- (insert_delete_id pri k p) at 1 by done.
  apply pri_sum_insert, lookup_delete_eq.
Qed.

Lemma pri_max_empty : pri_max ∅ = 0.
Proof. apply map_fold_empty. Qed.

Lemma pri_max_insert pri k p :
  pri !! k = None → pri_max (<[k := p]> pri) = Z.max p (pri_max pri).
Proof. intros Hk. unfold pri_max. rewrite map_fold_insert_L; [done| |done]. intros; lia. Qed.

Lemma pri_max_nonneg pri : 0 ≤ pri_max pri.
Proof.
  induction pri as [|k p pri Hk IH] using map_ind; [by rewrite pri_max_empty|].
  rewrite pri_max_insert by done. lia.
Qed.

Lemma pri_max_ge pri k p : pri !! k = Some p → p ≤ pri_max pri.
Proof.
  induction pri as [|k' p' pri Hk' IH] using map_ind; [by rewrite lookup_empty|].
  rewrite pri_max_insert by done. intros [[-> ->]|[_ Hk]]%lookup_insert_Some; [lia|].
  specialize (IH Hk). lia.
Qed.

Lemma pri_sum_le_size pri M :
  (∀ k p, pri !! k = Some p → p ≤ M) → pri_sum pri ≤ Z.of_nat (size pri) * M.
Proof.
  induction pri as [|k p pri Hk IH] using map_ind; intros HM.
  { rewrite pri_sum_empty, map_size_empty. lia. }
  rewrite pri_sum_insert, map_size_insert_None by done.
  assert (p ≤ M) by (apply (HM k); by rewrite lookup_insert_eq).
  assert (pri_sum pri ≤ Z.of_nat (size pri) * M).
  { apply IH. intros k' p' Hk''. apply (HM k'). rewrite lookup_insert_ne; [done|].
    intros ->. congruence. }
  lia.
Qed.

Lemma raises_priorities_refl pri : raises_priorities pri pri.
Proof. split; [done|]. intros k p p' ??. assert (p = p') by congruence. lia. Qed.

Lemma raises_priorities_trans pri1 pri2 pri3 :
  raises_priorities pri1 pri2 → raises_priorities pri2 pri3 → raises_priorities pri1 pri3.
Proof.
  intros [Hd1 H1] [Hd2 H2]. split; [congruence|].
  intros k p p3 Hk Hk3.
  assert (is_Some (pri2 !! k)) as [p2 Hk2].
  { apply elem_of_dom. rewrite Hd1. apply elem_of_dom. eauto. }
  specialize (H1 _ _ _ Hk Hk2). specialize (H2 _ _ _ Hk2 Hk3). lia.
Qed.

Lemma raises_priorities_sum pri pri' :
  raises_priorities pri pri' → pri_sum pri ≤ pri_sum pri'.
Proof.
  revert pri'. induction pri as [|k p pri Hk IH] using map_ind; intros pri' [Hdom Hle].
  { rewrite dom_empty_L in Hdom. apply dom_empty_inv_L in Hdom as ->. done. }
  assert (is_Some (pri' !! k)) as [p' Hk'].
  { apply elem_of_dom. rewrite Hdom. apply elem_of_dom. rewrite lookup_insert_eq. eauto. }
  rewrite pri_sum_insert by done. rewrite (pri_sum_delete pri' k p') by done.
  assert (p ≤ p') by (apply (Hle k); [by rewrite lookup_insert_eq|done]).
  assert (pri_sum pri ≤ pri_sum (delete k pri')); [|lia].
  apply IH. split.
  - rewrite dom_delete_L, Hdom, dom_insert_L.
    assert (k ∉ dom pri) by (by apply not_elem_of_dom). set_solver.
  - intros k0 p0 p0' Hk0 Hk0'. apply lookup_delete_Some in Hk0' as [Hne Hk0'].
    apply (Hle k0); [|done]. by rewrite lookup_insert_ne.
Qed.

Lemma raises_priorities_sum_lt pri pri' k p p' :
  raises_priorities pri pri' → pri !! k = Some p → pri' !! k = Some p' → p < p' →
  pri_sum pri + (p' - p) ≤ pri_sum pri'.
Proof.
  intros [Hdom Hle] Hk Hk' Hlt.
  rewrite (pri_sum_delete pri k p), (pri_sum_delete pri' k p') by done.
  assert (pri_sum (delete k pri) ≤ pri_sum (delete k pri')); [|lia].
  apply raises_priorities_sum. split.
  - by rewrite !dom_delete_L, Hdom.
  - intros k0 p0 p0' [Hne Hk0]%lookup_delete_Some [_ Hk0']%lookup_delete_Some.
    by apply (Hle k0).
Qed.

Lemma elem_of_below pri p k : k ∈ below pri p ↔ ∃ q, pri !! k = Some q ∧ q < p.
Proof.
  unfold below. rewrite elem_of_dom. unfold is_Some.
  setoid_rewrite map_lookup_filter_Some. simpl. naive_solver.
Qed.

Lemma bounded_by_max pri : bounded_by (pri_max pri) pri.
Proof. intros k p Hk%pri_max_ge. lia. Qed.

Lemma bounded_by_le pri P0 k p :
  bounded_by P0 pri → pri !! k = Some p → p ≤ P0 + Z.of_nat (size pri) - 1.
Proof.
  intros HB Hk. specialize (HB _ _ Hk).
  assert (below pri p ⊆ dom pri ∖ {[k]}) as Hsub.
  { intros k' (q & Hk' & Hq)%elem_of_below. apply elem_of_difference. split.
    - apply elem_of_dom. eauto.
    - intros ->%elem_of_singleton. assert (p = q) by congruence. lia. }
  apply subseteq_size in Hsub.
  rewrite size_difference in Hsub.
  2:{ apply singleton_subseteq_l, elem_of_dom. eauto. }
  rewrite size_singleton, size_dom in Hsub.
  assert (size pri ≠ 0%nat).
  { intros Hz. apply map_size_empty_iff in Hz. subst pri. by rewrite lookup_empty in Hk. }
  lia.
Qed.

Lemma bounded_by_sum pri P0 :
  bounded_by P0 pri →
  pri_sum pri ≤ Z.of_nat (size pri) * (P0 + Z.of_nat (size pri) - 1).
Proof. intros HB. apply pri_sum_le_size. intros k p Hk. by eapply bounded_by_le. Qed.

(** Raising the priorities of keys of one priority [idx] keeps the
    bound, when each new priority exceeds [idx] by no more than the
    number of the keys that end up below it. *)
Lemma bounded_by_raise P0 pri pri' idx (C : gset Z) :
  bounded_by P0 pri →
  dom pri' = dom pri →
  (∀ k, k ∈ C → pri !! k = Some idx) →
  (∀ k, k ∉ C → pri' !! k = pri !! k) →
  (∀ k, k ∈ C → ∃ p' (X : gset Z),
      pri' !! k = Some p' ∧ idx ≤ p' ∧ X ⊆ C
      ∧ (∀ k', k' ∈ X → ∃ q', pri' !! k' = Some q' ∧ q' < p')
      ∧ p' ≤ idx + Z.of_nat (size X)) →
  bounded_by P0 pri'.
Proof.
  intros HB Hdom HC Hout Hrank.
  assert (Hlow : ∀ k q, pri !! k = Some q → q < idx → pri' !! k = Some q).
  { intros k q Hk Hq. rewrite Hout; [done|]. intros Hin%HC. 
    assert (q = idx) by congruence. lia. }
  (* the count at a threshold that some raised key reaches *)
  assert (Hreach : ∀ ks (X : gset Z) t,
    ks ∈ C → X ⊆ C →
    (∀ k', k' ∈ X → ∃ q', pri' !! k' = Some q' ∧ q' < t) →
    idx ≤ t →
    idx + Z.of_nat (size X) ≤ P0 + Z.of_nat (size (below pri' t))).
  { intros ks X t Hks HX HXlt Ht.
    assert (below pri idx ∪ X ⊆ below pri' t) as Hsub.
    { intros k' [(q & Hk' & Hq)%elem_of_below|Hk']%elem_of_union.
      - apply elem_of_below. exists q. split; [by apply Hlow|lia].
      - apply elem_of_below. by apply HXlt. }
    apply subseteq_size in Hsub. rewrite size_union in Hsub.
    2:{ intros k' (q & Hk' & Hq)%elem_of_below Hin%HX%HC.
        assert (q = idx) by congruence. lia. }
    specialize (HB _ _ (HC _ Hks)). lia. }
  intros k p' Hk'.
  destruct (decide (k ∈ C)) as [Hin|Hnin].
  { destruct (Hrank _ Hin) as (p'' & X & Hk'' & Hle & HX & HXlt & Hsz).
    assert (p'' = p') as -> by congruence.
    specialize (Hreach k X p' Hin HX HXlt Hle). lia. }
  assert (pri !! k = Some p') as Hk by (by rewrite <- Hout).
  specialize (HB _ _ Hk) as HBk.
  set (S := filter (λ k', p' ≤ pri_of pri' k') C).
  destruct (decide (S = ∅)) as [Hemp|Hne].
  - (* every raised key stays below [p'] *)
    assert (below pri p' ⊆ below pri' p') as Hsub.
    { intros k' (q & Hk0 & Hq)%elem_of_below. apply elem_of_below.
      destruct (decide (k' ∈ C)) as [Hin'|Hnin'].
      - destruct (Hrank _ Hin') as (q' & _ & Hq' & _). exists q'. split; [done|].
        destruct (decide (q' < p')) as [|Hge]; [done|]. exfalso.
        assert (k' ∈ S); [|set_solver].
        apply elem_of_filter. split; [|done]. unfold pri_of. rewrite Hq'. simpl. lia.
      - exists q. split; [|done]. by rewrite Hout. }
    apply subseteq_size in Hsub. lia.
  - destruct (decide (p' ≤ idx)) as [Hle|Hgt].
    + assert (below pri p' ⊆ below pri' p') as Hsub.
      { intros k' (q & Hk0 & Hq)%elem_of_below. apply elem_of_below.
        exists q. split; [|done]. apply Hlow; [done|lia]. }
      apply subseteq_size in Hsub. lia.
    + set (R := λ a b : Z, pri_of pri' a ≤ pri_of pri' b).
      assert (Transitive R) as Htr by (unfold R; intros a b c ??; lia).
      assert (∀ a b, Decision (R a b)) as Hdec by (intros a b; unfold R; apply _).
      apply (minimal_exists_elem_of_L R) in Hne
        as (ks & [Hks HksC]%elem_of_filter & Hmin).
      unfold R in Hmin.
      destruct (Hrank _ HksC) as (ps & X & Hps & Hle & HX & HXlt & Hsz).
      unfold pri_of in Hks. rewrite Hps in Hks. simpl in Hks.
      assert (idx + Z.of_nat (size X) ≤ P0 + Z.of_nat (size (below pri' p'))); [|lia].
      apply (Hreach ks); [done..| |lia].
      intros k' Hk0. destruct (HXlt _ Hk0) as (q' & Hq' & Hlt). exists q'. split; [done|].
      destruct (decide (q' < p')) as [|Hge]; [done|]. exfalso.
      assert (k' ∈ S) as HkS.
      { apply elem_of_filter. split; [|by apply HX]. unfold pri_of. rewrite Hq'. simpl. lia. }
      specialize (Hmin k' HkS). unfold pri_of in Hmin. rewrite Hq', Hps in Hmin. simpl in Hmin.
      lia.
Qed.
End priority_bounds.

(** ** The new indices of the parts of a class *)

Section parts.
Implicit Types (pri : gmap Z Z) (cd : gmap Z (list Z)) (parts : list (list Z))
  (ips : list (Z * list Z)) (part p : list Z) (j k ni : Z).

Lemma foldl_assign_part parts pri cd (ids : list Z) ni :
  foldl Canon.assign_part (pri, cd, ids, ni) parts
  = (assign_priorities pri (part_indices ni parts),
     assign_classes cd (part_indices ni parts),
     ids ++ (part_indices ni parts).*1,
     ni + Z.of_nat (length (concat parts))).
Proof.
  revert pri cd ids ni. induction parts as [|part parts IH]; intros pri cd ids ni; simpl.
  { rewrite app_nil_r. do 3 f_equal. lia. }
  rewrite IH, length_app, <- app_assoc. unfold assign_priorities, assign_classes. simpl.
  f_equal. lia.
Qed.

Lemma part_indices_snd ni parts : (part_indices ni parts).*2 = parts.
Proof. revert ni. induction parts as [|p parts IH]; intros ni; simpl; [done|]. by rewrite IH. Qed.

Lemma length_part_indices ni parts : length (part_indices ni parts) = length parts.
Proof. by rewrite <- (part_indices_snd ni parts) at 2; rewrite length_fmap. Qed.

Lemma elem_of_part_indices ni parts j p :
  (j, p) ∈ part_indices ni parts →
  p ∈ parts ∧ ni ≤ j ∧ j + Z.of_nat (length p) ≤ ni + Z.of_nat (length (concat parts)).
Proof.
  revert ni. induction parts as [|p0 parts IH]; intros ni; simpl.
  { by intros ?%elem_of_nil. }
  rewrite length_app. intros [Heq|Hin]%elem_of_cons.
  - injection Heq as -> ->. split; [left|lia].
  - destruct (IH _ Hin) as (? & ? & ?). split; [by right|lia].
Qed.

(** The members of the parts before a part are as many as its index
    exceeds the first. *)
Lemma part_indices_rank ni parts j p :
  NoDup (concat parts) → Forall (λ p, p ≠ []) parts →
  (j, p) ∈ part_indices ni parts →
  ∃ X : list Z, NoDup X ∧ j = ni + Z.of_nat (length X)
    ∧ ∀ k, k ∈ X → k ∈ concat parts ∧ ∃ j' p', (j', p') ∈ part_indices ni parts ∧ k ∈ p' ∧ j' < j.
Proof.
  revert ni. induction parts as [|p0 parts IH]; intros ni Hnd Hne; simpl.
  { by intros ?%elem_of_nil. }
  simpl in Hnd. apply NoDup_app in Hnd as (Hnd0 & Hdisj & Hnd).
  apply Forall_cons in Hne as [Hne0 Hne].
  intros [Heq|Hin]%elem_of_cons.
  - injection Heq as -> ->. exists []. split; [constructor|]. split; [simpl; lia|].
    by intros k ?%elem_of_nil.
  - destruct (IH _ Hnd Hne Hin) as (X & HX & Hj & HXin).
    exists (p0 ++ X). split; [|split].
    + apply NoDup_app. split; [done|]. split; [|done].
      intros k Hk0 HkX. apply (Hdisj k Hk0). by apply HXin.
    + rewrite length_app. lia.
    + intros k [Hk|Hk]%elem_of_app.
      * split; [apply elem_of_app; by left|]. exists ni, p0. split; [left|]. split; [done|].
        destruct p0; [done|]. simpl in Hj. lia.
      * destruct (HXin _ Hk) as (Hkc & j' & p' & Hin' & Hkp' & Hlt).
        split; [apply elem_of_app; by right|]. exists j', p'. split; [by right|done].
Qed.

Lemma part_indices_NoDup ni parts :
  Forall (λ p, p ≠ []) parts → NoDup (part_indices ni parts).*1.
Proof.
  revert ni. induction parts as [|p0 parts IH]; intros ni Hne; simpl; [constructor|].
  apply Forall_cons in Hne as [Hne0 Hne]. constructor; [|by apply IH].
  intros Hin. apply list_elem_of_fmap in Hin as ([j p] & Hj & Hin). simpl in Hj. subst j.
  apply elem_of_part_indices in Hin as (_ & Hle & _). destruct p0; [done|]. simpl in Hle. lia.
Qed.

Lemma assign_priorities_notin pri ips k :
  k ∉ concat ips.*2 → assign_priorities pri ips !! k = pri !! k.
Proof.
  revert pri. induction ips as [|[j p] ips IH]; intros pri Hk; [done|].
  simpl in Hk. rewrite not_elem_of_app in Hk. destruct Hk as [Hkp Hk].
  unfold assign_priorities. simpl. fold (assign_priorities
    (dict_.update pri (list_to_map ((λ k0, (k0, j)) <$> p))) ips).
  rewrite IH by done. unfold dict_.update.
  rewrite lookup_union_r; [done|].
  apply not_elem_of_list_to_map_1. rewrite <- list_fmap_compose.
  intros Hin. apply Hkp. apply list_elem_of_fmap in Hin as (k' & -> & Hin). done.
Qed.

Lemma assign_priorities_in pri ips j p k :
  NoDup (concat ips.*2) → (j, p) ∈ ips → k ∈ p → assign_priorities pri ips !! k = Some j.
Proof.
  revert pri. induction ips as [|[j0 p0] ips IH]; intros pri Hnd Hin Hk.
  { by apply elem_of_nil in Hin. }
  simpl in Hnd. apply NoDup_app in Hnd as (Hnd0 & Hdisj & Hnd).
  unfold assign_priorities. simpl. fold (assign_priorities
    (dict_.update pri (list_to_map ((λ k0, (k0, j0)) <$> p0))) ips).
  apply elem_of_cons in Hin as [Heq|Hin].
  - injection Heq as -> ->. rewrite assign_priorities_notin by (by apply Hdisj).
    unfold dict_.update. apply lookup_union_Some_l.
    apply elem_of_list_to_map_1'.
    + intros y Hy. apply list_elem_of_fmap in Hy as (k' & Heq & _). by injection Heq.
    + apply list_elem_of_fmap. exists k. done.
  - by apply IH.
Qed.

Lemma assign_classes_notin cd ips j :
  j ∉ ips.*1 → assign_classes cd ips !! j = cd !! j.
Proof.
  revert cd. induction ips as [|[j0 p0] ips IH]; intros cd Hj; [done|].
  simpl in Hj. apply not_elem_of_cons in Hj as [Hne Hj].
  unfold assign_classes. simpl. fold (assign_classes (<[j0 := p0]> cd) ips).
  rewrite IH by done. by rewrite lookup_insert_ne.
Qed.

Lemma assign_classes_in cd ips j p :
  NoDup ips.*1 → (j, p) ∈ ips → assign_classes cd ips !! j = Some p.
Proof.
  revert cd. induction ips as [|[j0 p0] ips IH]; intros cd Hnd Hin.
  { by apply elem_of_nil in Hin. }
  simpl in Hnd. apply NoDup_cons in Hnd as [Hnotin Hnd].
  unfold assign_classes. simpl. fold (assign_classes (<[j0 := p0]> cd) ips).
  apply elem_of_cons in Hin as [Heq|Hin].
  - injection Heq as -> ->. rewrite assign_classes_notin by done. by rewrite lookup_insert_eq.
  - by apply IH.
Qed.

Lemma assign_classes_lookup cd ips j c :
  NoDup ips.*1 → assign_classes cd ips !! j = Some c →
  (j, c) ∈ ips ∨ (j ∉ ips.*1 ∧ cd !! j = Some c).
Proof.
  intros Hnd Hj. destruct (decide (j ∈ ips.*1)) as [Hin|Hnin].
  - left. apply list_elem_of_fmap in Hin as ([j' p] & Heq & Hin). simpl in Heq. subst j'.
    rewrite (assign_classes_in _ _ _ _ Hnd Hin) in Hj. by injection Hj as <-.
  - right. split; [done|]. by rewrite assign_classes_notin in Hj.
Qed.
End parts.

(** ** The refiner returns *)

Lemma rmapM_total {A B} (f : A → res B) (l : list A) :
  (∀ x, x ∈ l → ∃ y, f x = Ok y) → ∃ ys, rmapM f l = Ok ys.
Proof.
  induction l as [|x l IH]; intros Hl; simpl; [by eexists|].
  destruct (Hl x) as [y Hy]; [left|]. rewrite Hy.
  destruct IH as [ys Hys]; [intros z Hz; apply Hl; by right|].
  unfold mbind, res_bind. rewrite Hys. by eexists.
Qed.

Lemma getitem_Ok {K V} `{Countable K} (d : gmap K V) (k : K) (v : V) :
  dict_.getitem d k = Ok v ↔ d !! k = Some v.
Proof. unfold dict_.getitem. destruct (d !! k); split; congruence. Qed.

Lemma getitem_total {K V} `{Countable K} (d : gmap K V) (k : K) :
  is_Some (d !! k) → ∃ v, dict_.getitem d k = Ok v.
Proof. intros [v Hv]. exists v. by apply getitem_Ok. Qed.

Lemma concat_fmap_fst {A B} (ls : list (list (A * B))) :
  concat ((λ l : list (A * B), l.*1) <$> ls) = (concat ls).*1.
Proof.
  induction ls as [|l ls IH]; [done|].
  rewrite fmap_cons. simpl. rewrite fmap_app. f_equal. exact IH.
Qed.

Lemma by_key_fill_id {V} (d : gmap Z V) (ks : gset Z) (v : V) :
  dom d = ks → dict_.by_key_fill d ks v = d.
Proof.
  intros Hd. unfold dict_.by_key_fill. rewrite map_filter_id.
  2:{ intros k x Hk. simpl. rewrite <- Hd. apply elem_of_dom. eauto. }
  apply map_eq. intros k. destruct (d !! k) as [x|] eqn:Hk.
  - by apply lookup_union_Some_l.
  - apply lookup_union_None. split; [done|]. apply lookup_gset_to_gmap_None.
    rewrite <- Hd. by apply not_elem_of_dom.
Qed.

Lemma dom_by_key_fill {V} (d : gmap Z V) (ks : gset Z) (v : V) :
  dom (dict_.by_key_fill d ks v) = ks.
Proof.
  unfold dict_.by_key_fill. rewrite dom_union_L, dom_gset_to_gmap.
  apply set_eq. intros k. rewrite elem_of_union, elem_of_dom. unfold is_Some.
  setoid_rewrite map_lookup_filter_Some. simpl. naive_solver.
Qed.

Section sort_values.
Context `{External}.
Implicit Types (g : graph) (pri : gmap Z Z) (k : Z).

Lemma wf_bonds_implicit g : wf_bonds (implicit g).
Proof.
  unfold implicit, remove_atoms. apply wf_bonds_subgraph. set_solver.
Qed.

Lemma neighbor_keys_within g k n :
  wf_bonds g → n ∈ neighbor_keys g k → n ∈ atom_keys g.
Proof.
  intros Hwf [Hb|Hb]%elem_of_neighbors_in; apply Hwf in Hb; simpl in Hb; tauto.
Qed.

Lemma bond_keys_without_pi_bonds g : bond_keys (without_pi_bonds g) = bond_keys g.
Proof. unfold bond_keys, without_pi_bonds. simpl. by rewrite dom_fmap_L. Qed.

Lemma sort_evaluator_total g pri k :
  atom_keys (implicit g) ⊆ dom pri → k ∈ atom_keys (implicit g) →
  ∃ v, sort_evaluator_atom_invariants_ g pri k = Ok v.
Proof.
  unfold sort_evaluator_atom_invariants_.
  generalize (wf_bonds_implicit g). generalize (implicit g). clear g.
  intros g Hwf Hdom Hk.
  assert (∃ a, atoms g !! k = Some a) as [a Ha] by (by apply elem_of_atom_keys).
  assert (∃ nidxs, rmapM (dict_.getitem pri)
            (elements_Z (neighbor_keys (without_pi_bonds g) k)) = Ok nidxs)
    as [nidxs Hn].
  { apply rmapM_total. intros n Hn%elem_of_elements_Z. apply getitem_total, elem_of_dom, Hdom.
    unfold neighbor_keys in Hn. rewrite bond_keys_without_pi_bonds in Hn.
    eapply neighbor_keys_within; [exact Hwf|exact Hn]. }
  unfold dict_.getitem, dict_.transform_values,
    atom_symbols, atom_implicit_hydrogens, mass_numbers, atom_stereo_parities,
    atoms_bond_keys, atoms_neighbor_atom_keys, dict_.transform_values, atom_symbols.
  simpl. repeat (progress (rewrite ?lookup_fmap, ?map_lookup_imap, ?lookup_fmap, ?Ha; simpl)).
  unfold dict_.getitem in Hn. rewrite Hn. simpl. by eexists.
Qed.

Lemma sort_and_partition_total g pri cla :
  atom_keys (implicit g) ⊆ dom pri → (∀ k, k ∈ cla → k ∈ atom_keys (implicit g)) →
  ∃ parts, sort_and_partition g pri cla = Ok parts.
Proof.
  intros Hdom Hcla. unfold sort_and_partition.
  destruct (rmapM_total (λ k, v ← sort_evaluator_atom_invariants_ g pri k; Ok (k, v)) cla)
    as [kvs Hkvs].
  { intros k Hk. destruct (sort_evaluator_total g pri k Hdom (Hcla k Hk)) as [v Hv].
    rewrite Hv. by eexists. }
  rewrite Hkvs. by eexists.
Qed.

Lemma sort_and_partition_spec g pri cla parts :
  sort_and_partition g pri cla = Ok parts →
  concat parts ≡ₚ cla ∧ Forall (λ p, p ≠ []) parts.
Proof.
  unfold sort_and_partition. intros (kvs & Hkvs & Heq)%bind_Ok. injection Heq as <-.
  apply rmapM_pair_fst in Hkvs as [Hfst _]. split.
  - rewrite concat_fmap_fst, concat_groupby, sorted_by_perm. by rewrite Hfst.
  - apply Forall_fmap. eapply Forall_impl; [apply groupby_nonempty|].
    intros [|x l]; simpl; done.
Qed.
End sort_values.

Lemma rmapM_Ok_elem_r {A B} (f : A → res B) (l : list A) (ys : list B) (y : B) :
  rmapM f l = Ok ys → y ∈ ys → ∃ x, x ∈ l ∧ f x = Ok y.
Proof.
  rewrite rmapM_Ok. intros HF Hy.
  destruct (proj1 (list_elem_of_lookup _ _) Hy) as [i Hi].
  destruct (Forall2_lookup_r _ _ _ _ _ HF Hi) as (x & Hx & Hfx).
  exists x. split; [|done]. by eapply list_elem_of_lookup_2.
Qed.

Section refine_folds.
Implicit Types (pri : gmap Z Z) (cd : gmap Z (list Z)) (ngb : gmap Z (gset Z))
  (rest : list (Z * list Z)) (acc r : gset Z) (js : list Z) (j i k : Z).

Lemma neighbor_classes_total ngb pri cd rest acc j :
  (∀ k ns n, ngb !! k = Some ns → n ∈ ns → is_Some (pri !! n)) →
  (∃ c, cd !! j = Some c ∧ ∀ k, k ∈ c → is_Some (ngb !! k)) →
  ∃ r, neighbor_classes ngb pri cd rest acc j = Ok r.
Proof.
  intros Hngb (c & Hc & Hcn). unfold neighbor_classes.
  rewrite (proj2 (getitem_Ok cd j c) Hc). simpl.
  destruct (rmapM_total (dict_.getitem ngb) c) as [nss Hnss].
  { intros k Hk. by apply getitem_total, Hcn. }
  rewrite Hnss. simpl.
  destruct (rmapM_total (dict_.getitem pri) (elements_Z (⋃ nss))) as [ps Hps].
  { intros n (ns & Hns & Hn)%elem_of_elements_Z%elem_of_union_list.
    apply getitem_total.
    destruct (rmapM_Ok_elem_r _ _ _ _ Hnss Hns) as (k & _ & Hk%getitem_Ok).
    by eapply Hngb. }
  rewrite Hps. simpl. by eexists.
Qed.

Lemma neighbor_classes_spec ngb pri cd rest acc j r :
  neighbor_classes ngb pri cd rest acc j = Ok r →
  ∀ i, i ∈ r → i ∉ rest.*1 ∧ (i ∈ acc ∨ ∃ k, pri !! k = Some i).
Proof.
  unfold neighbor_classes.
  intros (c & _ & (nss & _ & (ps & Hps & Heq)%bind_Ok)%bind_Ok)%bind_Ok.
  injection Heq as <-. intros i [Hi Hnot]%elem_of_difference.
  split; [by rewrite elem_of_list_to_set in Hnot|].
  apply elem_of_union in Hi as [Hi|Hi%elem_of_list_to_set]; [by left|right].
  destruct (rmapM_Ok_elem_r _ _ _ _ Hps Hi) as (k & _ & Hk%getitem_Ok). eauto.
Qed.

Lemma neighbor_classes_fold ngb pri cd rest acc js :
  (∀ k ns n, ngb !! k = Some ns → n ∈ ns → is_Some (pri !! n)) →
  (∀ j, j ∈ js → ∃ c, cd !! j = Some c ∧ ∀ k, k ∈ c → is_Some (ngb !! k)) →
  (∀ i, i ∈ acc → i ∉ rest.*1 ∧ ∃ k, pri !! k = Some i) →
  ∃ r, rfoldl (neighbor_classes ngb pri cd rest) acc js = Ok r
     ∧ ∀ i, i ∈ r → i ∉ rest.*1 ∧ ∃ k, pri !! k = Some i.
Proof.
  intros Hngb. revert acc. induction js as [|j js IH]; intros acc Hjs Hacc; simpl.
  { by eexists. }
  destruct (neighbor_classes_total ngb pri cd rest acc j Hngb) as [r Hr].
  { apply Hjs. left. }
  rewrite Hr. simpl. apply IH.
  - intros j' Hj'. apply Hjs. by right.
  - intros i Hi. destruct (neighbor_classes_spec _ _ _ _ _ _ _ Hr i Hi) as [Hnot [Hin|Hv]].
    + split; [done|]. by apply Hacc.
    + done.
Qed.

Lemma requeue_fold cd rest js :
  (∀ j, j ∈ js → is_Some (cd !! j)) →
  NoDup js → NoDup rest.*1 → (∀ j, j ∈ js → j ∉ rest.*1) →
  ∃ new_clas,
    rfoldl (λ new_clas ngb_idx,
              ngb_cla ← dict_.getitem cd ngb_idx;
              Ok (if bool_decide (1 < length ngb_cla)%nat
                  then (ngb_idx, ngb_cla) :: new_clas
                  else new_clas)) rest js = Ok new_clas
    ∧ NoDup new_clas.*1
    ∧ ∀ j c, (j, c) ∈ new_clas →
        (j, c) ∈ rest ∨ (j ∈ js ∧ cd !! j = Some c ∧ (1 < length c)%nat).
Proof.
  revert rest. induction js as [|j js IH]; intros rest Hcd Hnd Hrest Hdisj; simpl.
  { eexists. split; [done|]. split; [done|]. intros; by left. }
  destruct (Hcd j) as [c Hc]; [left|].
  rewrite (proj2 (getitem_Ok cd j c) Hc). simpl.
  apply NoDup_cons in Hnd as [Hj Hnd].
  assert (Hcd' : ∀ j', j' ∈ js → is_Some (cd !! j')) by (intros; apply Hcd; by right).
  case_bool_decide as Hlen.
  - destruct (IH ((j, c) :: rest)) as (nc & Hnc & Hndnc & Hin); [done|done| | |].
    + simpl. constructor; [|done]. apply Hdisj. left.
    + intros j' Hj'. simpl. apply not_elem_of_cons. split; [congruence|].
      apply Hdisj. by right.
    + exists nc. split; [done|]. split; [done|].
      intros j' c' Hjc. destruct (Hin _ _ Hjc) as [[Heq|Hr]%elem_of_cons|(? & ? & ?)].
      * injection Heq as -> ->. right. split; [left|done].
      * by left.
      * right. split; [by right|done].
  - destruct (IH rest) as (nc & Hnc & Hndnc & Hin); [done|done|done| |].
    + intros j' Hj'. apply Hdisj. by right.
    + exists nc. split; [done|]. split; [done|].
      intros j' c' Hjc. destruct (Hin _ _ Hjc) as [?|(? & ? & ?)]; [by left|].
      right. split; [by right|done].
Qed.
End refine_folds.

Section refine_step.
Context `{External}.
Context (g : graph).
Context (Hwf : wf_bonds g) (Himp : atom_keys (implicit g) = atom_keys g).
Implicit Types (pri : gmap Z Z) (cd : gmap Z (list Z)) (rest : list (Z * list Z))
  (cla : list Z) (idx j k : Z).

Lemma neighbor_dict_within pri k ns n :
  dom pri = atom_keys g →
  atoms_neighbor_atom_keys g !! k = Some ns → n ∈ ns → is_Some (pri !! n).
Proof.
  intros Hdom Hk Hn. unfold atoms_neighbor_atom_keys in Hk.
  rewrite map_lookup_imap in Hk. destruct (atoms g !! k); [|done].
  simpl in Hk. injection Hk as <-.
  apply elem_of_dom. rewrite Hdom. by eapply neighbor_keys_within.
Qed.

Lemma neighbor_dict_defined k :
  k ∈ atom_keys g → is_Some (atoms_neighbor_atom_keys g !! k).
Proof.
  intros [a Ha]%elem_of_atom_keys. unfold atoms_neighbor_atom_keys.
  rewrite map_lookup_imap, Ha. simpl. eauto.
Qed.

(** One pass of the loop of [refine_priorities] returns and keeps the
    invariant; it leaves the priorities alone and shortens the list of
    classes, or it raises the sum of the priorities. *)
Lemma refine_step_total pri cd idx cla rest :
  refine_inv (atom_keys g) (RefineState pri cd ((idx, cla) :: rest)) →
  ∃ st', refine_step g (atoms_neighbor_atom_keys g) pri cd idx cla rest = Ok st'
    ∧ refine_inv (atom_keys g) st'
    ∧ raises_priorities pri (rs_pri st')
    ∧ (∀ P, bounded_by P pri → bounded_by P (rs_pri st'))
    ∧ ((rs_pri st' = pri ∧ rs_new st' = rest) ∨ pri_sum pri + 1 ≤ pri_sum (rs_pri st')).
Proof.
  intros (Hdom & HQ & HndQ & HC & H5). simpl in *.
  destruct (HQ idx cla) as [[Hndcla Hcla] Hlen]; [left|].
  apply NoDup_cons in HndQ as [Hidx_rest HndQ].
  assert (Hcla_dom : ∀ k, k ∈ cla → k ∈ atom_keys g).
  { intros k Hk. rewrite <- Hdom. apply elem_of_dom. rewrite (Hcla k Hk). eauto. }
  destruct (sort_and_partition_total g pri cla) as [parts Hsp].
  { by rewrite Himp, Hdom. }
  { intros k Hk. rewrite Himp. by apply Hcla_dom. }
  destruct (sort_and_partition_spec _ _ _ _ Hsp) as [Hperm Hne].
  unfold refine_step. rewrite Hsp. simpl.
  case_bool_decide as Hparts.
  2:{ eexists. split; [done|]. simpl. split; [|split; [|split]].
      - split; [done|]. split; [|split; [done|split; done]].
        intros j c Hjc. apply HQ. by right.
      - apply raises_priorities_refl.
      - done.
      - by left. }
  rewrite foldl_assign_part. simpl.
  set (PI := part_indices idx parts).
  set (pri' := assign_priorities pri PI).
  set (cd' := assign_classes cd PI).
  assert (HPI2 : PI.*2 = parts) by apply part_indices_snd.
  assert (HndC : NoDup (concat parts)) by (by rewrite Hperm).
  assert (HndPI : NoDup PI.*1) by (by apply part_indices_NoDup).
  assert (F1 : ∀ k, k ∉ cla → pri' !! k = pri !! k).
  { intros k Hk. apply assign_priorities_notin. by rewrite HPI2, Hperm. }
  assert (F2 : ∀ j p k, (j, p) ∈ PI → k ∈ p → pri' !! k = Some j).
  { intros j p k Hjp Hk. eapply assign_priorities_in; [by rewrite HPI2|done..]. }
  assert (F2' : ∀ k, k ∈ cla → ∃ j p, (j, p) ∈ PI ∧ k ∈ p).
  { intros k Hk. rewrite <- Hperm in Hk. apply elem_of_concat in Hk as (p & Hk & Hp).
    rewrite <- HPI2 in Hp. apply list_elem_of_fmap in Hp as ([j p'] & -> & Hjp). eauto. }
  assert (F2c : ∀ j p k, (j, p) ∈ PI → k ∈ p → k ∈ cla).
  { intros j p k Hjp Hk. rewrite <- Hperm. apply elem_of_concat. exists p. split; [done|].
    rewrite <- HPI2. apply list_elem_of_fmap. by exists (j, p). }
  assert (Hdom' : dom pri' = dom pri).
  { apply set_eq. intros k. rewrite !elem_of_dom.
    destruct (decide (k ∈ cla)) as [Hk|Hk]; [|by rewrite F1].
    destruct (F2' k Hk) as (j & p & Hjp & Hkp).
    rewrite (F2 _ _ _ Hjp Hkp), (Hcla k Hk). split; eauto. }
  assert (Hidx : idx ∈ PI.*1).
  { unfold PI. destruct parts; simpl in *; [lia|left]. }
  assert (HC' : ∀ j c, cd' !! j = Some c → live pri' j c).
  { intros j c Hjc. apply assign_classes_lookup in Hjc as [Hjc|[Hj Hjc]]; [| |exact HndPI].
    - split.
      + apply elem_of_part_indices in Hjc as (Hc & _).
        assert (c `sublist_of` concat parts) as Hsub; [|exact (sublist_NoDup _ _ HndC Hsub)].
        clear -Hc. induction parts as [|p ps IH]; [by apply elem_of_nil in Hc|].
        simpl. apply elem_of_cons in Hc as [->|Hc].
        * by apply sublist_inserts_r.
        * apply sublist_inserts_l. by apply IH.
      + intros k Hk. by eapply F2.
    - destruct (HC j c Hjc) as [Hndc Hc]. split; [done|].
      intros k Hk. rewrite F1; [by apply Hc|].
      intros Hin. specialize (Hc k Hk). rewrite (Hcla k Hin) in Hc.
      injection Hc as <-. done. }
  assert (H5' : ∀ k p, pri' !! k = Some p → is_Some (cd' !! p)).
  { intros k p Hk. destruct (decide (p ∈ PI.*1)) as [Hp|Hp].
    - apply list_elem_of_fmap in Hp as ([j c] & -> & Hjc). simpl.
      unfold cd'. rewrite (assign_classes_in _ _ _ _ HndPI Hjc). eauto.
    - unfold cd'. rewrite assign_classes_notin by done.
      destruct (decide (k ∈ cla)) as [Hin|Hin].
      + destruct (F2' k Hin) as (j & c & Hjc & Hkc). rewrite (F2 _ _ _ Hjc Hkc) in Hk.
        injection Hk as <-. exfalso. apply Hp. apply list_elem_of_fmap. by exists (j, c).
      + rewrite F1 in Hk by done. by eapply H5. }
  assert (Hraise : raises_priorities pri pri').
  { split; [done|]. intros k p p' Hk Hk'.
    destruct (decide (k ∈ cla)) as [Hin|Hin].
    - destruct (F2' k Hin) as (j & c & Hjc & Hkc). rewrite (F2 _ _ _ Hjc Hkc) in Hk'.
      rewrite (Hcla k Hin) in Hk. injection Hk as <-. injection Hk' as <-.
      by apply elem_of_part_indices in Hjc as (_ & ? & _).
    - rewrite F1 in Hk' by done. assert (p = p') by congruence. lia. }
  assert (Hbound : ∀ P, bounded_by P pri → bounded_by P pri').
  { intros P HB. apply (bounded_by_raise P pri pri' idx (list_to_set cla)); [done..| | |].
    - intros k Hk%elem_of_list_to_set. by apply Hcla.
    - intros k Hk. apply F1. by rewrite elem_of_list_to_set in Hk.
    - intros k Hk%elem_of_list_to_set.
      destruct (F2' k Hk) as (j & c & Hjc & Hkc).
      destruct (part_indices_rank idx parts j c HndC Hne Hjc) as (X & HX & Hj & HXin).
      exists j, (list_to_set X). split; [by eapply F2|]. split.
      { by apply elem_of_part_indices in Hjc as (_ & ? & _). }
      split; [|split].
      + intros k' Hk'%elem_of_list_to_set. apply elem_of_list_to_set.
        rewrite <- Hperm. by apply HXin.
      + intros k' Hk'%elem_of_list_to_set.
        destruct (HXin k' Hk') as (_ & j' & c' & Hjc' & Hkc' & Hlt).
        exists j'. split; [by eapply F2|done].
      + rewrite size_list_to_set by done. lia. }
  assert (Hsum : pri_sum pri + 1 ≤ pri_sum pri').
  { destruct parts as [|p1 [|p2 ps]]; simpl in Hparts; [lia..|].
    apply Forall_cons in Hne as [Hne1 Hne]. apply Forall_cons in Hne as [Hne2 _].
    destruct p2 as [|k2 p2]; [done|].
    assert ((idx + Z.of_nat (length p1), k2 :: p2) ∈ PI) as Hjc.
    { unfold PI. simpl. right. left. }
    assert (k2 ∈ k2 :: p2) as Hk2 by left.
    assert (pri !! k2 = Some idx) as Hk by (apply Hcla; by eapply F2c).
    assert (0 < Z.of_nat (length p1)) by (destruct p1; [done|simpl; lia]).
    pose proof (raises_priorities_sum_lt pri pri' k2 idx (idx + Z.of_nat (length p1))
      Hraise Hk (F2 _ _ _ Hjc Hk2)). lia. }
  destruct (neighbor_classes_fold (atoms_neighbor_atom_keys g) pri' cd' rest ∅ PI.*1)
    as (r & Hr & Hrspec).
  { intros k ns n. apply neighbor_dict_within. by rewrite Hdom'. }
  { intros j Hj. apply list_elem_of_fmap in Hj as ([j' c] & -> & Hjc). simpl.
    exists c. split; [by apply assign_classes_in|].
    intros k Hk. apply neighbor_dict_defined, Hcla_dom. by eapply F2c. }
  { intros i Hi. by apply elem_of_empty in Hi. }
  rewrite Hr. simpl.
  destruct (requeue_fold cd' rest (elements_Z r)) as (nc & Hnc & Hndnc & Hncspec).
  { intros j Hj%elem_of_elements_Z. destruct (Hrspec j Hj) as [_ [k Hk]]. by eapply H5'. }
  { apply NoDup_elements_Z. }
  { done. }
  { intros j Hj%elem_of_elements_Z. by apply Hrspec. }
  rewrite Hnc. simpl. eexists. split; [done|]. simpl.
  split; [|split; [done|split; [done|by right]]].
  split; [exact (eq_trans Hdom' Hdom)|]. split; [|split; [done|split; done]].
  intros j c Hjc. destruct (Hncspec j c Hjc) as [Hrest|(Hj & Hcd & Hl)].
  - destruct (HQ j c) as [[Hndc Hc] Hl]; [by right|]. split; [|done]. split; [done|].
    intros k Hk. rewrite F1; [by apply Hc|].
    intros Hin. specialize (Hc k Hk). rewrite (Hcla k Hin) in Hc. injection Hc as <-.
    apply Hidx_rest. apply list_elem_of_fmap. by exists (idx, c).
  - split; [by apply HC'|done].
Qed.
End refine_step.

Lemma queue_length (pri : gmap Z Z) (q : list (Z * list Z)) :
  NoDup q.*1 → (∀ j c, (j, c) ∈ q → live pri j c ∧ (1 < length c)%nat) →
  (length q ≤ size pri)%nat.
Proof.
  intros Hnd Hq.
  rewrite <- (length_fmap fst q), <- (length_map_to_list pri),
    <- (length_fmap snd (map_to_list pri)).
  apply submseteq_length, NoDup_submseteq; [done|].
  intros j ([j' c] & -> & Hjc)%list_elem_of_fmap. simpl.
  destruct (Hq _ _ Hjc) as [[_ Hc] Hlen].
  destruct c as [|k c]; [simpl in Hlen; lia|].
  apply list_elem_of_fmap. exists (k, j'). split; [done|].
  apply elem_of_map_to_list, Hc. left.
Qed.

Section refine_loop.
Context `{External}.
Context (g : graph).
Context (Hwf : wf_bonds g) (Himp : atom_keys (implicit g) = atom_keys g).

Lemma refine_loop_total (fuel : nat) (st : refine_state) (P0 : Z) :
  refine_inv (atom_keys g) st →
  bounded_by P0 (rs_pri st) →
  (Z.of_nat (size (atom_keys g)) + 1)
    * (Z.of_nat (size (atom_keys g)) * (P0 + Z.of_nat (size (atom_keys g)) - 1)
       - pri_sum (rs_pri st))
    + Z.of_nat (length (rs_new st)) ≤ Z.of_nat fuel →
  ∃ pri', refine_loop fuel g (atoms_neighbor_atom_keys g) st = Ok pri'
    ∧ dom pri' = atom_keys g
    ∧ raises_priorities (rs_pri st) pri'
    ∧ ∀ P, bounded_by P (rs_pri st) → bounded_by P pri'.
Proof.
  set (n := Z.of_nat (size (atom_keys g))).
  revert st. induction fuel as [|fuel IH]; intros [pri cd q] Hinv HB Hfuel; simpl in *.
  - assert (Hsz : Z.of_nat (size pri) = n).
    { unfold n. destruct Hinv as [<- _]. simpl. by rewrite size_dom. }
    pose proof (bounded_by_sum pri P0 HB) as Hsum. rewrite Hsz in Hsum.
    destruct q as [|[idx cla] rest].
    + exists pri. destruct Hinv as [Hdom _]. split; [done|]. split; [done|].
      split; [apply raises_priorities_refl|done].
    + simpl in Hfuel. nia.
  - destruct q as [|[idx cla] rest].
    { exists pri. destruct Hinv as [Hdom _]. split; [done|]. split; [done|].
      split; [apply raises_priorities_refl|done]. }
    assert (Hsz : Z.of_nat (size pri) = n).
    { unfold n. destruct Hinv as [<- _]. simpl. by rewrite size_dom. }
    pose proof (bounded_by_sum pri P0 HB) as Hsum. rewrite Hsz in Hsum.
    destruct (refine_step_total g Hwf Himp pri cd idx cla rest Hinv)
      as (st' & Hst' & Hinv' & Hraise & Hbound & Hmeasure).
    rewrite Hst'. simpl.
    destruct (IH st' Hinv' (Hbound _ HB)) as (pri' & Hloop & Hdom' & Hraise' & Hbound').
    { destruct Hmeasure as [[-> ->]|Hlt].
      - simpl in Hfuel. lia.
      - assert (Z.of_nat (length (rs_new st')) ≤ n) as Hq.
        { destruct Hinv' as (Hd & HQ & Hnd & _).
          pose proof (queue_length (rs_pri st') (rs_new st') Hnd HQ) as Hl.
          unfold n. rewrite <- Hd, size_dom. lia. }
        simpl in Hfuel. nia. }
    exists pri'. split; [done|]. split; [done|]. split.
    + by eapply raises_priorities_trans.
    + intros P HP. by apply Hbound', Hbound.
Qed.
End refine_loop.

Section refine_priorities_total.
Context `{External}.

(** On a connected graph without dummy atoms whose backbone is stable,
    [refine_priorities] returns priorities of the backbone keys that
    are not below the given ones. *)
Lemma refine_priorities_total (g : graph) (pri : option (gmap Z Z)) :
  is_connected g = true → g = without_dummy_atoms g →
  atom_keys (implicit (implicit g)) = atom_keys (implicit g) →
  ∃ pri', refine_priorities g pri = Ok pri'
    ∧ dom pri' = atom_keys (implicit g)
    ∧ raises_priorities
        (dict_.by_key_fill (default ∅ pri) (atom_keys (implicit g)) 0) pri'
    ∧ ∀ P, bounded_by P (dict_.by_key_fill (default ∅ pri) (atom_keys (implicit g)) 0)
           → bounded_by P pri'.
Proof.
  intros Hconn Hdf Himp. unfold refine_priorities.
  rewrite Hconn, (bool_decide_eq_true_2 _ Hdf). simpl.
  set (pri0 := dict_.by_key_fill (default ∅ pri) (atom_keys (implicit g)) 0).
  assert (Hdom : dom pri0 = atom_keys (implicit g)) by apply dom_by_key_fill.
  assert (Hinv : refine_inv (atom_keys (implicit g))
            (RefineState pri0 (class_dict_from_priority_dict pri0) (classes_to_refine pri0))).
  { split; [done|]. simpl. split; [|split; [|split]].
    - intros j c [-> Hlen]%elem_of_classes_to_refine. split; [|done].
      split; [apply NoDup_class_of|]. intros k. apply elem_of_class_of.
    - apply NoDup_classes_to_refine.
    - intros j c [-> _]%class_dict_lookup.
      split; [apply NoDup_class_of|]. intros k. apply elem_of_class_of.
    - intros k p Hk. exists (class_of pri0 p). apply class_dict_lookup. split; [done|].
      apply elem_of_class_of in Hk. intros Hnil. rewrite Hnil in Hk. by apply elem_of_nil in Hk. }
  apply (refine_loop_total (implicit g) (wf_bonds_implicit g) Himp _ _ (pri_max pri0) Hinv).
  - apply bounded_by_max.
  - simpl. unfold refine_fuel, pri_slack.
    assert (Z.of_nat (length (classes_to_refine pri0)) ≤ Z.of_nat (size pri0)) as Hq.
    { destruct Hinv as (_ & HQ & Hnd & _). simpl in *.
      pose proof (queue_length pri0 _ Hnd HQ). lia. }
    rewrite <- Hdom, size_dom.
    pose proof (bounded_by_sum pri0 _ (bounded_by_max pri0)) as Hsum.
    set (n := Z.of_nat (size pri0)) in *. set (s := pri_sum pri0) in *.
    set (m := pri_max pri0) in *.
    assert (0 ≤ n) by (unfold n; lia).
    rewrite Z2Nat.id by nia. nia.
Qed.
End refine_priorities_total.

(** ** Breaking ties *)

Section break_ties.
Context `{External}.
Context (g : graph).
Context (Hconn : is_connected g = true) (Hdf : g = without_dummy_atoms g).
Context (Himp : atom_keys (implicit (implicit g)) = atom_keys (implicit g)).
Implicit Types (pri : gmap Z Z) (idx k : Z).

(** Giving the last member of a class of [s] keys the index
    [idx + s - 1] keeps the bound and raises the sum. *)
Lemma promote_last pri idx k P :
  (1 < length (class_of pri idx))%nat → k ∈ class_of pri idx →
  let pri1 := <[k := idx + Z.of_nat (length (class_of pri idx)) - 1]> pri in
  dom pri1 = dom pri
  ∧ (bounded_by P pri → bounded_by P pri1)
  ∧ pri_sum pri + 1 ≤ pri_sum pri1.
Proof.
  intros Hlen Hk pri1.
  set (cla := class_of pri idx) in *.
  assert (Hcla : ∀ k', k' ∈ cla → pri !! k' = Some idx) by (intros k'; apply elem_of_class_of).
  assert (Hdom : dom pri1 = dom pri).
  { unfold pri1. rewrite dom_insert_L.
    assert (k ∈ dom pri) by (apply elem_of_dom; rewrite (Hcla k Hk); eauto). set_solver. }
  assert (Hk1 : pri1 !! k = Some (idx + Z.of_nat (length cla) - 1))
    by (unfold pri1; by rewrite lookup_insert_eq).
  assert (Hne : ∀ k', k' ≠ k → pri1 !! k' = pri !! k')
    by (intros k' ?; unfold pri1; by rewrite lookup_insert_ne).
  split; [done|]. split.
  - intros HB.
    apply (bounded_by_raise P pri pri1 idx (list_to_set cla)); [done|done| | |].
    + intros k' Hk'%elem_of_list_to_set. by apply Hcla.
    + intros k' Hk'. apply Hne. intros ->. apply Hk'. by apply elem_of_list_to_set.
    + intros k' Hk'%elem_of_list_to_set. destruct (decide (k' = k)) as [->|Hkk].
      * exists (idx + Z.of_nat (length cla) - 1), (list_to_set cla ∖ {[k]}).
        split; [done|]. split; [lia|]. split; [set_solver|]. split.
        -- intros k'' [Hin%elem_of_list_to_set Hnk%not_elem_of_singleton]%elem_of_difference.
           exists idx. rewrite (Hne _ Hnk). split; [by apply Hcla|lia].
        -- rewrite size_difference.
           2:{ apply singleton_subseteq_l. by apply elem_of_list_to_set. }
           rewrite size_singleton, size_list_to_set by apply NoDup_class_of. lia.
      * exists idx, ∅. rewrite (Hne _ Hkk). split; [by apply Hcla|]. split; [lia|].
        split; [set_solver|]. split; [set_solver|]. rewrite size_empty. lia.
  - assert (raises_priorities pri pri1) as Hraise.
    { split; [done|]. intros k' p p' Hp Hp'. destruct (decide (k' = k)) as [->|Hkk].
      - rewrite (Hcla k Hk) in Hp. rewrite Hk1 in Hp'. injection Hp as <-. injection Hp' as <-. lia.
      - rewrite (Hne _ Hkk) in Hp'. assert (p = p') by congruence. lia. }
    pose proof (raises_priorities_sum_lt pri pri1 k idx _ Hraise (Hcla k Hk) Hk1). lia.
Qed.

Lemma break_ties_loop_total (fuel : nat) pri (P0 : Z) :
  dom pri = atom_keys (implicit g) →
  bounded_by P0 pri →
  Z.of_nat (size pri) * (P0 + Z.of_nat (size pri) - 1) - pri_sum pri < Z.of_nat fuel →
  ∃ pri', break_ties_loop fuel g pri = Ok pri'
    ∧ dom pri' = atom_keys (implicit g)
    ∧ rtc (tie_break_step g) pri pri'
    ∧ classes_to_refine pri' = [].
Proof.
  revert pri. induction fuel as [|fuel IH]; intros pri Hdom HB Hfuel.
  { pose proof (bounded_by_sum pri P0 HB). lia. }
  simpl. destruct (classes_to_refine pri) as [|[idx cla] rest] eqn:Hq.
  { exists pri. split; [done|]. split; [done|]. split; [apply rtc_refl|done]. }
  destruct (classes_to_refine_head _ _ _ _ Hq) as (-> & Hlen & Hmax).
  destruct (last (class_of pri idx)) as [k|] eqn:Hlast.
  2:{ apply last_None in Hlast. rewrite Hlast in Hlen. simpl in Hlen. lia. }
  destruct (last_sorted_max _ _ (class_of_sorted pri idx) Hlast) as [Hk Hkmax].
  destruct (promote_last pri idx k P0 Hlen Hk) as (Hdom1 & HB1 & Hsum1).
  set (pri1 := <[k := idx + Z.of_nat (length (class_of pri idx)) - 1]> pri) in *.
  destruct (refine_priorities_total g (Some pri1) Hconn Hdf Himp)
    as (pri2 & Href & Hdom2 & Hraise2 & HB2).
  simpl in Hraise2, HB2.
  rewrite by_key_fill_id in Hraise2, HB2 by (by rewrite Hdom1).
  rewrite Href. simpl.
  assert (size pri2 = size pri) as Hsz by (by rewrite <- !size_dom, Hdom2, Hdom).
  destruct (IH pri2 Hdom2 (HB2 _ (HB1 HB))) as (pri' & Hloop & Hdom' & Hrtc & Hnil).
  { rewrite Hsz. pose proof (raises_priorities_sum _ _ Hraise2). lia. }
  exists pri'. split; [done|]. split; [done|]. split; [|done].
  eapply rtc_l; [|exact Hrtc]. exists idx, k. done.
Qed.

End break_ties.

(** C6 (as the code has it): on a connected graph [g] without dummy
    atoms whose backbone is stable under [implicit], and for priorities
    [pri] of the backbone keys, [break_priority_ties] returns an
    injective assignment on the same keys.  It gets there by rounds of
    [tie_break_step]: the tied class of HIGHEST index [idx] is picked,
    its last member by key order gets the index [idx + size - 1], which
    is above [idx], and [refine_priorities] runs again; the rounds end
    when every class is a singleton. *)
Theorem break_priority_ties_total `{External} (g : graph) (pri : gmap Z Z) :
  is_connected g = true →
  g = without_dummy_atoms g →
  atom_keys (implicit (implicit g)) = atom_keys (implicit g) →
  dom pri = atom_keys (implicit g) →
  ∃ pri', break_priority_ties g pri = Ok pri'
    ∧ dom pri' = dom pri
    ∧ (∀ k k' p, pri' !! k = Some p → pri' !! k' = Some p → k = k')
    ∧ rtc (tie_break_step g) pri pri'.
Proof.
  intros Hconn Hdf Himp Hdom. unfold break_priority_ties.
  rewrite Hconn, (bool_decide_eq_true_2 _ Hdf). simpl.
  destruct (break_ties_loop_total g Hconn Hdf Himp (break_ties_fuel pri) pri (pri_max pri)
              Hdom (bounded_by_max pri)) as (pri' & Hloop & Hdom' & Hrtc & Hnil).
  { unfold break_ties_fuel, pri_slack.
    pose proof (bounded_by_sum pri _ (bounded_by_max pri)). lia. }
  exists pri'. split; [done|]. split; [congruence|]. split; [|done].
  by apply classes_to_refine_nil.
Qed.

Lemma break_priority_ties_total_witness :
  ∃ pri', break_priority_ties Examples.diol Examples.diol_priorities = Ok pri'
    ∧ dom pri' = dom Examples.diol_priorities
    ∧ (∀ k k' p, pri' !! k = Some p → pri' !! k' = Some p → k = k')
    ∧ rtc (tie_break_step Examples.diol) Examples.diol_priorities pri'.
Proof.
  apply (break_priority_ties_total Examples.diol); by_evaluation.
Defined.

(** On ethane-1,2-diol with the carbons tied at 0 and the oxygens tied at
    2 the code breaks the tie of the oxygens first; taking the class of
    lowest index first, the carbons, gives other priorities. *)
Lemma break_priority_ties_highest_class_first :
  classes_to_refine Examples.diol_priorities = [(2, [2; 3]); (0, [0; 1])]
  ∧ break_priority_ties Examples.diol Examples.diol_priorities
    = Ok (list_to_map [(0, 1); (1, 0); (2, 2); (3, 3)])
  ∧ break_priority_ties_lowest_first Examples.diol Examples.diol_priorities
    = Ok (list_to_map [(0, 0); (1, 1); (2, 3); (3, 2)]).
Proof. split_and!; by_evaluation. Qed.

(** * Further properties of the canonicalization module *)

(** ** The class dictionaries *)

Lemma sorted_lt_of_le_NoDup (l : list Z) :
  StronglySorted Z.le l → NoDup l → StronglySorted Z.lt l.
Proof.
  induction 1 as [|x l Hl IH Hx]; intros Hnd; [constructor|].
  apply NoDup_cons in Hnd as [Hnin Hnd]. constructor; [by apply IH|].
  apply Forall_forall. intros y Hy.
  assert (x ≤ y) by (by eapply Forall_forall in Hx).
  assert (x ≠ y) by (intros ->; done). lia.
Qed.

Lemma sorted_lt_NoDup (l : list Z) : StronglySorted Z.lt l → NoDup l.
Proof.
  induction 1 as [|x l Hl IH Hx]; constructor; [|done].
  intros Hin. eapply Forall_forall in Hx; [|exact Hin]. lia.
Qed.

Lemma sorted_lt_unique (l1 l2 : list Z) :
  StronglySorted Z.lt l1 → StronglySorted Z.lt l2 → (∀ k, k ∈ l1 ↔ k ∈ l2) → l1 = l2.
Proof.
  intros H1 H2 Hin.
  apply (StronglySorted_unique_strong Z.lt); [intros; lia|done..|].
  apply NoDup_Permutation; [by apply sorted_lt_NoDup..|done].
Qed.

(** X1: [class_dict_from_priority_dict] has an entry for a priority
    exactly when some key has it, and the entry is the tuple of the
    keys of that priority in strictly ascending order; no class is
    empty. *)
Theorem class_dict_from_priority_dict_spec (pri : gmap Z Z) (j : Z) (c : list Z) :
  class_dict_from_priority_dict pri !! j = Some c
  ↔ c ≠ [] ∧ StronglySorted Z.lt c ∧ ∀ k, k ∈ c ↔ pri !! k = Some j.
Proof.
  rewrite class_dict_lookup. split.
  - intros [-> Hne]. split; [done|]. split.
    + apply sorted_lt_of_le_NoDup; [apply class_of_sorted|apply NoDup_class_of].
    + intros k. apply elem_of_class_of.
  - intros (Hne & Hs & Hin). split; [|done].
    apply sorted_lt_unique; [done| |].
    + apply sorted_lt_of_le_NoDup; [apply class_of_sorted|apply NoDup_class_of].
    + intros k. by rewrite Hin, elem_of_class_of.
Qed.

Lemma groups_ascending (f : Z → Z) (gs : list (list Z)) :
  StronglySorted (λ a b, f a ≤ f b) (concat gs) →
  Forall (λ g, g ≠ []) gs →
  NoDup ((λ g, f (hd 0 g)) <$> gs) →
  (∀ g k, g ∈ gs → k ∈ g → f k = f (hd 0 g)) →
  StronglySorted (λ g1 g2, ∀ k1 k2, k1 ∈ g1 → k2 ∈ g2 → f k1 < f k2) gs.
Proof.
  induction gs as [|g gs IH]; intros Hs Hne Hnd Hkey; [constructor|].
  simpl in Hs. apply StronglySorted_app in Hs as (Hall & Hsg & Hss).
  apply Forall_cons in Hne as [Hg Hne].
  rewrite fmap_cons in Hnd. apply NoDup_cons in Hnd as [Hnin Hnd].
  constructor.
  - apply IH; [done..|]. intros g' k Hg' Hk. apply Hkey; [by right|done].
  - apply Forall_forall. intros g' Hg' k1 k2 Hk1 Hk2.
    assert (f k1 ≤ f k2) as Hle.
    { apply Hall; [done|]. apply elem_of_concat. eauto. }
    assert (f k1 = f (hd 0 g)) as H1 by (apply Hkey; [left|done]).
    assert (f k2 = f (hd 0 g')) as H2 by (apply Hkey; [by right|done]).
    assert (f (hd 0 g) ≠ f (hd 0 g')); [|lia].
    intros Heq. apply Hnin. rewrite Heq.
    by apply (list_elem_of_fmap_2 (λ g, f (hd 0 g))).
Qed.

(** X2: [sorted_classes_from_priority_dict] partitions the keys of the
    priority dictionary: the classes together hold every key once, no
    class is empty, the keys of one class have one priority, and the
    classes come in strictly ascending order of priority. *)
Theorem sorted_classes_from_priority_dict_partition (pri : gmap Z Z) :
  concat (sorted_classes_from_priority_dict pri) ≡ₚ elements (dom pri)
  ∧ Forall (λ c, c ≠ []) (sorted_classes_from_priority_dict pri)
  ∧ (∀ c k1 k2, c ∈ sorted_classes_from_priority_dict pri →
       k1 ∈ c → k2 ∈ c → pri !! k1 = pri !! k2)
  ∧ StronglySorted (λ c1 c2, ∀ k1 k2, k1 ∈ c1 → k2 ∈ c2 → pri_of pri k1 < pri_of pri k2)
      (sorted_classes_from_priority_dict pri).
Proof.
  destruct (sorted_classes_spec pri) as [Hnd Hcs].
  assert (Hkey : ∀ c k, c ∈ sorted_classes_from_priority_dict pri → k ∈ c →
            pri !! k = Some (pri_of pri (hd 0 c))).
  { intros c k Hc Hk. destruct (Hcs c Hc) as [_ Heq]. rewrite Heq in Hk.
    by apply elem_of_class_of in Hk. }
  split_and!.
  - unfold sorted_classes_from_priority_dict. rewrite concat_groupby.
    unfold keys_by_priority. rewrite sorted_by_perm. apply elements_Z_perm.
  - apply Forall_forall. intros c Hc. by destruct (Hcs c Hc).
  - intros c k1 k2 Hc Hk1 Hk2. by rewrite (Hkey c k1), (Hkey c k2).
  - apply groups_ascending.
    + unfold sorted_classes_from_priority_dict. rewrite concat_groupby.
      apply (sorted_by_key_sorted (pri_of pri)).
    + apply Forall_forall. intros c Hc. by destruct (Hcs c Hc).
    + done.
    + intros c k Hc Hk. unfold pri_of at 1. by rewrite (Hkey c k Hc Hk).
Qed.

(** ** Comparing representations *)

Section comparisons.
Context {A : Type} (cmp : A → A → comparison).
Context (Hanti : ∀ x y, cmp x y = CompOpp (cmp y x)).

Lemma lex_compare_antisym (l1 l2 : list A) :
  lex_compare cmp l1 l2 = CompOpp (lex_compare cmp l2 l1).
Proof.
  revert l2. induction l1 as [|x l1 IH]; intros [|y l2]; simpl; try done.
  rewrite (Hanti x y). destruct (cmp y x); simpl; [apply IH|done..].
Qed.
End comparisons.

Lemma then_compare_antisym (c1 c2 d1 d2 : comparison) :
  c1 = CompOpp d1 → c2 = CompOpp d2 →
  then_compare c1 c2 = CompOpp (then_compare d1 d2).
Proof. intros -> ->. by destruct d1. Qed.

Lemma Z_compare_antisym (x y : Z) : (x ?= y) = CompOpp (y ?= x).
Proof. apply Z.compare_antisym. Qed.

Lemma rep_item_compare_antisym (a b : list Z * parity) :
  rep_item_compare a b = CompOpp (rep_item_compare b a).
Proof.
  unfold rep_item_compare. apply then_compare_antisym.
  - apply lex_compare_antisym, Z_compare_antisym.
  - apply Z_compare_antisym.
Qed.

Lemma ts_rep_compare_antisym (a b : ts_rep) :
  ts_rep_compare a b = CompOpp (ts_rep_compare b a).
Proof.
  unfold ts_rep_compare. repeat apply then_compare_antisym.
  - apply lex_compare_antisym, Z_compare_antisym.
  - apply lex_compare_antisym, lex_compare_antisym, Z_compare_antisym.
  - apply lex_compare_antisym, lex_compare_antisym, Z_compare_antisym.
  - apply lex_compare_antisym, rep_item_compare_antisym.
Qed.

Section enantiomers.
Context `{External}.

(** X7: [is_canonical_enantiomer] is antisymmetric: with the two
    (graph, priorities) pairs exchanged, the answers [True] and [False]
    change places and the answer [None] stays; so of two different
    representations exactly one is the canonical one. *)
Theorem is_canonical_enantiomer_swap
    (ugra : graph) (upri : gmap Z Z) (rgra : graph) (rpri : gmap Z Z) (v : option bool) :
  is_canonical_enantiomer ugra upri rgra rpri = Ok v
  ↔ is_canonical_enantiomer rgra rpri ugra upri = Ok (negb <$> v).
Proof.
  unfold is_canonical_enantiomer.
  destruct (stereo_assignment_representation ugra upri) as [urep|e] eqn:Hu;
    destruct (stereo_assignment_representation rgra rpri) as [rrep|e'] eqn:Hr;
    simpl; try (split; congruence).
  rewrite (lex_compare_antisym _ rep_item_compare_antisym urep rrep).
  destruct (lex_compare rep_item_compare rrep urep), v as [[]|]; simpl;
    split; congruence.
Qed.

(** X8: [ts_is_canonical_direciton] holds in one direction at most:
    when the forward direction is canonical against the reverse one, the
    reverse one is not canonical against the forward one; and no
    direction is canonical against itself. *)
Theorem ts_is_canonical_direciton_asym
    (ftsg : graph) (fpri : gmap Z Z) (rtsg : graph) (rpri : gmap Z Z) :
  (ts_is_canonical_direciton ftsg fpri rtsg rpri = Ok true
   → ts_is_canonical_direciton rtsg rpri ftsg fpri = Ok false)
  ∧ ts_is_canonical_direciton ftsg fpri ftsg fpri ≠ Ok true.
Proof.
  unfold ts_is_canonical_direciton. split.
  - destruct (ts_direction_representation (implicit ftsg) _) as [frep|e] eqn:Hf;
      [|done].
    destruct (ts_direction_representation (implicit rtsg) _) as [rrep|e'] eqn:Hr;
      [|done].
    simpl. rewrite (ts_rep_compare_antisym rrep frep).
    destruct (ts_rep_compare frep rrep); simpl; congruence.
  - destruct (ts_direction_representation (implicit ftsg) _) as [frep|e] eqn:Hf;
      [|done].
    simpl. pose proof (ts_rep_compare_antisym frep frep) as Ha.
    destruct (ts_rep_compare frep frep); simpl in *; congruence.
Qed.
End enantiomers.

(** ** Reading the parities of a graph *)

Section read_items.
Context {K V : Type} `{Countable K}.
Implicit Types (d : gmap K V) (l : list K) (kps : list (K * V)).

Lemma read_items_Ok d l kps :
  rmapM (λ k, p ← dict_.getitem d k; Ok (k, p)) l = Ok kps →
  (∀ k, k ∈ l → is_Some (d !! k))
  ∧ list_to_map kps = filter (λ kv : K * V, kv.1 ∈ l) d.
Proof.
  intros Hkps. apply rmapM_pair_fst in Hkps as [Hfst Hsnd].
  apply rmapM_Ok in Hsnd.
  assert (Hall : ∀ k v, (k, v) ∈ kps → d !! k = Some v).
  { intros k v Hkv. subst l.
    induction kps as [|[k' v'] kps IH]; [by apply elem_of_nil in Hkv|].
    rewrite !fmap_cons in Hsnd. simpl in Hsnd.
    apply Forall2_cons in Hsnd as [Hkv' Hsnd].
    apply elem_of_cons in Hkv as [Heq|Hkv].
    - injection Heq as -> ->. by apply getitem_Ok.
    - by apply IH. }
  split.
  - intros k Hk. rewrite <- Hfst in Hk.
    apply list_elem_of_fmap in Hk as ([k' v] & -> & Hkv). simpl.
    rewrite (Hall _ _ Hkv). eauto.
  - apply map_eq. intros k. apply option_eq. intros v.
    rewrite map_lookup_filter_Some. simpl. split.
    + intros Hkv%elem_of_list_to_map_2. split; [by apply Hall|].
      rewrite <- Hfst. apply list_elem_of_fmap. by exists (k, v).
    + intros [Hd Hk]. rewrite <- Hfst in Hk.
      apply list_elem_of_fmap in Hk as ([k' v'] & -> & Hkv). simpl in *.
      assert (v' = v) as -> by (specialize (Hall _ _ Hkv); congruence).
      apply elem_of_list_to_map_1'; [|done].
      intros v' Hkv'. specialize (Hall _ _ Hkv'). congruence.
Qed.

Lemma read_items_total d l :
  (∀ k, k ∈ l → is_Some (d !! k)) →
  ∃ kps, rmapM (λ k, p ← dict_.getitem d k; Ok (k, p)) l = Ok kps.
Proof.
  intros Hl. apply rmapM_total. intros k Hk. destruct (Hl k Hk) as [v Hv].
  exists (k, v). by rewrite (proj2 (getitem_Ok d k v) Hv).
Qed.

Lemma read_items_Raise d l e :
  rmapM (λ k, p ← dict_.getitem d k; Ok (k, p)) l = Raise e → e = KeyError.
Proof.
  induction l as [|k l IH]; simpl; [done|].
  intros [Hk|(kv & _ & [Hl|(kps & _ & Heq)]%bind_Raise)]%bind_Raise.
  - apply bind_Raise in Hk as [Hk|(v & _ & Heq)]; [|done].
    unfold dict_.getitem in Hk. destruct (d !! k); congruence.
  - by apply IH.
  - done.
Qed.
End read_items.

Section read_canonical.
Context `{External}.

(** X9: with the read-canonical parity evaluator the parities that
    [_algo] assigns are the ones stored on the graph, whatever the
    priorities are: the evaluation succeeds exactly when every requested
    key is a key of the graph and then gives each key its stored parity;
    otherwise it raises a [KeyError]. *)
Theorem evaluate_parities_read_canonical
    (g0 : graph) (pri : gmap Z Z) (keys : gset Z * gset bkey) :
  (∀ pars, evaluate_parities ReadCanonical g0 pri keys = Ok pars
     ↔ keys.1 ⊆ atom_keys g0 ∧ keys.2 ⊆ bond_keys g0
       ∧ pars = Parities (dict_.by_key (atom_stereo_parities g0) keys.1)
                         (dict_.by_key (bond_stereo_parities g0) keys.2))
  ∧ (∀ e, evaluate_parities ReadCanonical g0 pri keys = Raise e → e = KeyError).
Proof.
  unfold evaluate_parities, parity_evaluator, parity_evaluator_read_canonical_. simpl.
  assert (Hadom : dom (atom_stereo_parities g0) = atom_keys g0)
    by (unfold atom_stereo_parities, atom_keys; apply dom_fmap_L).
  assert (Hbdom : dom (bond_stereo_parities g0) = bond_keys g0)
    by (unfold bond_stereo_parities, bond_keys; apply dom_fmap_L).
  assert (Hafilter : filter (λ kv : Z * parity, kv.1 ∈ elements_Z keys.1)
                       (atom_stereo_parities g0)
                     = dict_.by_key (atom_stereo_parities g0) keys.1).
  { unfold dict_.by_key. apply map_filter_ext. intros k v _. simpl.
    apply elem_of_elements_Z. }
  assert (Hbfilter : filter (λ kv : bkey * parity, kv.1 ∈ sorted_bkeys keys.2)
                       (bond_stereo_parities g0)
                     = dict_.by_key (bond_stereo_parities g0) keys.2).
  { unfold dict_.by_key. apply map_filter_ext. intros k v _. simpl.
    apply elem_of_sorted_bkeys. }
  split.
  - intros pars. split.
    + intros (aps & Haps & (bps & Hbps & Heq)%bind_Ok)%bind_Ok. injection Heq as <-.
      apply read_items_Ok in Haps as [Ha ->]. apply read_items_Ok in Hbps as [Hb ->].
      split; [|split].
      * intros k Hk. rewrite <- Hadom. apply elem_of_dom, Ha. by apply elem_of_elements_Z.
      * intros k Hk. rewrite <- Hbdom. apply elem_of_dom, Hb. by apply elem_of_sorted_bkeys.
      * by rewrite Hafilter, Hbfilter.
    + intros (Ha & Hb & ->).
      destruct (read_items_total (atom_stereo_parities g0) (elements_Z keys.1)) as [aps Haps].
      { intros k Hk%elem_of_elements_Z. apply elem_of_dom. rewrite Hadom. by apply Ha. }
      destruct (read_items_total (bond_stereo_parities g0) (sorted_bkeys keys.2)) as [bps Hbps].
      { intros k Hk%elem_of_sorted_bkeys. apply elem_of_dom. rewrite Hbdom. by apply Hb. }
      rewrite Haps. simpl. rewrite Hbps. simpl.
      apply read_items_Ok in Haps as [_ ->]. apply read_items_Ok in Hbps as [_ ->].
      by rewrite Hafilter, Hbfilter.
  - intros e [Ha|(aps & _ & [Hb|(bps & _ & Heq)]%bind_Raise)]%bind_Raise.
    + by apply read_items_Raise in Ha.
    + by apply read_items_Raise in Hb.
    + done.
Qed.
End read_canonical.

(** ** The sort values *)

Lemma bind_ext_Ok {A B} (m : res A) (f f' : A → res B) :
  (∀ a, m = Ok a → f a = f' a) → m ≫= f = m ≫= f'.
Proof. destruct m as [a|e]; intros Hf; [by apply Hf|done]. Qed.

Lemma rmapM_ext_in {A B} (f f' : A → res B) (l : list A) :
  (∀ x, x ∈ l → f x = f' x) → rmapM f l = rmapM f' l.
Proof.
  induction l as [|x l IH]; intros Hl; simpl; [done|].
  rewrite (Hl x) by left. apply bind_ext_Ok. intros y _.
  rewrite IH; [done|]. intros z Hz. apply Hl. by right.
Qed.

Section sort_values_locality.
Context `{External}.

(** X5: the sort value of an atom takes from the priorities only those
    of the neighbours of the atom (in the graph with implicit
    hydrogens); so a re-classification of other atoms cannot change it,
    which is why [refine_priorities] re-evaluates only the classes of
    neighbours. *)
Theorem sort_evaluator_atom_invariants_local
    (g : graph) (pri pri' : gmap Z Z) (key : Z) :
  (∀ n, n ∈ neighbor_keys (implicit g) key → pri !! n = pri' !! n) →
  sort_evaluator_atom_invariants_ g pri key = sort_evaluator_atom_invariants_ g pri' key.
Proof.
  unfold sort_evaluator_atom_invariants_. generalize (implicit g). clear g.
  intros g Hn. cbv zeta.
  do 7 (apply bind_ext_Ok; intros ? _).
  apply bind_ext_Ok. intros nkeys Hnkeys.
  assert (nkeys = neighbor_keys g key) as ->.
  { apply getitem_Ok in Hnkeys. unfold atoms_neighbor_atom_keys in Hnkeys.
    rewrite map_lookup_imap in Hnkeys. simpl in Hnkeys.
    destruct (atoms g !! key); simpl in Hnkeys; [|done].
    injection Hnkeys as <-. unfold neighbor_keys. by rewrite bond_keys_without_pi_bonds. }
  rewrite (rmapM_ext_in (dict_.getitem pri) (dict_.getitem pri')); [done|].
  intros n Hin%elem_of_elements_Z. unfold dict_.getitem. by rewrite (Hn n Hin).
Qed.
End sort_values_locality.

Lemma sort_evaluator_atom_invariants_local_witness :
  sort_evaluator_atom_invariants_ Examples.diol Examples.diol_priorities 2
  = sort_evaluator_atom_invariants_ Examples.diol
      (list_to_map [(0, 7); (1, 0); (2, 5); (3, 9)]) 2.
Proof.
  apply (sort_evaluator_atom_invariants_local Examples.diol).
  change (set_Forall (λ n, Examples.diol_priorities !! n
                           = (list_to_map [(0, 7); (1, 0); (2, 5); (3, 9)] : gmap Z Z) !! n)
            (neighbor_keys (implicit Examples.diol) 2)).
  by_evaluation.
Defined.

(** ** The refiner: result and range *)

Lemma lookup_by_key_fill {V} (d : gmap Z V) (ks : gset Z) (v : V) (k : Z) :
  k ∈ ks → dict_.by_key_fill d ks v !! k = Some (default v (d !! k)).
Proof.
  intros Hk. unfold dict_.by_key_fill. destruct (d !! k) as [x|] eqn:Hd; simpl.
  - apply lookup_union_Some_l. by apply map_lookup_filter_Some.
  - rewrite lookup_union_r.
    + by apply lookup_gset_to_gmap_Some.
    + apply map_lookup_filter_None. left. done.
Qed.

Lemma by_key_fill_bounded (d : gmap Z Z) (ks : gset Z) (k p : Z) :
  dict_.by_key_fill d ks 0 !! k = Some p → p ≤ pri_max d.
Proof.
  unfold dict_.by_key_fill.
  intros [[Hk _]%map_lookup_filter_Some|[_ [_ <-]%lookup_gset_to_gmap_Some]]%lookup_union_Some_raw.
  - by eapply pri_max_ge.
  - apply pri_max_nonneg.
Qed.

Section refine_results.
Context `{External}.

(** X3: on a connected graph without dummy atoms (whose backbone
    [implicit] leaves alone) the loop of [refine_priorities] ends: the
    function returns priorities for exactly the backbone atoms, and no
    atom gets a priority below the one it was given (0 when it was given
    none). *)
Theorem refine_priorities_returns (g : graph) (pri : option (gmap Z Z)) :
  is_connected g = true →
  g = without_dummy_atoms g →
  atom_keys (implicit (implicit g)) = atom_keys (implicit g) →
  ∃ pri', refine_priorities g pri = Ok pri'
    ∧ dom pri' = atom_keys (implicit g)
    ∧ ∀ k p', pri' !! k = Some p' → default 0 (default ∅ pri !! k) ≤ p'.
Proof.
  intros Hconn Hdf Himp.
  destruct (refine_priorities_total g pri Hconn Hdf Himp)
    as (pri' & Href & Hdom & [_ Hraise] & _).
  exists pri'. split; [done|]. split; [done|].
  intros k p' Hk. apply (Hraise k); [|done].
  apply lookup_by_key_fill. rewrite <- Hdom. apply elem_of_dom. eauto.
Qed.

(** X4: the priorities that [refine_priorities] returns stay below the
    largest priority given (or 0) plus the number of backbone atoms; with
    no priorities given they lie in [0 .. n-1]. *)
Theorem refine_priorities_range
    (g : graph) (pri : option (gmap Z Z)) (pri' : gmap Z Z) (k p' : Z) :
  is_connected g = true →
  g = without_dummy_atoms g →
  atom_keys (implicit (implicit g)) = atom_keys (implicit g) →
  refine_priorities g pri = Ok pri' →
  pri' !! k = Some p' →
  p' < pri_max (default ∅ pri) + Z.of_nat (size (atom_keys (implicit g)))
  ∧ (pri = None → 0 ≤ p').
Proof.
  intros Hconn Hdf Himp Href Hk.
  destruct (refine_priorities_total g pri Hconn Hdf Himp)
    as (pri2 & Href2 & Hdom & [_ Hraise] & Hbound).
  assert (pri2 = pri') as -> by congruence.
  split.
  - assert (bounded_by (pri_max (default ∅ pri)) pri') as HB.
    { apply Hbound. intros k0 p0 Hk0%by_key_fill_bounded. lia. }
    pose proof (bounded_by_le _ _ _ _ HB Hk) as Hle.
    rewrite <- Hdom, size_dom. lia.
  - intros ->. apply (Hraise k 0); [|done].
    rewrite lookup_by_key_fill; [simpl; by rewrite lookup_empty|].
    rewrite <- Hdom. apply elem_of_dom. eauto.
Qed.
End refine_results.

Lemma refine_priorities_returns_witness :
  ∃ pri', refine_priorities Examples.cuneane None = Ok pri'
    ∧ dom pri' = atom_keys (implicit Examples.cuneane)
    ∧ ∀ k p', pri' !! k = Some p'
        → default 0 (default (∅ : gmap Z Z) None !! k) ≤ p'.
Proof.
  apply (refine_priorities_returns Examples.cuneane None); by_evaluation.
Defined.

Lemma refine_priorities_range_witness :
  2 < pri_max (default ∅ None) + Z.of_nat (size (atom_keys (implicit Examples.diol)))
  ∧ ((None : option (gmap Z Z)) = None → 0 ≤ 2).
Proof.
  apply (refine_priorities_range Examples.diol None Examples.diol_priorities 3 2);
    by_evaluation.
Defined.

(** ** Priorities of the hydrogens outside the backbone *)

Lemma list_max_Z_Ok (l : list Z) (m : Z) :
  list_max_Z l = Ok m → ∀ x, x ∈ l → x ≤ m.
Proof.
  destruct l as [|a l]; [done|]. simpl. intros [= <-].
  assert (Hfold : ∀ l a, a ≤ foldl Z.max a l ∧ ∀ x, x ∈ l → x ≤ foldl Z.max a l).
  { clear. induction l as [|b l IH]; intros a; simpl.
    - split; [lia|]. by intros x ?%elem_of_nil.
    - destruct (IH (Z.max a b)) as [H1 H2]. split; [lia|].
      intros x [->|Hx]%elem_of_cons; [lia|by apply H2]. }
  destruct (Hfold l a) as [H1 H2]. intros x [->|Hx]%elem_of_cons; [done|by apply H2].
Qed.

(** The loop over the hydrogen parts assigns indices from the first
    free index on. *)
Lemma foldl_assign_hyd_part (parts : list (list Z)) (st : gmap Z Z * Z) (lo : Z) :
  lo ≤ st.2 → (∀ k v, st.1 !! k = Some v → lo ≤ v) →
  ∀ k v, (foldl assign_hyd_part st parts).1 !! k = Some v → lo ≤ v.
Proof.
  revert st. induction parts as [|part parts IH]; intros st Hlo Hd; simpl; [done|].
  apply IH; unfold assign_hyd_part; simpl; [lia|].
  unfold dict_.update. intros k v [Hk|[_ Hk]]%lookup_union_Some_raw.
  - apply elem_of_list_to_map_2, list_elem_of_fmap in Hk as (k' & [= -> ->] & _). done.
  - by eapply Hd.
Qed.

Lemma lookup_imap_index (srt : list Z) (next : Z) (k v : Z) :
  (list_to_map (imap (λ i k, (k, Z.of_nat i + next)) srt) : gmap Z Z) !! k = Some v →
  ∃ i, srt !! i = Some k ∧ v = Z.of_nat i + next.
Proof.
  intros Hk%elem_of_list_to_map_2. apply elem_of_lookup_imap in Hk as (i & k' & [= -> ->] & Hi).
  eauto.
Qed.

Section hydrogen_priorities.
Context `{External}.

(** X6: what [assign_hydrogen_priorities] (without negation) does to
    the priorities: no key loses its priority, and only hydrogens
    outside the backbone get a new one; a new priority is above the
    priority of every backbone atom; and with tie breaking no two
    hydrogens get the same new priority. *)
Theorem assign_hydrogen_priorities_spec
    (g : graph) (pri pri' : gmap Z Z) (break_ties : bool) :
  assign_hydrogen_priorities g pri break_ties false = Ok pri' →
  dom pri ⊆ dom pri'
  ∧ (∀ k, k ∉ nonbackbone_hydrogen_keys g → pri' !! k = pri !! k)
  ∧ (∀ k p', pri' !! k = Some p' → pri !! k ≠ Some p' →
       ∀ b p, b ∈ backbone_keys g → pri !! b = Some p → p < p')
  ∧ (break_ties = true →
     ∀ k k' p', pri' !! k = Some p' → pri' !! k' = Some p' →
                pri !! k ≠ Some p' → pri !! k' ≠ Some p' → k = k').
Proof.
  unfold assign_hydrogen_priorities. cbv zeta.
  intros ([g2 pri2] & Hbr & Heq)%bind_Ok. injection Heq as <-.
  case_bool_decide as Hpool; [|injection Hbr as _ <-; by split_and!].
  apply bind_Ok in Hbr as (bbn & Hbbn & (mx & Hmx & (hyd & Hhyd & Heq)%bind_Ok)%bind_Ok).
  injection Heq as _ <-. unfold dict_.update, dict_.by_key.
  set (pool := nonbackbone_hydrogen_keys g) in *.
  assert (Hnew : ∀ k p', (filter (λ kv : Z * Z, kv.1 ∈ pool) hyd ∪ pri) !! k = Some p' →
                         pri !! k ≠ Some p' → hyd !! k = Some p').
  { intros k p' [Hk|[_ Hk]]%lookup_union_Some_raw Hne; [|done].
    by apply map_lookup_filter_Some in Hk as [Hk _]. }
  apply sorted_by_priority_Ok in Hbbn as [Hperm Hsome].
  assert (Hbb : ∀ b p, b ∈ backbone_keys g → pri !! b = Some p → p ≤ mx).
  { intros b p Hb Hp. apply (list_max_Z_Ok _ _ Hmx).
    apply list_elem_of_fmap. exists (b, p). split; [done|].
    apply elem_of_map_to_list, map_lookup_filter_Some. split; [done|]. simpl.
    apply elem_of_list_to_set. rewrite Hperm. by apply elem_of_elements_Z. }
  split_and!.
  - rewrite dom_union_L. set_solver.
  - intros k Hk. apply lookup_union_r. apply map_lookup_filter_None. right.
    intros v _. done.
  - intros k p' Hk Hne b p Hb Hp. specialize (Hbb _ _ Hb Hp).
    apply Hnew in Hk; [|done]. destruct break_ties; simpl in Hhyd.
    + apply bind_Ok in Hhyd as (hss & _ & [= <-]).
      apply lookup_imap_index in Hk as (i & _ & ->). lia.
    + apply bind_Ok in Hhyd as (parts & _ & [= <-]).
      apply (foldl_assign_hyd_part _ _ (mx + 1)) in Hk; simpl; [lia|lia|].
      intros k0 v0 Hk0. by apply lookup_empty_Some in Hk0.
  - intros -> k k' p' Hk Hk' Hne Hne'. simpl in Hhyd.
    apply Hnew in Hk; [|done]. apply Hnew in Hk'; [|done].
    apply bind_Ok in Hhyd as (hss & _ & [= <-]).
    apply lookup_imap_index in Hk as (i & Hi & ->).
    apply lookup_imap_index in Hk' as (i' & Hi' & Heq).
    assert (i = i') as -> by lia. congruence.
Qed.

End hydrogen_priorities.

Lemma assign_hydrogen_priorities_spec_witness :
  dom ({[3 := 0]} : gmap Z Z)
    ⊆ dom (list_to_map [(0, 1); (1, 2); (2, 3); (3, 0); (7, 4)] : gmap Z Z)
  ∧ (∀ k, k ∉ nonbackbone_hydrogen_keys Examples.methane_explicit →
          (list_to_map [(0, 1); (1, 2); (2, 3); (3, 0); (7, 4)] : gmap Z Z) !! k
          = ({[3 := 0]} : gmap Z Z) !! k)
  ∧ (∀ k p', (list_to_map [(0, 1); (1, 2); (2, 3); (3, 0); (7, 4)] : gmap Z Z) !! k = Some p' →
       ({[3 := 0]} : gmap Z Z) !! k ≠ Some p' →
       ∀ b p, b ∈ backbone_keys Examples.methane_explicit →
              ({[3 := 0]} : gmap Z Z) !! b = Some p → p < p')
  ∧ (true = true →
     ∀ k k' p', (list_to_map [(0, 1); (1, 2); (2, 3); (3, 0); (7, 4)] : gmap Z Z) !! k = Some p' →
                (list_to_map [(0, 1); (1, 2); (2, 3); (3, 0); (7, 4)] : gmap Z Z) !! k' = Some p' →
                ({[3 := 0]} : gmap Z Z) !! k ≠ Some p' →
                ({[3 := 0]} : gmap Z Z) !! k' ≠ Some p' → k = k').
Proof.
  apply (assign_hydrogen_priorities_spec Examples.methane_explicit {[3 := 0]} _ true).
  by_evaluation.
Defined.

(** ** Hydrogen priorities and stereogenic atoms *)

Lemma NoDup_fmap_inj_on {A B} (f : A → B) (l : list A) :
  NoDup (f <$> l) ↔ NoDup l ∧ ∀ x y, x ∈ l → y ∈ l → f x = f y → x = y.
Proof.
  split.
  - intros Hnd. split; [by eapply NoDup_fmap_1|].
    induction l as [|a l IH]; intros x y Hx Hy Hxy; [by apply elem_of_nil in Hx|].
    rewrite fmap_cons in Hnd. apply NoDup_cons in Hnd as [Hnin Hnd].
    apply elem_of_cons in Hx as [->|Hx], Hy as [->|Hy]; [done| | |by apply IH].
    + exfalso. apply Hnin. rewrite Hxy. by apply list_elem_of_fmap_2.
    + exfalso. apply Hnin. rewrite <- Hxy. by apply list_elem_of_fmap_2.
  - intros [Hnd Hinj]. by apply NoDup_fmap_2_strong.
Qed.

Lemma rmapM_getitem_Ok (pri : gmap Z Z) (l : list Z) (ps : list Z) :
  rmapM (dict_.getitem pri) l = Ok ps → ps = pri_of pri <$> l.
Proof.
  revert ps. induction l as [|k l IH]; intros ps; [by intros [= <-]|].
  rewrite fmap_cons. simpl.
  intros (p & Hp%getitem_Ok & (ps' & Hps & [= <-])%bind_Ok)%bind_Ok.
  apply IH in Hps as ->. f_equal. unfold pri_of. by rewrite Hp.
Qed.

Section hydrogens_and_atoms.
Context `{External}.

Lemma atom_neighbors_Ok (g : graph) (k : Z) (n : gset Z) :
  dict_.getitem (atoms_neighbor_atom_keys g) k = Ok n → n = neighbor_keys g k.
Proof.
  unfold dict_.getitem, atoms_neighbor_atom_keys.
  rewrite map_lookup_imap. destruct (atoms g !! k); simpl; [|done]. by intros [= <-].
Qed.

Lemma elem_of_atom_stereo_keys (g : graph) (key : Z) :
  key ∈ atom_stereo_keys g ↔ ∃ b, atom_stereo_parities g !! key = Some (Some b).
Proof.
  unfold atom_stereo_keys, dict_.keys_by_value, dict_.filter_by_value.
  rewrite elem_of_dom. unfold is_Some. setoid_rewrite map_lookup_filter_Some. simpl.
  split.
  - intros (p & Hp & Hs%bool_decide_eq_true). destruct Hs as [b ->]. eauto.
  - intros (b & Hb). exists (Some b). split; [done|]. apply bool_decide_eq_true. eauto.
Qed.

(** X10: [stereogenic_atom_keys_from_priorities] returns exactly the
    tetrahedral candidate atoms (of the graph with pi bonds removed and
    hydrogens explicit) whose neighbours have pairwise different
    priorities, the hydrogens given the priorities of
    [assign_hydrogen_priorities]; when [assigned] is false, the atoms
    that carry a parity are left out.  And when it returns, no candidate
    has more than four neighbours. *)
Theorem stereogenic_atom_keys_from_priorities_spec
    (g : graph) (pri : gmap Z Z) (assigned : bool) (keys : gset Z) :
  stereogenic_atom_keys_from_priorities g pri assigned = Ok keys →
  ∃ pri', assign_hydrogen_priorities (explicit (without_pi_bonds g)) pri false false = Ok pri'
    ∧ (∀ key,
        key ∈ keys
        ↔ key ∈ tetrahedral_atom_keys (explicit (without_pi_bonds g))
          ∧ (assigned = false →
             ∀ b, atom_stereo_parities (explicit (without_pi_bonds g)) !! key ≠ Some (Some b))
          ∧ ∀ a b, a ∈ neighbor_keys (explicit (without_pi_bonds g)) key →
                   b ∈ neighbor_keys (explicit (without_pi_bonds g)) key →
                   a ≠ b → pri' !! a ≠ pri' !! b)
    ∧ ∀ key, key ∈ tetrahedral_atom_keys (explicit (without_pi_bonds g)) →
        (assigned = false →
         ∀ b, atom_stereo_parities (explicit (without_pi_bonds g)) !! key ≠ Some (Some b)) →
        (size (neighbor_keys (explicit (without_pi_bonds g)) key) ≤ 4)%nat.
Proof.
  unfold stereogenic_atom_keys_from_priorities. cbv zeta.
  set (g' := explicit (without_pi_bonds g)). intros Hres.
  apply bind_Ok in Hres as (pri' & Hpri & (ks & Hks & Heq)%bind_Ok). injection Heq as <-.
  exists pri'. split; [done|].
  set (cand := if negb assigned then tetrahedral_atom_keys g' ∖ atom_stereo_keys g'
               else tetrahedral_atom_keys g') in *.
  assert (Hcand : ∀ key, key ∈ cand
            ↔ key ∈ tetrahedral_atom_keys g'
              ∧ (assigned = false → ∀ b, atom_stereo_parities g' !! key ≠ Some (Some b))).
  { intros key. unfold cand. destruct assigned; simpl.
    - naive_solver.
    - rewrite elem_of_difference, elem_of_atom_stereo_keys. naive_solver. }
  set (is_stereogenic := λ key : Z,
         nkeys ← atom_stereo_sorted_neighbor_keys g' key pri';
         _ ← assert (bool_decide (length nkeys ≤ 4)%nat) TooManyNeighbors;
         pris ← rmapM (dict_.getitem pri') nkeys;
         Ok (distinct pris)) in *.
  assert (Hste : ∀ key b, is_stereogenic key = Ok b →
            (size (neighbor_keys g' key) ≤ 4)%nat
            ∧ (b = true ↔ ∀ a c, a ∈ neighbor_keys g' key → c ∈ neighbor_keys g' key →
                            a ≠ c → pri' !! a ≠ pri' !! c)).
  { intros key b. unfold is_stereogenic, atom_stereo_sorted_neighbor_keys.
    intros (nkeys & (n & Hn%atom_neighbors_Ok & Hsrt)%bind_Ok
            & (_ & Hlen%assert_Ok%bool_decide_eq_true
               & (pris & Hpris & Heq)%bind_Ok)%bind_Ok)%bind_Ok.
    injection Heq as <-. subst n.
    apply sorted_by_priority_Ok in Hsrt as [Hperm Hsome].
    assert (Helem : ∀ k, k ∈ nkeys ↔ k ∈ neighbor_keys g' key).
    { intros k. by rewrite Hperm, elem_of_elements_Z. }
    assert (Hnd : NoDup nkeys) by (rewrite Hperm; apply NoDup_elements_Z).
    split.
    { rewrite <- length_elements_Z, <- Hperm. done. }
    apply rmapM_getitem_Ok in Hpris as ->.
    unfold distinct. rewrite bool_decide_eq_true, NoDup_fmap_inj_on.
    assert (Hpri_of : ∀ k, k ∈ nkeys → pri' !! k = Some (pri_of pri' k)).
    { intros k Hk. destruct (Hsome k) as [p Hp]; [by rewrite <- Hperm|].
      unfold pri_of. by rewrite Hp. }
    split.
    - intros [_ Hinj] a c Ha%Helem Hc%Helem Hac Heq. apply Hac, Hinj; [done..|].
      rewrite (Hpri_of a Ha), (Hpri_of c Hc) in Heq. congruence.
    - intros Hdist. split; [done|]. intros a c Ha Hc Heq.
      destruct (decide (a = c)) as [|Hac]; [done|]. exfalso.
      apply (Hdist a c); [by apply Helem..|done|].
      by rewrite (Hpri_of a Ha), (Hpri_of c Hc), Heq. }
  assert (Hall : ∀ key, key ∈ cand → ∃ b, is_stereogenic key = Ok b).
  { intros key Hkey%elem_of_elements_Z. unfold rfilter in Hks.
    apply bind_Ok in Hks as (bs & Hbs & _).
    apply rmapM_pair_fst in Hbs as [_ Hbs].
    destruct (rmapM_Ok_elem _ _ _ _ Hbs Hkey) as (b & Hb & _). eauto. }
  split.
  - intros key. rewrite elem_of_list_to_set, (rfilter_Ok _ _ _ _ Hks), elem_of_elements_Z.
    rewrite Hcand. split.
    + intros [[Ht Has] Hst]. split_and!; [done..|]. by apply (Hste key true Hst).
    + intros (Ht & Has & Hdist). split; [done|].
      destruct (Hall key) as [b Hb]; [by apply Hcand|].
      rewrite Hb. f_equal. by apply (Hste key b Hb).
  - intros key Ht Has. destruct (Hall key) as [b Hb]; [by apply Hcand|].
    by apply (Hste key b Hb).
Qed.
End hydrogens_and_atoms.

Lemma stereogenic_atom_keys_from_priorities_spec_witness :
  ∃ pri', assign_hydrogen_priorities (explicit (without_pi_bonds Examples.halo_ethane))
            Examples.halo_ethane_priorities false false = Ok pri'
    ∧ (∀ key,
        key ∈ ({[1]} : gset Z)
        ↔ key ∈ tetrahedral_atom_keys (explicit (without_pi_bonds Examples.halo_ethane))
          ∧ (false = false →
             ∀ b, atom_stereo_parities (explicit (without_pi_bonds Examples.halo_ethane)) !! key
                  ≠ Some (Some b))
          ∧ ∀ a b, a ∈ neighbor_keys (explicit (without_pi_bonds Examples.halo_ethane)) key →
                   b ∈ neighbor_keys (explicit (without_pi_bonds Examples.halo_ethane)) key →
                   a ≠ b → pri' !! a ≠ pri' !! b)
    ∧ ∀ key, key ∈ tetrahedral_atom_keys (explicit (without_pi_bonds Examples.halo_ethane)) →
        (false = false →
         ∀ b, atom_stereo_parities (explicit (without_pi_bonds Examples.halo_ethane)) !! key
              ≠ Some (Some b)) →
        (size (neighbor_keys (explicit (without_pi_bonds Examples.halo_ethane)) key) ≤ 4)%nat.
Proof.
  apply (stereogenic_atom_keys_from_priorities_spec
           Examples.halo_ethane Examples.halo_ethane_priorities false {[1]}).
  by_evaluation.
Defined.

(** ** What canonicalization leaves unchanged *)

Lemma rfoldl_invariant {A B} (P : A → Prop) (f : A → B → res A) (a b : A) (l : list B) :
  (∀ a x a', x ∈ l → f a x = Ok a' → P a → P a') →
  rfoldl f a l = Ok b → P a → P b.
Proof.
  revert a. induction l as [|x l IH]; intros a Hf; simpl.
  - by intros [= <-].
  - intros (a' & Ha' & Hrest)%bind_Ok Ha. eapply IH; [|exact Hrest|].
    + intros a0 x0 a0' Hx0. apply Hf. by right.
    + eapply Hf; [left|exact Ha'|done].
Qed.

Section unchanged.
Context `{External}.

Lemma without_stereo_set_atom_stereo_parities (g : graph) (d : gmap Z parity) :
  without_stereo (set_atom_stereo_parities g d) = without_stereo g.
Proof.
  apply graph_eq; [|done]. unfold without_stereo, set_atom_stereo_parities. simpl.
  apply map_eq. intros k. rewrite !lookup_fmap, map_lookup_imap.
  destruct (atoms g !! k) as [a|]; simpl; [|done]. by destruct (d !! k).
Qed.

Lemma without_stereo_set_bond_stereo_parities (g : graph) (d : gmap bkey parity) :
  without_stereo (set_bond_stereo_parities g d) = without_stereo g.
Proof.
  apply graph_eq; [done|]. unfold without_stereo, set_bond_stereo_parities. simpl.
  apply map_eq. intros k. rewrite !lookup_fmap, map_lookup_imap.
  destruct (bonds g !! k) as [b|]; simpl; [|done]. by destruct (d !! k).
Qed.

Lemma without_stereo_set_stereo_parities (g : graph) (d : parities) :
  without_stereo (set_stereo_parities g d) = without_stereo g.
Proof.
  unfold set_stereo_parities.
  by rewrite without_stereo_set_bond_stereo_parities, without_stereo_set_atom_stereo_parities.
Qed.

Lemma without_stereo_idemp (g : graph) : without_stereo (without_stereo g) = without_stereo g.
Proof.
  apply graph_eq; unfold without_stereo; simpl; rewrite <- map_fmap_compose;
    apply map_fmap_ext; by intros k [] _.
Qed.

Lemma without_stereo_reflect_local_stereo (g : graph) :
  without_stereo (reflect_local_stereo g) = without_stereo g.
Proof. apply without_stereo_set_atom_stereo_parities. Qed.

(** The graph that the driver returns is the input up to parities. *)
Lemma calculate_without_stereo g ev1 ev2 bt bb pri pri' g' :
  calculate_priorities_and_assign_stereo g ev1 ev2 bt bb pri = Ok (pri', g') →
  without_stereo g' = without_stereo g.
Proof.
  unfold calculate_priorities_and_assign_stereo. intros Hfold.
  apply (rfoldl_invariant (λ acc : gmap Z Z * graph,
            without_stereo acc.2 = without_stereo g) _ _ _ _) in Hfold; [done| |].
  - intros acc c acc' _ ([cpri cgra2] & _ & Heq)%bind_Ok Hacc. injection Heq as <-.
    simpl. by rewrite without_stereo_set_stereo_parities.
  - simpl. apply without_stereo_idemp.
Qed.

Lemma without_stereo_getters (g g' : graph) :
  without_stereo g' = without_stereo g →
  atom_keys g' = atom_keys g ∧ bond_keys g' = bond_keys g
  ∧ atom_symbols g' = atom_symbols g
  ∧ atom_implicit_hydrogens g' = atom_implicit_hydrogens g
  ∧ bond_orders g' = bond_orders g.
Proof.
  intros Heq.
  assert (Ha : ∀ k, set_par_of_atom None <$> atoms g' !! k
                    = set_par_of_atom None <$> atoms g !! k).
  { intros k. rewrite <- !lookup_fmap.
    change (atoms (without_stereo g') !! k = atoms (without_stereo g) !! k). by rewrite Heq. }
  assert (Hb : ∀ k, set_par_of_bond None <$> bonds g' !! k
                    = set_par_of_bond None <$> bonds g !! k).
  { intros k. rewrite <- !lookup_fmap.
    change (bonds (without_stereo g') !! k = bonds (without_stereo g) !! k). by rewrite Heq. }
  split_and!.
  - apply set_eq. intros k. unfold atom_keys. rewrite !elem_of_dom.
    specialize (Ha k). destruct (atoms g' !! k), (atoms g !! k); simpl in Ha;
      try done; split; eauto.
  - apply set_eq. intros k. unfold bond_keys. rewrite !elem_of_dom.
    specialize (Hb k). destruct (bonds g' !! k), (bonds g !! k); simpl in Hb;
      try done; split; eauto.
  - apply map_eq. intros k. unfold atom_symbols. rewrite !lookup_fmap.
    specialize (Ha k). destruct (atoms g' !! k) as [[]|], (atoms g !! k) as [[]|];
      simpl in *; [|done..]. unfold set_par_of_atom in Ha. simpl in Ha. congruence.
  - apply map_eq. intros k. unfold atom_implicit_hydrogens. rewrite !lookup_fmap.
    specialize (Ha k). destruct (atoms g' !! k) as [[]|], (atoms g !! k) as [[]|];
      simpl in *; [|done..]. unfold set_par_of_atom in Ha. simpl in Ha. congruence.
  - apply map_eq. intros k. unfold bond_orders. rewrite !lookup_fmap.
    specialize (Hb k). destruct (bonds g' !! k) as [[]|], (bonds g !! k) as [[]|];
      simpl in *; [|done..]. unfold set_par_of_bond in Hb. simpl in Hb. congruence.
Qed.

(** X11: [calculate_priorities_and_assign_stereo] changes nothing but
    stereo parities: the graph it returns has the atoms and bonds of the
    input, with the same symbols, implicit hydrogen counts and bond
    orders (dummy atoms included), whatever the evaluators and flags. *)
Theorem calculate_priorities_and_assign_stereo_frame
    (g : graph) (ev1 ev2 : option evaluator) (bt bb : bool) (pri : option (gmap Z Z))
    (pri' : gmap Z Z) (g' : graph) :
  calculate_priorities_and_assign_stereo g ev1 ev2 bt bb pri = Ok (pri', g') →
  without_stereo g' = without_stereo g
  ∧ atom_keys g' = atom_keys g ∧ bond_keys g' = bond_keys g
  ∧ atom_symbols g' = atom_symbols g
  ∧ atom_implicit_hydrogens g' = atom_implicit_hydrogens g
  ∧ bond_orders g' = bond_orders g.
Proof.
  intros Hcalc%calculate_without_stereo. split; [done|]. by apply without_stereo_getters.
Qed.

Lemma to_local_stereo_without_stereo g pri g' :
  to_local_stereo g pri = Ok g' → without_stereo g' = without_stereo g.
Proof.
  unfold to_local_stereo. destruct (has_stereo g); [|by intros [= <-]].
  intros ([p gl] & Hcalc%calculate_without_stereo & Heq)%bind_Ok. by injection Heq as <-.
Qed.

Lemma from_local_stereo_without_stereo g pri g' :
  from_local_stereo g pri = Ok g' → without_stereo g' = without_stereo g.
Proof.
  unfold from_local_stereo. destruct (has_stereo g); [|by intros [= <-]].
  intros ([p gl] & Hcalc%calculate_without_stereo & Heq)%bind_Ok. by injection Heq as <-.
Qed.

(** X13: the conversions between canonical and local stereo and the
    reflection built from them change nothing but stereo parities: the
    graphs that [to_local_stereo], [from_local_stereo] and [reflect]
    return have the atoms, symbols, hydrogen counts, bonds and bond
    orders of their input. *)
Theorem local_stereo_conversions_frame (g g' : graph) (pri : option (gmap Z Z)) :
  (to_local_stereo g pri = Ok g' → without_stereo g' = without_stereo g)
  ∧ (from_local_stereo g pri = Ok g' → without_stereo g' = without_stereo g)
  ∧ (reflect g = Ok g' → without_stereo g' = without_stereo g).
Proof.
  split_and!.
  - apply to_local_stereo_without_stereo.
  - apply from_local_stereo_without_stereo.
  - unfold reflect. destruct (has_atom_stereo g); [|by intros [= <-]].
    intros (loc & Hto%to_local_stereo_without_stereo
            & Hfrom%from_local_stereo_without_stereo)%bind_Ok.
    by rewrite Hfrom, without_stereo_reflect_local_stereo.
Qed.

(** X14: the canonical enantiomer of a graph is the graph up to stereo
    parities: [canonical_enantiomer] returns a graph with the atoms,
    symbols, hydrogen counts, bonds and bond orders of the input; it is
    not relabelled. *)
Theorem canonical_enantiomer_frame (g g' : graph) (is_refl : option bool) :
  canonical_enantiomer g = Ok (g', is_refl) →
  without_stereo g' = without_stereo g
  ∧ atom_keys g' = atom_keys g ∧ bond_keys g' = bond_keys g
  ∧ atom_symbols g' = atom_symbols g
  ∧ atom_implicit_hydrogens g' = atom_implicit_hydrogens g
  ∧ bond_orders g' = bond_orders g.
Proof.
  intros Hce.
  assert (without_stereo g' = without_stereo g) as Hws; [|by split; [|apply without_stereo_getters]].
  revert Hce. unfold canonical_enantiomer, canonical_enantiomer_with_keys.
  intros ([[ce keys] fl] & Hwk & Heq)%bind_Ok. injection Heq as <- <-.
  destruct (negb (has_atom_stereo g)).
  - apply bind_Ok in Hwk as (d & _ & Heq). by injection Heq as <- _ _.
  - apply bind_Ok in Hwk as ([ukeys uloc] & Hu%calculate_without_stereo & Hwk).
    apply bind_Ok in Hwk as ([rkeys rgra] & Hr%calculate_without_stereo & Hwk).
    apply bind_Ok in Hwk as (is_can & _ & Heq).
    case_bool_decide; injection Heq as <- _ _; [|done].
    by rewrite Hr, without_stereo_reflect_local_stereo.
Qed.
End unchanged.

Lemma calculate_priorities_and_assign_stereo_frame_witness :
  without_stereo (Examples.halo_ethane_with (Some false) (Some true))
  = without_stereo (Examples.halo_ethane_with (Some true) (Some false))
  ∧ atom_keys (Examples.halo_ethane_with (Some false) (Some true))
    = atom_keys (Examples.halo_ethane_with (Some true) (Some false))
  ∧ bond_keys (Examples.halo_ethane_with (Some false) (Some true))
    = bond_keys (Examples.halo_ethane_with (Some true) (Some false))
  ∧ atom_symbols (Examples.halo_ethane_with (Some false) (Some true))
    = atom_symbols (Examples.halo_ethane_with (Some true) (Some false))
  ∧ atom_implicit_hydrogens (Examples.halo_ethane_with (Some false) (Some true))
    = atom_implicit_hydrogens (Examples.halo_ethane_with (Some true) (Some false))
  ∧ bond_orders (Examples.halo_ethane_with (Some false) (Some true))
    = bond_orders (Examples.halo_ethane_with (Some true) (Some false)).
Proof.
  apply (calculate_priorities_and_assign_stereo_frame
           (Examples.halo_ethane_with (Some true) (Some false))
           (Some ReadCanonical) (Some FlipLocal) true false None
           Examples.halo_ethane_priorities).
  by_evaluation.
Defined.

Lemma canonical_enantiomer_frame_witness :
  without_stereo (Examples.halo_ethane_with (Some false) (Some true))
  = without_stereo Examples.halo_ethane
  ∧ atom_keys (Examples.halo_ethane_with (Some false) (Some true))
    = atom_keys Examples.halo_ethane
  ∧ bond_keys (Examples.halo_ethane_with (Some false) (Some true))
    = bond_keys Examples.halo_ethane
  ∧ atom_symbols (Examples.halo_ethane_with (Some false) (Some true))
    = atom_symbols Examples.halo_ethane
  ∧ atom_implicit_hydrogens (Examples.halo_ethane_with (Some false) (Some true))
    = atom_implicit_hydrogens Examples.halo_ethane
  ∧ bond_orders (Examples.halo_ethane_with (Some false) (Some true))
    = bond_orders Examples.halo_ethane.
Proof.
  apply (canonical_enantiomer_frame Examples.halo_ethane _ (Some true)).
  by_evaluation.
Defined.

(** ** Canonical keys are distinct *)

Section distinct_keys.
Context `{External}.

(** When the loop of [break_priority_ties] returns, no class is left to
    refine. *)
Lemma break_ties_loop_Ok (fuel : nat) (g : graph) (pri pri' : gmap Z Z) :
  break_ties_loop fuel g pri = Ok pri' → classes_to_refine pri' = [].
Proof.
  revert pri. induction fuel as [|fuel IH]; intros pri; simpl.
  - destruct (classes_to_refine pri) as [|[idx cla] rest] eqn:Hq; [|done].
    by intros [= <-].
  - destruct (classes_to_refine pri) as [|[idx cla] rest] eqn:Hq.
    { by intros [= <-]. }
    destruct (last cla) as [k|]; [|done].
    intros (pri1 & _ & Hloop)%bind_Ok. by eapply IH.
Qed.

Lemma break_priority_ties_Ok (g : graph) (pri pri' : gmap Z Z) :
  break_priority_ties g pri = Ok pri' →
  ∀ k k' p, pri' !! k = Some p → pri' !! k' = Some p → k = k'.
Proof.
  unfold break_priority_ties.
  intros (_ & _ & (_ & _ & Hloop)%bind_Ok)%bind_Ok.
  by apply classes_to_refine_nil, (break_ties_loop_Ok _ _ _ _ Hloop).
Qed.

(** X12: on a graph that is connected once its dummy atoms are left
    out, the canonical keys of the backbone atoms are pairwise
    different: [canonical_keys] with [backbone_only = True] never gives
    two atoms the same key. *)
Theorem canonical_keys_injective (g : graph) (can_key_dct : gmap Z Z) :
  is_connected (without_dummy_atoms g) = true →
  canonical_keys g true = Ok can_key_dct →
  ∀ k k' p, can_key_dct !! k = Some p → can_key_dct !! k' = Some p → k = k'.
Proof.
  intros Hconn. unfold canonical_keys.
  intros ([d g'] & Hcalc & (_ & _ & (_ & _ & Heq)%bind_Ok)%bind_Ok)%bind_Ok.
  injection Heq as <-.
  unfold calculate_priorities_and_assign_stereo in Hcalc.
  unfold is_connected in Hconn. apply bool_decide_eq_true in Hconn.
  destruct (connected_components (without_dummy_atoms g)) as [|c [|??]];
    simpl in Hconn; [lia| |lia].
  simpl in Hcalc.
  apply bind_Ok in Hcalc as (acc & Hc & Heq). injection Heq as ->.
  apply bind_Ok in Hc as ([cpri cgra2] & Hc & Heq). injection Heq as <- _.
  unfold dict_.update. rewrite (right_id_L ∅ (∪)).
  unfold calculate_priorities_and_assign_stereo_connected in Hc.
  apply bind_Ok in Hc as ([[pri1 g1] g2] & _ & Hc).
  apply bind_Ok in Hc as ([[pri2 g1'] g2'] & _ & Hc).
  apply bind_Ok in Hc as (pri3 & Hbreak & Hc). simpl in Hc.
  injection Hc as <- _. exact (break_priority_ties_Ok _ _ _ Hbreak).
Qed.

End distinct_keys.

Lemma canonical_keys_injective_witness :
  is_connected (without_dummy_atoms Examples.cuneane) = true
  ∧ ∀ k k' p,
      (list_to_map [(0, 4); (1, 1); (2, 2); (3, 0); (4, 3); (5, 6); (6, 5); (7, 7)]
         : gmap Z Z) !! k = Some p →
      (list_to_map [(0, 4); (1, 1); (2, 2); (3, 0); (4, 3); (5, 6); (6, 5); (7, 7)]
         : gmap Z Z) !! k' = Some p →
      k = k'.
Proof.
  split; [by_evaluation|].
  apply (canonical_keys_injective Examples.cuneane); by_evaluation.
Defined.

(** ** The loops of the driver end *)

(** Walks through binds, conditionals and pattern matches of code that
    has no loop. *)
Ltac steps_walk :=
  lazymatch goal with
  | |- raises_in _ (Ok _) => apply raises_in_Ok
  | |- raises_in _ (Raise _) => apply raises_in_Raise; exact I
  | |- raises_in _ (mbind _ _) => apply raises_in_bind; [|intros ? ?]
  | |- raises_in _ (assert _ _) => apply raises_in_assert; intros ?; exact I
  | |- raises_in _ (rmapM _ _) => apply raises_in_rmapM; intros ? ?
  | |- raises_in _ (rfoldl _ _ _) => apply raises_in_rfoldl; intros ? ? ?
  | |- raises_in _ (dict_.getitem _ _) => apply raises_in_getitem; exact I
  | |- raises_in _ (if ?b then _ else _) => destruct b
  | |- raises_in _ (match ?x with _ => _ end) => destruct x
  | |- raises_in _ (let _ := _ in _) => cbv zeta
  end.

Create HintDb steps discriminated.
#[global] Hint Resolve raises_in_Ok : steps.

Ltac steps := repeat (first [ solve [auto with steps] | steps_walk ]).

Section step_exceptions.
Context `{External}.

Lemma step_sorted_by_priority pri ks : raises_in step_exn (sorted_by_priority pri ks).
Proof. unfold sorted_by_priority. steps. Qed.
Hint Resolve step_sorted_by_priority : steps.

Lemma step_atom_stereo_sorted_neighbor_keys g key pri :
  raises_in step_exn (atom_stereo_sorted_neighbor_keys g key pri).
Proof. unfold atom_stereo_sorted_neighbor_keys. steps. Qed.

Lemma step_bond_stereo_sorted_neighbor_keys g k1 k2 pri :
  raises_in step_exn (bond_stereo_sorted_neighbor_keys g k1 k2 pri).
Proof. unfold bond_stereo_sorted_neighbor_keys. steps. Qed.
Hint Resolve step_atom_stereo_sorted_neighbor_keys
  step_bond_stereo_sorted_neighbor_keys : steps.

Lemma step_is_even_permutation l1 l2 : raises_in step_exn (is_even_permutation l1 l2).
Proof. unfold is_even_permutation. steps. Qed.
Hint Resolve step_is_even_permutation : steps.

Lemma step_list_max_Z l : raises_in step_exn (list_max_Z l).
Proof. unfold list_max_Z. steps. Qed.
Hint Resolve step_list_max_Z : steps.

Lemma step_assign_hydrogen_priorities g pri b n :
  raises_in step_exn (assign_hydrogen_priorities g pri b n).
Proof. unfold assign_hydrogen_priorities. steps. Qed.
Hint Resolve step_assign_hydrogen_priorities : steps.

Lemma step_rfilter {A} (p : A → res bool) (l : list A) :
  (∀ x, raises_in step_exn (p x)) → raises_in step_exn (rfilter p l).
Proof. intros Hp. unfold rfilter. steps. Qed.

Lemma step_stereogenic_atom_keys_from_priorities g pri assigned :
  raises_in step_exn (stereogenic_atom_keys_from_priorities g pri assigned).
Proof.
  unfold stereogenic_atom_keys_from_priorities. steps.
  apply step_rfilter. intros key. steps.
Qed.

Lemma step_end_is_stereogenic pri nkeys : raises_in step_exn (end_is_stereogenic pri nkeys).
Proof. unfold end_is_stereogenic. steps. Qed.
Hint Resolve step_end_is_stereogenic : steps.

Lemma step_bond_is_stereogenic g pri key : raises_in step_exn (bond_is_stereogenic g pri key).
Proof. unfold bond_is_stereogenic. steps. Qed.
Hint Resolve step_bond_is_stereogenic : steps.

Lemma step_stereogenic_bond_keys_from_priorities g pri assigned :
  raises_in step_exn (stereogenic_bond_keys_from_priorities g pri assigned).
Proof.
  unfold stereogenic_bond_keys_from_priorities. steps.
  apply step_rfilter. intros key. steps.
Qed.

Lemma step_stereogenic_keys_from_priorities g pri assigned :
  raises_in step_exn (stereogenic_keys_from_priorities g pri assigned).
Proof.
  unfold stereogenic_keys_from_priorities.
  apply raises_in_bind; [apply step_stereogenic_atom_keys_from_priorities|]. intros ? _.
  apply raises_in_bind; [apply step_stereogenic_bond_keys_from_priorities|]. intros ? _.
  steps.
Qed.

Lemma step_sorted_by_local_priority loc ks :
  raises_in step_exn (sorted_by_local_priority loc ks).
Proof. unfold sorted_by_local_priority. steps. Qed.
Lemma step_max_by_local_priority loc ks :
  raises_in step_exn (max_by_local_priority loc ks).
Proof. unfold max_by_local_priority. steps. Qed.
Lemma step_last_item l : raises_in step_exn (last_item l).
Proof. unfold last_item. steps. Qed.
Hint Resolve step_sorted_by_local_priority step_max_by_local_priority
  step_last_item : steps.

Lemma step_evaluate_parities ev g0 pri keys :
  raises_in step_exn (evaluate_parities ev g0 pri keys).
Proof.
  unfold evaluate_parities.
  apply raises_in_bind.
  { destruct ev; simpl.
    - unfold parity_evaluator_read_canonical_. steps.
    - unfold parity_evaluator_flip_local_. steps. }
  intros p_ Hp.
  assert (∀ key, raises_in step_exn (p_ key)) as Hkey.
  { intros key. destruct ev; simpl in Hp.
    - unfold parity_evaluator_read_canonical_ in Hp. injection Hp as <-. steps.
    - unfold parity_evaluator_flip_local_ in Hp.
      apply bind_Ok in Hp as (pri' & _ & [= <-]). steps. }
  steps.
Qed.

Lemma step_sorted_pris pri ks : raises_in step_exn (sorted_pris pri ks).
Proof. unfold sorted_pris. steps. Qed.
Hint Resolve step_sorted_pris : steps.

Lemma step_bond_pris pri ks : raises_in step_exn (bond_pris pri ks).
Proof. unfold bond_pris. steps. Qed.
Hint Resolve step_bond_pris : steps.

Lemma step_stereo_assignment_representation g pri :
  raises_in step_exn (stereo_assignment_representation g pri).
Proof. unfold stereo_assignment_representation. steps. Qed.
Hint Resolve step_stereo_assignment_representation : steps.

Lemma step_ts_direction_representation g pri :
  raises_in step_exn (ts_direction_representation g pri).
Proof. unfold ts_direction_representation. steps. Qed.
Hint Resolve step_ts_direction_representation : steps.

Lemma step_ts_is_canonical_direciton g1 p1 g2 p2 :
  raises_in step_exn (ts_is_canonical_direciton g1 p1 g2 p2).
Proof. unfold ts_is_canonical_direciton. steps. Qed.

End step_exceptions.

(** ** The range of the canonical priorities *)

Section frame_of_implicit.
Context `{External}.
Implicit Types (g : graph) (k : Z).

Lemma same_frame_trans g1 g2 g3 : same_frame g1 g2 → same_frame g2 g3 → same_frame g1 g3.
Proof. intros [??] [??]. split; congruence. Qed.

Lemma same_frame_symbol g g' k :
  same_frame g g' → atom_symbol <$> atoms g !! k = atom_symbol <$> atoms g' !! k.
Proof. intros [Hs _]. unfold atom_symbols in Hs. by rewrite <- !lookup_fmap, Hs. Qed.

Lemma same_frame_atom_keys_symb g g' s :
  same_frame g g' → atom_keys_symb g s = atom_keys_symb g' s.
Proof.
  intros Hf. apply set_eq. intros k. unfold atom_keys_symb. rewrite !elem_of_dom.
  unfold is_Some. setoid_rewrite map_lookup_filter_Some. simpl.
  pose proof (same_frame_symbol g g' k Hf) as Hk.
  destruct (atoms g !! k) as [a|], (atoms g' !! k) as [a'|]; simpl in Hk; try done.
  injection Hk as Hk. split; intros (x & [= <-] & Hx); eexists; (split; [done|]); congruence.
Qed.

Lemma same_frame_nonbackbone_hydrogen_keys g g' :
  same_frame g g' → nonbackbone_hydrogen_keys g = nonbackbone_hydrogen_keys g'.
Proof.
  intros Hf. unfold nonbackbone_hydrogen_keys, backbone_hydrogen_keys, neighbor_keys.
  by rewrite (same_frame_atom_keys_symb g g' _ Hf), (proj2 Hf).
Qed.

Lemma same_frame_backbone_keys g g' :
  same_frame g g' → backbone_keys g = backbone_keys g'.
Proof.
  intros Hf. unfold backbone_keys.
  by rewrite (same_frame_nonbackbone_hydrogen_keys g g' Hf), (same_frame_atom_keys g g' Hf).
Qed.

Lemma same_frame_atom_nonbackbone_hydrogen_keys g g' :
  same_frame g g' → atom_nonbackbone_hydrogen_keys g = atom_nonbackbone_hydrogen_keys g'.
Proof.
  intros Hf. unfold atom_nonbackbone_hydrogen_keys, dict_.transform_values,
    atoms_neighbor_atom_keys, neighbor_keys.
  rewrite (same_frame_nonbackbone_hydrogen_keys g g' Hf), (proj2 Hf).
  apply map_eq. intros k. rewrite !lookup_fmap, !map_lookup_imap.
  pose proof (same_frame_symbol g g' k Hf) as Hk.
  by destruct (atoms g !! k) as [a|], (atoms g' !! k) as [a'|].
Qed.

(** [implicit] takes graphs of one frame to graphs of one frame. *)
Lemma same_frame_implicit g g' : same_frame g g' → same_frame (implicit g) (implicit g').
Proof.
  intros Hf. unfold implicit.
  rewrite <- (same_frame_atom_nonbackbone_hydrogen_keys g g' Hf),
          <- (same_frame_backbone_keys g g' Hf).
  set (hyd_dct := dict_.by_key (atom_nonbackbone_hydrogen_keys g) (backbone_keys g)).
  set (exp := map_fold (λ _ hs acc, hs ∪ acc) ∅ hyd_dct).
  unfold remove_atoms, subgraph, atom_keys. simpl.
  assert (Hdom : ∀ (f : Z → atom → option atom) gg,
             (∀ k a, is_Some (f k a)) → dom (map_imap f (atoms gg)) = dom (atoms gg)).
  { intros f gg Hfs. apply set_eq. intros k. rewrite !elem_of_dom, map_lookup_imap.
    destruct (atoms gg !! k) as [a|]; simpl; [|by split; intros [??]].
    split; [eauto|]. intros _. apply Hfs. }
  rewrite !Hdom by eauto.
  change (dom (atoms g)) with (atom_keys g). change (dom (atoms g')) with (atom_keys g').
  rewrite <- (same_frame_atom_keys g g' Hf).
  split.
  - unfold atom_symbols. simpl. apply map_eq. intros k.
    rewrite !lookup_fmap, !map_lookup_filter, !map_lookup_imap.
    pose proof (same_frame_symbol g g' k Hf) as Hk.
    destruct (atoms g !! k) as [a|], (atoms g' !! k) as [a'|]; simpl in *; try done.
    injection Hk as Hk.
    destruct (hyd_dct !! k); simpl; case_guard; simpl; by rewrite ?Hk.
  - unfold bond_keys. simpl. destruct Hf as [_ Hb]. unfold bond_keys in Hb.
    apply set_eq. intros b. rewrite !elem_of_dom. unfold is_Some.
    setoid_rewrite map_lookup_filter_Some. simpl.
    assert (is_Some (bonds g !! b) ↔ is_Some (bonds g' !! b)) as Hbb
      by (by rewrite <- !elem_of_dom, Hb).
    unfold is_Some in Hbb. naive_solver.
Qed.

Lemma refinable_same_frame g g' : same_frame g g' → refinable g → refinable g'.
Proof.
  intros Hf (Hc & Hd & Hi). split_and!.
  - by rewrite <- (is_connected_same_frame g g' Hf).
  - by eapply dummy_free_same_frame.
  - by rewrite <- (same_frame_atom_keys _ _ (same_frame_implicit _ _ (same_frame_implicit _ _ Hf))),
               <- (same_frame_atom_keys _ _ (same_frame_implicit _ _ Hf)).
Qed.

Lemma same_frame_backbone g g' :
  same_frame g g' → atom_keys (implicit g) = atom_keys (implicit g').
Proof. intros Hf. by apply same_frame_atom_keys, same_frame_implicit. Qed.

End frame_of_implicit.

(** ** Priorities are ranks *)

Section exact_ranks.
Implicit Types (pri : gmap Z Z) (C X : gset Z) (idx k p q : Z).

Lemma exact_ranks_bounded pri : exact_ranks pri → bounded_by 0 pri.
Proof. intros He k p Hk. pose proof (He k p Hk). lia. Qed.

Lemma exact_ranks_nonneg pri k p : exact_ranks pri → pri !! k = Some p → 0 ≤ p.
Proof. intros He Hk. pose proof (He k p Hk). lia. Qed.

(** Above a class of ranks the next rank follows by the size of the class. *)
Lemma exact_ranks_gap pri idx C k q :
  exact_ranks pri → (∀ k, k ∈ C ↔ pri !! k = Some idx) →
  pri !! k = Some q → idx < q → idx + Z.of_nat (size C) ≤ q.
Proof.
  intros He HC Hk Hq.
  destruct (decide (C = ∅)) as [->|Hne]. { rewrite size_empty. lia. }
  apply set_choose_L in Hne as [c Hc]. apply HC in Hc.
  pose proof (He _ _ Hc) as Hidx. pose proof (He _ _ Hk) as Hq'.
  assert (below pri idx ∪ C ⊆ below pri q) as Hsub.
  { intros k' [(q0 & Hk' & Hlt)%elem_of_below|Hk'%HC]%elem_of_union;
      apply elem_of_below; eexists; (split; [done|lia]). }
  apply subseteq_size in Hsub. rewrite size_union in Hsub; [lia|].
  intros k' (q0 & Hk' & Hlt)%elem_of_below Hin%HC. assert (q0 = idx) by congruence. lia.
Qed.

(** Splitting one whole class of ranks, each member taking the rank of
    the class plus the number of members that end up below it, gives
    ranks again. *)
Lemma exact_ranks_split pri pri' idx C :
  exact_ranks pri →
  (∀ k, k ∈ C ↔ pri !! k = Some idx) →
  (∀ k, k ∉ C → pri' !! k = pri !! k) →
  (∀ k, k ∈ C → ∃ p' X,
      pri' !! k = Some p' ∧ p' = idx + Z.of_nat (size X)
      ∧ ∀ k', k' ∈ X ↔ k' ∈ C ∧ ∃ q', pri' !! k' = Some q' ∧ q' < p') →
  exact_ranks pri'.
Proof.
  intros He HC Hout Hin.
  assert (Hrange : ∀ k p', k ∈ C → pri' !! k = Some p' →
            idx ≤ p' < idx + Z.of_nat (size C)).
  { intros k p' Hk Hp'. destruct (Hin k Hk) as (p'' & X & Hp'' & Hpeq & HX).
    assert (p'' = p') as -> by congruence.
    assert (X ⊆ C ∖ {[k]}) as Hsub.
    { intros k' [Hk' (q' & Hq' & Hlt)]%HX. apply elem_of_difference. split; [done|].
      intros ->%elem_of_singleton. assert (q' = p') by congruence. lia. }
    apply subseteq_size in Hsub. rewrite size_difference in Hsub
      by (by apply singleton_subseteq_l).
    rewrite size_singleton in Hsub.
    assert (size C ≠ 0)%nat; [|lia].
    apply size_non_empty_iff. intros Hemp. by apply (Hemp k) in Hk. }
  intros k p' Hk'.
  destruct (decide (k ∈ C)) as [Hk|Hk].
  - destruct (Hin k Hk) as (p'' & X & Hp'' & Hp & HX).
    assert (p'' = p') as -> by congruence.
    pose proof (He _ _ (proj1 (HC k) Hk)) as Hidx.
    assert (below pri' p' = below pri idx ∪ X) as ->.
    { apply set_eq. intros k'. rewrite elem_of_union, !elem_of_below. split.
      - intros (q' & Hq' & Hlt). destruct (decide (k' ∈ C)) as [Hk'C|Hk'C].
        + right. apply HX. eauto.
        + left. rewrite Hout in Hq' by done. exists q'. split; [done|].
          destruct (decide (q' < idx)) as [|Hge]; [done|]. exfalso.
          destruct (decide (q' = idx)) as [->|Hne]; [by apply Hk'C, HC|].
          pose proof (exact_ranks_gap pri idx C k' q' He HC Hq' ltac:(lia)).
          pose proof (Hrange k p' Hk Hk'). lia.
      - intros [(q & Hq & Hlt)|[Hk'C Hq']%HX]; [|done].
        exists q. split; [|pose proof (Hrange k p' Hk Hk'); lia].
        rewrite Hout; [done|]. intros Hk'C%HC. assert (q = idx) by congruence. lia. }
    rewrite size_union; [lia|].
    intros k' (q & Hq & Hlt)%elem_of_below [Hk'C%HC _]%HX.
    assert (q = idx) by congruence. lia.
  - rewrite Hout in Hk' by done. rewrite (He _ _ Hk') at 1. do 2 f_equal.
    apply set_eq. intros k'. rewrite !elem_of_below.
    destruct (decide (k' ∈ C)) as [Hk'C|Hk'C]; [|by rewrite Hout].
    pose proof (proj1 (HC k') Hk'C) as Hk'idx.
    destruct (Hin k' Hk'C) as (q' & _ & Hq' & _).
    pose proof (Hrange k' q' Hk'C Hq') as Hq'r.
    assert (p' ≠ idx) as Hne by (intros ->; by apply Hk, HC).
    split.
    + intros (q & Hq & Hlt). assert (q = idx) as -> by congruence.
      exists q'. split; [done|].
      pose proof (exact_ranks_gap pri idx C k p' He HC Hk' ltac:(lia)). lia.
    + intros (q & Hq & Hlt). assert (q = q') as -> by congruence.
      exists idx. split; [done|]. lia.
Qed.

(** Ranks that were raised keep the strict order they had. *)
Lemma exact_ranks_keep_order pri pri' :
  exact_ranks pri → exact_ranks pri' → raises_priorities pri pri' →
  keeps_order pri pri'.
Proof.
  intros He He' [Hdom Hraise] k1 k2 p1 p2 p1' p2' Hk1 Hk2 Hk1' Hk2' Hlt.
  (* the keys at or above [p2] *)
  set (U := dom (filter (λ kv : Z * Z, p2 ≤ kv.2) pri)).
  assert (HU : ∀ k, k ∈ U ↔ ∃ q, pri !! k = Some q ∧ p2 ≤ q).
  { intros k. unfold U. rewrite elem_of_dom. unfold is_Some.
    setoid_rewrite map_lookup_filter_Some. simpl. naive_solver. }
  assert (HU' : ∀ k q', k ∈ U → pri' !! k = Some q' → p2 ≤ q').
  { intros k q' (q & Hq & Hle)%HU Hq'. specialize (Hraise _ _ _ Hq Hq'). lia. }
  set (R := λ a b : Z, default 0 (pri' !! a) ≤ default 0 (pri' !! b)).
  assert (Transitive R) as Htr by (unfold R; intros a b c ??; lia).
  assert (∀ a b, Decision (R a b)) as Hdec by (intros a b; unfold R; apply _).
  assert (U ≠ ∅) as Hne.
  { intros Hemp. assert (k2 ∈ U) as Hin by (apply HU; exists p2; split; [done|lia]).
    rewrite Hemp in Hin. by apply elem_of_empty in Hin. }
  apply (minimal_exists_elem_of_L R) in Hne as (u & Hu & Hmin). unfold minimal, R in Hmin.
  assert (is_Some (pri' !! u)) as [m Hm].
  { apply elem_of_dom. rewrite Hdom. apply elem_of_dom.
    apply HU in Hu as (q & Hq & _). eauto. }
  (* every key below the least raised rank of [U] is outside [U] *)
  assert (below pri' m ⊆ below pri p2) as Hsub.
  { intros k (q' & Hq' & Hlt')%elem_of_below. apply elem_of_below.
    assert (is_Some (pri !! k)) as [q Hq].
    { apply elem_of_dom. rewrite <- Hdom. apply elem_of_dom. eauto. }
    exists q. split; [done|]. destruct (decide (q < p2)) as [|Hge]; [done|]. exfalso.
    assert (k ∈ U) as HkU by (apply HU; exists q; split; [done|lia]).
    assert (m ≤ q'); [|lia].
    destruct (decide (default 0 (pri' !! k) ≤ default 0 (pri' !! u))) as [Hle|Hgt].
    - specialize (Hmin k HkU Hle). rewrite Hq', Hm in Hmin. simpl in Hmin. done.
    - rewrite Hq', Hm in Hgt. simpl in Hgt. lia. }
  pose proof (subseteq_size _ _ Hsub) as Hsz.
  pose proof (He' _ _ Hm) as Hm'. pose proof (He _ _ Hk2) as Hp2.
  pose proof (HU' u m Hu Hm) as Hmge.
  assert (m = p2) as -> by lia.
  (* so the keys below [p2] stay below [p2] *)
  assert (below pri' p2 = below pri p2) as Heq.
  { apply set_subseteq_size_eq; [exact Hsub|lia]. }
  assert (k1 ∈ below pri' p2) as Hin1.
  { rewrite Heq. apply elem_of_below. eauto. }
  apply elem_of_below in Hin1 as (q1 & Hq1 & Hlt1). assert (q1 = p1') as -> by congruence.
  assert (k2 ∈ U) as Hk2U by (apply HU; exists p2; split; [done|lia]).
  pose proof (HU' _ _ Hk2U Hk2'). lia.
Qed.

End exact_ranks.

Section parts_before.
Implicit Types (parts : list (list Z)) (p : list Z) (j k ni : Z).

(** The members of the parts before a part are as many as its index
    exceeds the first, and they are the keys of smaller index. *)
Lemma part_indices_before ni parts j p :
  NoDup (concat parts) → Forall (λ p, p ≠ []) parts →
  (j, p) ∈ part_indices ni parts →
  ∃ X : list Z, NoDup X ∧ j = ni + Z.of_nat (length X)
    ∧ ∀ k, k ∈ X ↔ ∃ j' p', (j', p') ∈ part_indices ni parts ∧ k ∈ p' ∧ j' < j.
Proof.
  revert ni. induction parts as [|p0 parts IH]; intros ni Hnd Hne; simpl.
  { by intros ?%elem_of_nil. }
  simpl in Hnd. apply NoDup_app in Hnd as (Hnd0 & Hdisj & Hnd).
  apply Forall_cons in Hne as [Hne0 Hne].
  assert (0 < Z.of_nat (length p0)) as Hp0 by (destruct p0; [done|simpl; lia]).
  intros [Heq|Hin]%elem_of_cons.
  - injection Heq as -> ->. exists []. split; [constructor|]. split; [simpl; lia|].
    intros k. split; [by intros ?%elem_of_nil|].
    intros (j' & p' & [Heq|Hin]%elem_of_cons & _ & Hlt).
    + injection Heq as -> ->. lia.
    + apply elem_of_part_indices in Hin as (_ & ? & _). lia.
  - destruct (IH _ Hnd Hne Hin) as (X & HX & Hj & HXin).
    pose proof (elem_of_part_indices _ _ _ _ Hin) as (_ & Hjge & _).
    exists (p0 ++ X). split; [|split].
    + apply NoDup_app. split; [done|]. split; [|done].
      intros k Hk0 (j' & p' & Hjp' & Hkp' & _)%HXin. apply (Hdisj k Hk0).
      apply elem_of_concat. exists p'. split; [done|].
      by apply elem_of_part_indices in Hjp' as (? & _).
    + rewrite length_app. lia.
    + intros k. rewrite elem_of_app, HXin. split.
      * intros [Hk|(j' & p' & Hjp' & Hkp' & Hlt)].
        -- exists ni, p0. split; [left|]. split; [done|lia].
        -- exists j', p'. split; [by right|done].
      * intros (j' & p' & [Heq|Hjp']%elem_of_cons & Hkp' & Hlt).
        -- injection Heq as -> ->. by left.
        -- right. eauto.
Qed.
End parts_before.

Section refine_exact.
Context `{External}.
Context (g : graph).
Implicit Types (pri : gmap Z Z) (cd : gmap Z (list Z)) (rest : list (Z * list Z))
  (cla : list Z) (idx j k : Z) (V : gset Z).

Lemma requeue_Ok cd rest (js : list Z) nc :
  rfoldl (λ new_clas ngb_idx,
            ngb_cla ← dict_.getitem cd ngb_idx;
            Ok (if bool_decide (1 < length ngb_cla)%nat
                then (ngb_idx, ngb_cla) :: new_clas
                else new_clas)) rest js = Ok nc →
  ∀ j c, (j, c) ∈ nc → (j, c) ∈ rest ∨ cd !! j = Some c.
Proof.
  revert rest. induction js as [|j0 js IH]; intros rest; simpl.
  { intros [= <-]. eauto. }
  intros (nc1 & (c0 & Hc0%getitem_Ok & Heq)%bind_Ok & Hrest)%bind_Ok j c Hjc.
  injection Heq as <-.
  destruct (IH _ Hrest _ _ Hjc) as [Hin|?]; [|by right].
  case_bool_decide; [|by left].
  apply elem_of_cons in Hin as [Heq|?]; [|by left]. injection Heq as -> ->. by right.
Qed.

(** One pass of the loop of [refine_priorities] takes ranks to ranks,
    and whole classes to whole classes. *)
Lemma refine_step_exact V ngb pri cd idx cla rest st' :
  refine_inv V (RefineState pri cd ((idx, cla) :: rest)) →
  exact_ranks pri →
  whole_classes (RefineState pri cd ((idx, cla) :: rest)) →
  refine_step g ngb pri cd idx cla rest = Ok st' →
  exact_ranks (rs_pri st') ∧ whole_classes st'.
Proof.
  intros (Hdom & HQ & HndQ & HC & H5) He [Hwhole Hcur] Hstep. simpl in *.
  destruct (HQ idx cla) as [[Hndcla Hcla] Hlen]; [left|].
  apply NoDup_cons in HndQ as [Hidx_rest HndQ].
  assert (Hfull : ∀ k, k ∈ cla ↔ pri !! k = Some idx).
  { intros k. split; [apply Hcla|]. intros Hk. eapply Hwhole; [apply Hcur; left|done]. }
  assert (HfullC : ∀ k, k ∈ (list_to_set cla : gset Z) ↔ pri !! k = Some idx).
  { intros k. by rewrite elem_of_list_to_set. }
  unfold refine_step in Hstep. apply bind_Ok in Hstep as (parts & Hsp & Hstep).
  destruct (sort_and_partition_spec _ _ _ _ Hsp) as [Hperm Hne].
  case_bool_decide as Hparts.
  2:{ injection Hstep as <-. simpl. split; [done|]. split; [done|].
      intros j c Hjc. apply Hcur. by right. }
  rewrite foldl_assign_part in Hstep. simpl in Hstep.
  set (PI := part_indices idx parts) in *.
  set (pri' := assign_priorities pri PI) in *.
  set (cd' := assign_classes cd PI) in *.
  apply bind_Ok in Hstep as (r & Hr & Hstep).
  apply bind_Ok in Hstep as (nc & Hnc & Heq). injection Heq as <-. simpl.
  assert (HPI2 : PI.*2 = parts) by apply part_indices_snd.
  assert (HndC : NoDup (concat parts)) by (by rewrite Hperm).
  assert (HndPI : NoDup PI.*1) by (by apply part_indices_NoDup).
  assert (F1 : ∀ k, k ∉ cla → pri' !! k = pri !! k).
  { intros k Hk. apply assign_priorities_notin. by rewrite HPI2, Hperm. }
  assert (F2 : ∀ j p k, (j, p) ∈ PI → k ∈ p → pri' !! k = Some j).
  { intros j p k Hjp Hk. eapply assign_priorities_in; [by rewrite HPI2|done..]. }
  assert (F2' : ∀ k, k ∈ cla → ∃ j p, (j, p) ∈ PI ∧ k ∈ p).
  { intros k Hk. rewrite <- Hperm in Hk. apply elem_of_concat in Hk as (p & Hk & Hp).
    rewrite <- HPI2 in Hp. apply list_elem_of_fmap in Hp as ([j p'] & -> & Hjp). eauto. }
  assert (F2c : ∀ j p k, (j, p) ∈ PI → k ∈ p → k ∈ cla).
  { intros j p k Hjp Hk. rewrite <- Hperm. apply elem_of_concat. exists p. split; [done|].
    rewrite <- HPI2. apply list_elem_of_fmap. by exists (j, p). }
  assert (Hsize : size (list_to_set cla : gset Z) = length cla)
    by (by apply size_list_to_set).
  assert (Hin_range : ∀ j c, (j, c) ∈ PI → idx ≤ j < idx + Z.of_nat (length cla)).
  { intros j c Hjc. apply elem_of_part_indices in Hjc as (Hc & Hle & Hlt).
    rewrite <- (Permutation_length Hperm).
    assert (c ≠ []) by (by eapply Forall_forall in Hne).
    destruct c; [done|]. simpl in Hlt. lia. }
  assert (Hfresh : ∀ k q, k ∉ cla → pri !! k = Some q → q ∉ PI.*1).
  { intros k q Hk Hq ([j c] & -> & Hjc)%list_elem_of_fmap. simpl in Hq.
    pose proof (Hin_range _ _ Hjc) as Hj.
    destruct (decide (j = idx)) as [->|Hne']; [by apply Hk, Hfull|].
    pose proof (exact_ranks_gap pri idx _ k j He HfullC Hq ltac:(lia)). lia. }
  unfold whole_classes. simpl. split; [|split].
  - apply (exact_ranks_split pri pri' idx (list_to_set cla)); [done|done| |].
    + intros k Hk. apply F1. by rewrite elem_of_list_to_set in Hk.
    + intros k Hk%elem_of_list_to_set.
      destruct (F2' k Hk) as (j & c & Hjc & Hkc).
      destruct (part_indices_before idx parts j c HndC Hne Hjc) as (X & HX & Hj & HXin).
      exists j, (list_to_set X). split; [by eapply F2|].
      split; [by rewrite size_list_to_set|].
      intros k'. rewrite !elem_of_list_to_set, HXin. split.
      * intros (j' & c' & Hjc' & Hkc' & Hlt). split; [by eapply F2c|].
        exists j'. split; [by eapply F2|done].
      * intros [Hk' (q' & Hq' & Hlt)]. destruct (F2' k' Hk') as (j' & c' & Hjc' & Hkc').
        exists j', c'. split; [done|]. split; [done|].
        rewrite (F2 _ _ _ Hjc' Hkc') in Hq'. by injection Hq' as ->.
  - intros j c k Hjc Hk.
    apply assign_classes_lookup in Hjc as [Hjc|[Hj Hjc]]; [| |exact HndPI].
    + destruct (decide (k ∈ cla)) as [Hin|Hin].
      * destruct (F2' k Hin) as (j2 & c2 & Hjc2 & Hkc2).
        rewrite (F2 _ _ _ Hjc2 Hkc2) in Hk. injection Hk as ->.
        pose proof (assign_classes_in cd _ _ _ HndPI Hjc) as E1.
        pose proof (assign_classes_in cd _ _ _ HndPI Hjc2) as E2.
        rewrite E1 in E2. by injection E2 as ->.
      * exfalso. rewrite F1 in Hk by done. apply (Hfresh k j Hin Hk).
        apply list_elem_of_fmap. by exists (j, c).
    + destruct (decide (k ∈ cla)) as [Hin|Hin].
      * exfalso. destruct (F2' k Hin) as (j2 & c2 & Hjc2 & Hkc2).
        rewrite (F2 _ _ _ Hjc2 Hkc2) in Hk. injection Hk as ->.
        apply Hj. apply list_elem_of_fmap. by exists (j, c2).
      * rewrite F1 in Hk by done. by eapply Hwhole.
  - intros j c Hjc. destruct (requeue_Ok _ _ _ _ Hnc j c Hjc) as [Hin|?]; [|done].
    unfold cd'. rewrite assign_classes_notin; [apply Hcur; by right|].
    destruct (HQ j c) as [[_ Hc] Hl]; [by right|].
    destruct c as [|k c]; [simpl in Hl; lia|].
    assert (pri !! k = Some j) as Hk by (apply Hc; left).
    apply (Hfresh k j); [|done]. intros Hkin%Hfull.
    assert (j = idx) as -> by congruence.
    apply Hidx_rest. apply list_elem_of_fmap. by exists (idx, k :: c).
Qed.

End refine_exact.

Section refine_loop_exact.
Context `{External}.
Context (g : graph).
Context (Hwf : wf_bonds g) (Himp : atom_keys (implicit g) = atom_keys g).

Lemma refine_loop_exact (fuel : nat) (st : refine_state) (pri' : gmap Z Z) :
  refine_inv (atom_keys g) st → exact_ranks (rs_pri st) → whole_classes st →
  refine_loop fuel g (atoms_neighbor_atom_keys g) st = Ok pri' →
  exact_ranks pri'.
Proof.
  revert st. induction fuel as [|fuel IH]; intros [pri cd q] Hinv He Hw; simpl in *.
  - destruct q as [|[idx cla] rest]; [by intros [= <-]|done].
  - destruct q as [|[idx cla] rest]; [by intros [= <-]|].
    intros (st1 & Hstep & Hloop)%bind_Ok.
    destruct (refine_step_total g Hwf Himp pri cd idx cla rest Hinv)
      as (st' & Hst' & Hinv' & _).
    rewrite Hstep in Hst'. injection Hst' as <-.
    destruct (refine_step_exact g _ _ _ _ _ _ _ _ Hinv He Hw Hstep) as [He1 Hw1].
    by eapply IH.
Qed.
End refine_loop_exact.

Section ranked_priorities.
Context `{External}.
Implicit Types (g : graph) (pri : gmap Z Z) (V : gset Z) (k p : Z).

Lemma ranked_range V pri k p :
  ranked V pri → pri !! k = Some p → 0 ≤ p < Z.of_nat (size V).
Proof.
  intros (Hd & He) Hk. split; [by eapply exact_ranks_nonneg|].
  pose proof (bounded_by_le _ _ _ _ (exact_ranks_bounded _ He) Hk).
  rewrite <- Hd, size_dom. lia.
Qed.

Lemma ranked_zero V : ranked V (dict_.by_key_fill ∅ V 0).
Proof.
  assert (Hz : ∀ k p, dict_.by_key_fill (∅ : gmap Z Z) V 0 !! k = Some p → p = 0).
  { intros k p Hk.
    assert (k ∈ V) as HkV.
    { rewrite <- (dom_by_key_fill (∅ : gmap Z Z) V 0). apply elem_of_dom. eauto. }
    rewrite lookup_by_key_fill in Hk by done. rewrite lookup_empty in Hk.
    simpl in Hk. congruence. }
  split; [apply dom_by_key_fill|].
  intros k p Hk. rewrite (Hz _ _ Hk).
  assert (below (dict_.by_key_fill ∅ V 0) 0 = ∅) as ->; [|by rewrite size_empty].
  apply set_eq. intros k'. rewrite elem_of_below. split; [|by intros ?%elem_of_empty].
  intros (q & Hq & Hlt). rewrite (Hz _ _ Hq) in Hlt. lia.
Qed.

(** Refining ranks, or no priorities at all, gives ranks. *)
Lemma refine_priorities_ranked g (pri : option (gmap Z Z)) pri' :
  refinable g →
  (∀ pri0, pri = Some pri0 → ranked (atom_keys (implicit g)) pri0) →
  refine_priorities g pri = Ok pri' →
  ranked (atom_keys (implicit g)) pri'.
Proof.
  intros (Hc & Hd & Hi) Hpri Href.
  destruct (refine_priorities_total g pri Hc Hd Hi) as (pri'' & Href' & Hdom & _).
  rewrite Href in Href'. injection Href' as <-. split; [done|].
  revert Href. unfold refine_priorities.
  rewrite Hc, (bool_decide_eq_true_2 _ Hd). simpl.
  set (pri0 := dict_.by_key_fill (default ∅ pri) (atom_keys (implicit g)) 0).
  assert (ranked (atom_keys (implicit g)) pri0) as [Hd0 He0].
  { unfold pri0. destruct pri as [pri1|]; simpl; [|apply ranked_zero].
    destruct (Hpri pri1 eq_refl) as [Hdp ?]. by rewrite by_key_fill_id. }
  apply (refine_loop_exact (implicit g) (wf_bonds_implicit g) Hi).
  - split; [done|]. simpl. split; [|split; [|split]].
    + intros j c [-> Hlen]%elem_of_classes_to_refine. split; [|done].
      split; [apply NoDup_class_of|]. intros k. apply elem_of_class_of.
    + apply NoDup_classes_to_refine.
    + intros j c [-> _]%class_dict_lookup.
      split; [apply NoDup_class_of|]. intros k. apply elem_of_class_of.
    + intros k p Hk. exists (class_of pri0 p). apply class_dict_lookup. split; [done|].
      apply elem_of_class_of in Hk. intros Hnil. rewrite Hnil in Hk. by apply elem_of_nil in Hk.
  - done.
  - split; simpl.
    + intros j c k [-> _]%class_dict_lookup Hk. by apply elem_of_class_of.
    + intros j c [-> Hlen]%elem_of_classes_to_refine. apply class_dict_lookup.
      split; [done|]. intros Hnil. rewrite Hnil in Hlen. simpl in Hlen. lia.
Qed.

Lemma refine_priorities_raises g pri pri' :
  refinable g → dom pri = atom_keys (implicit g) →
  refine_priorities g (Some pri) = Ok pri' → raises_priorities pri pri'.
Proof.
  intros (Hc & Hd & Hi) Hdom Href.
  destruct (refine_priorities_total g (Some pri) Hc Hd Hi) as (pri'' & Href' & _ & Hr & _).
  rewrite Href in Href'. injection Href' as <-. simpl in Hr.
  by rewrite by_key_fill_id in Hr.
Qed.

(** The loop of [_algo] returns ranks and a graph of the frame it
    started from. *)
Lemma algo_loop_ranked fuel ev1 ev2 g0 g1 g2 (pri : option (gmap Z Z)) pri' g1' g2' :
  refinable g1 →
  (∀ pri0, pri = Some pri0 → ranked (atom_keys (implicit g1)) pri0) →
  algo_loop fuel ev1 ev2 g0 g1 g2 pri = Ok (pri', g1', g2') →
  ranked (atom_keys (implicit g1)) pri' ∧ same_frame g1 g1'.
Proof.
  revert g1 g2 pri. induction fuel as [|fuel IH]; intros g1 g2 pri Hg1 Hpri; simpl; [done|].
  intros (pri1 & Href & (keys & _ & Hrest)%bind_Ok)%bind_Ok. revert Hrest.
  pose proof (refine_priorities_ranked g1 pri pri1 Hg1 Hpri Href) as Hr1.
  destruct (keys_empty keys); [by intros [= <- <- <-]|].
  intros (pars1 & _ & (pars2 & _ & Hrest)%bind_Ok)%bind_Ok. revert Hrest.
  pose proof (same_frame_set_stereo_parities g1 pars1) as Hf.
  case_bool_decide; [by intros [= <- <- <-]|].
  intros Hrec. apply IH in Hrec as [Hr Hf'].
  - rewrite (same_frame_backbone _ _ Hf). split; [done|]. by eapply same_frame_trans.
  - by eapply refinable_same_frame.
  - intros pri0 [= <-]. by rewrite <- (same_frame_backbone _ _ Hf).
Qed.

Lemma algo_ranked ev1 ev2 g (pri : option (gmap Z Z)) ts_rev pri' g1' g2' :
  refinable g →
  (∀ pri0, pri = Some pri0 → ranked (atom_keys (implicit g)) pri0) →
  algo ev1 ev2 g pri ts_rev = Ok (pri', g1', g2') →
  ranked (atom_keys (implicit g)) pri' ∧ same_frame g g1'.
Proof.
  intros Hg Hpri. unfold algo.
  set (g0 := if ts_rev then ts_reverse g else g).
  assert (same_frame g (without_stereo g0)) as Hf.
  { eapply same_frame_trans; [|apply same_frame_without_stereo].
    unfold g0. destruct ts_rev; [apply same_frame_ts_reverse|done]. }
  intros ([[p a] b] & Hloop & Heq)%bind_Ok. injection Heq as <- <- _.
  apply algo_loop_ranked in Hloop as [Hr Hf'].
  - rewrite (same_frame_backbone _ _ Hf). split; [done|]. by eapply same_frame_trans.
  - by eapply refinable_same_frame.
  - intros pri0 Hp. rewrite <- (same_frame_backbone _ _ Hf). by apply Hpri.
Qed.

(** Giving the last member of a tied class of [s] keys the index
    [idx + s - 1] takes ranks to ranks, and raises them. *)
Lemma promote_last_ranked pri idx k :
  exact_ranks pri → (1 < length (class_of pri idx))%nat → k ∈ class_of pri idx →
  let pri1 := <[k := idx + Z.of_nat (length (class_of pri idx)) - 1]> pri in
  dom pri1 = dom pri ∧ exact_ranks pri1 ∧ raises_priorities pri pri1.
Proof.
  intros He Hlen Hk pri1.
  set (cla := class_of pri idx) in *.
  assert (Hcla : ∀ k', k' ∈ cla ↔ pri !! k' = Some idx) by (intros k'; apply elem_of_class_of).
  assert (Hdom : dom pri1 = dom pri).
  { unfold pri1. rewrite dom_insert_L.
    assert (k ∈ dom pri) by (apply elem_of_dom; rewrite (proj1 (Hcla k) Hk); eauto).
    set_solver. }
  assert (Hk1 : pri1 !! k = Some (idx + Z.of_nat (length cla) - 1))
    by (unfold pri1; by rewrite lookup_insert_eq).
  assert (Hne : ∀ k', k' ≠ k → pri1 !! k' = pri !! k')
    by (intros k' ?; unfold pri1; by rewrite lookup_insert_ne).
  split; [done|]. split.
  - apply (exact_ranks_split pri pri1 idx (list_to_set cla)); [done| | |].
    + intros k'. by rewrite elem_of_list_to_set.
    + intros k' Hk'. apply Hne. intros ->. apply Hk'. by apply elem_of_list_to_set.
    + intros k' Hk'%elem_of_list_to_set. destruct (decide (k' = k)) as [->|Hkk].
      * exists (idx + Z.of_nat (length cla) - 1), (list_to_set cla ∖ {[k]}).
        split; [done|]. split.
        { rewrite size_difference by (apply singleton_subseteq_l; by apply elem_of_list_to_set).
          rewrite size_singleton, size_list_to_set by apply NoDup_class_of. lia. }
        intros k''. rewrite elem_of_difference, not_elem_of_singleton. split.
        -- intros [Hin Hnk]. split; [done|]. exists idx.
           rewrite (Hne _ Hnk). apply elem_of_list_to_set in Hin.
           split; [by apply Hcla|lia].
        -- intros [Hin (q' & Hq' & Hlt)]. split; [done|]. intros ->.
           assert (q' = idx + Z.of_nat (length cla) - 1) by congruence. lia.
      * exists idx, ∅. rewrite (Hne _ Hkk). split; [by apply Hcla|].
        split; [rewrite size_empty; lia|].
        intros k''. split; [by intros ?%elem_of_empty|].
        intros [Hin%elem_of_list_to_set (q' & Hq' & Hlt)]. exfalso.
        destruct (decide (k'' = k)) as [->|Hnk].
        -- assert (q' = idx + Z.of_nat (length cla) - 1) by congruence. lia.
        -- rewrite (Hne _ Hnk), (proj1 (Hcla k'') Hin) in Hq'. injection Hq' as <-. lia.
  - split; [done|]. intros k' p p' Hp Hp'. destruct (decide (k' = k)) as [->|Hkk].
    + rewrite (proj1 (Hcla k) Hk) in Hp. rewrite Hk1 in Hp'.
      injection Hp as <-. injection Hp' as <-. lia.
    + rewrite (Hne _ Hkk) in Hp'. assert (p = p') by congruence. lia.
Qed.

(** Breaking the ties of ranks gives ranks, and raises them. *)
Lemma break_ties_loop_ranked fuel g pri pri' :
  refinable g → ranked (atom_keys (implicit g)) pri →
  break_ties_loop fuel g pri = Ok pri' →
  ranked (atom_keys (implicit g)) pri' ∧ raises_priorities pri pri'.
Proof.
  intros Hg. revert pri. induction fuel as [|fuel IH]; intros pri Hr; simpl.
  - destruct (classes_to_refine pri) as [|[idx cla] rest]; [|done].
    intros [= <-]. split; [done|apply raises_priorities_refl].
  - destruct (classes_to_refine pri) as [|[idx cla] rest] eqn:Hq.
    { intros [= <-]. split; [done|apply raises_priorities_refl]. }
    destruct (classes_to_refine_head _ _ _ _ Hq) as (-> & Hlen & _).
    destruct (last (class_of pri idx)) as [k|] eqn:Hlast; [|done].
    destruct (last_sorted_max _ _ (class_of_sorted pri idx) Hlast) as [Hk _].
    destruct Hr as [Hdom He].
    destruct (promote_last_ranked pri idx k He Hlen Hk) as (Hdom1 & He1 & Hraise1).
    intros (pri2 & Href & Hloop)%bind_Ok.
    assert (ranked (atom_keys (implicit g)) pri2) as Hr2.
    { eapply refine_priorities_ranked; [done| |exact Href].
      intros pri0 [= <-]. split; [by rewrite Hdom1|done]. }
    destruct (IH pri2 Hr2 Hloop) as [Hr' Hraise'].
    split; [done|].
    eapply raises_priorities_trans; [exact Hraise1|].
    eapply raises_priorities_trans; [|exact Hraise'].
    eapply refine_priorities_raises; [done| |exact Href]. by rewrite Hdom1.
Qed.

Lemma break_priority_ties_ranked g pri pri' :
  refinable g → ranked (atom_keys (implicit g)) pri →
  break_priority_ties g pri = Ok pri' →
  ranked (atom_keys (implicit g)) pri' ∧ raises_priorities pri pri'.
Proof.
  intros Hg Hr. unfold break_priority_ties.
  intros (_ & _ & (_ & _ & Hloop)%bind_Ok)%bind_Ok.
  by eapply break_ties_loop_ranked.
Qed.

(** The priorities of a connected graph, backbone only. *)
Lemma calculate_connected_ranked g ev1 ev2 break_ties pri' g2 :
  refinable g →
  calculate_priorities_and_assign_stereo_connected g ev1 ev2 break_ties true None
    = Ok (pri', g2) →
  ranked (atom_keys (implicit g)) pri'
  ∧ (break_ties = true →
     ∀ k k' p, pri' !! k = Some p → pri' !! k' = Some p → k = k').
Proof.
  intros Hg. unfold calculate_priorities_and_assign_stereo_connected.
  intros ([[pri1 g1] g2a] & Halgo & Hrest)%bind_Ok.
  apply algo_ranked in Halgo as [Hr1 Hf1]; [|done|done].
  apply bind_Ok in Hrest as ([[pri2 g1'] g2'] & Hts & Hrest).
  assert (ranked (atom_keys (implicit g)) pri2 ∧ same_frame g g1') as [Hr2 Hf2].
  { destruct (is_ts_graph g).
    - apply bind_Ok in Hts as ([[rpri rg1] rg2] & Hralgo & Hts).
      apply algo_ranked in Hralgo as [Hrr Hfr]; [|done|by intros ? [= <-]].
      apply bind_Ok in Hts as (is_can & _ & Heq).
      destruct is_can; by injection Heq as <- <- _.
    - by injection Hts as <- <- _. }
  apply bind_Ok in Hrest as (pri3 & Hbreak & Hrest). simpl in Hrest.
  injection Hrest as <- _.
  destruct break_ties.
  - split.
    + rewrite (same_frame_backbone _ _ Hf2).
      eapply break_priority_ties_ranked; [|by rewrite <- (same_frame_backbone _ _ Hf2)|done].
      by eapply refinable_same_frame.
    + intros _. by eapply break_priority_ties_Ok.
  - by injection Hbreak as <-.
Qed.

End ranked_priorities.

(** Distinct priorities of [n] keys that lie in [0, n) are all of
    [0, n). *)
Lemma ranked_onto (V : gset Z) (pri : gmap Z Z) :
  ranked V pri →
  (∀ k k' p, pri !! k = Some p → pri !! k' = Some p → k = k') →
  ∀ p, 0 ≤ p < Z.of_nat (size V) → ∃ k, pri !! k = Some p.
Proof.
  intros Hr Hinj p Hp.
  set (img := list_to_set (map_to_list pri).*2 : gset Z).
  set (rng := list_to_set (seqZ 0 (Z.of_nat (size V))) : gset Z).
  assert (img ⊆ rng) as Hsub.
  { intros q [[k q'] [-> Hkq]]%elem_of_list_to_set%list_elem_of_fmap. simpl.
    apply elem_of_map_to_list in Hkq. apply elem_of_list_to_set, elem_of_seqZ.
    pose proof (ranked_range _ _ _ _ Hr Hkq). lia. }
  assert (size rng ≤ size img)%nat as Hsz.
  { unfold rng, img. rewrite !size_list_to_set.
    - rewrite length_seqZ, length_fmap, length_map_to_list.
      destruct Hr as [<- _]. rewrite size_dom. lia.
    - apply NoDup_fmap_2_strong; [|apply NoDup_map_to_list].
      intros [k q] [k' q'] Hk%elem_of_map_to_list Hk'%elem_of_map_to_list. simpl.
      intros <-. by rewrite (Hinj _ _ _ Hk Hk').
    - apply NoDup_seqZ. }
  assert (p ∈ img) as Hin.
  { rewrite (set_subseteq_size_eq _ _ Hsub Hsz). apply elem_of_list_to_set, elem_of_seqZ. lia. }
  apply elem_of_list_to_set, list_elem_of_fmap in Hin as [[k q] [-> Hkq]].
  exists k. by apply elem_of_map_to_list.
Qed.

(** ** The loop of the driver ends *)

Section loops_end.
Context `{External}.
Implicit Types (g : graph) (pri : gmap Z Z).

(** Priorities that are raised and have the same sum are the same. *)
Lemma raises_priorities_sum_eq pri pri' :
  raises_priorities pri pri' → pri_sum pri' ≤ pri_sum pri → pri' = pri.
Proof.
  intros Hraise Hsum. apply map_eq. intros k.
  destruct (pri !! k) as [p|] eqn:Hk.
  - assert (is_Some (pri' !! k)) as [p' Hk'].
    { apply elem_of_dom. rewrite (proj1 Hraise). apply elem_of_dom. eauto. }
    rewrite Hk'. f_equal.
    pose proof (proj2 Hraise _ _ _ Hk Hk') as Hle.
    destruct (decide (p < p')) as [Hlt|]; [|lia].
    pose proof (raises_priorities_sum_lt _ _ _ _ _ Hraise Hk Hk' Hlt). lia.
  - apply not_elem_of_dom. rewrite (proj1 Hraise). by apply not_elem_of_dom.
Qed.

Lemma algo_loop_unfold fuel ev1 ev2 g0 g1 g2 (pri1 : option (gmap Z Z)) :
  algo_loop (S fuel) ev1 ev2 g0 g1 g2 pri1
  = (pri1' ← refine_priorities g1 pri1;
     keys ← stereogenic_keys_from_priorities g1 pri1' false;
     if keys_empty keys then Ok (pri1', g1, g2)
     else
       pars1 ← evaluate_parities ev1 g0 pri1' keys;
       pars2 ← evaluate_parities ev2 g0 pri1' keys;
       if bool_decide (pri1 = Some pri1')
       then Ok (pri1', set_stereo_parities g1 pars1, set_stereo_parities g2 pars2)
       else algo_loop fuel ev1 ev2 g0 (set_stereo_parities g1 pars1)
              (set_stereo_parities g2 pars2) (Some pri1')).
Proof. reflexivity. Qed.

(** A pass of the loop that does not leave it raises the sum of the
    priorities, which is bounded: with fuel above the room that is left
    the loop ends before the fuel does. *)
Lemma algo_loop_ends_from fuel ev1 ev2 g0 g1 g2 pri (P0 : Z) :
  refinable g1 →
  dom pri = atom_keys (implicit g1) →
  bounded_by P0 pri →
  Z.of_nat (size pri) * (P0 + Z.of_nat (size pri) - 1) - pri_sum pri < Z.of_nat fuel →
  raises_in step_exn (algo_loop fuel ev1 ev2 g0 g1 g2 (Some pri)).
Proof.
  revert g1 g2 pri. induction fuel as [|fuel IH]; intros g1 g2 pri Hg1 Hdom HB Hfuel.
  { pose proof (bounded_by_sum pri P0 HB). lia. }
  rewrite algo_loop_unfold.
  destruct Hg1 as (Hc & Hd & Hi).
  destruct (refine_priorities_total g1 (Some pri) Hc Hd Hi)
    as (pri1 & Href & Hdom1 & Hraise & HB1).
  simpl in Hraise, HB1. rewrite by_key_fill_id in Hraise, HB1 by done.
  rewrite Href. simpl.
  apply raises_in_bind; [apply step_stereogenic_keys_from_priorities|]. intros keys _.
  destruct (keys_empty keys); [apply raises_in_Ok|].
  apply raises_in_bind; [apply step_evaluate_parities|]. intros pars1 _.
  apply raises_in_bind; [apply step_evaluate_parities|]. intros pars2 _.
  case_bool_decide as Hsame; [apply raises_in_Ok|].
  pose proof (same_frame_set_stereo_parities g1 pars1) as Hf.
  assert (size pri1 = size pri) as Hsz by (by rewrite <- !size_dom, Hdom1, Hdom).
  apply (IH _ _ _ (refinable_same_frame _ _ Hf (conj Hc (conj Hd Hi)))).
  - by rewrite <- (same_frame_backbone _ _ Hf).
  - by apply HB1.
  - rewrite Hsz.
    destruct (decide (pri_sum pri1 ≤ pri_sum pri)) as [Hle|]; [|lia].
    exfalso. apply Hsame. f_equal. symmetry. by apply raises_priorities_sum_eq.
Qed.

(** The fuel that [algo] gives the loop is enough, whatever priorities
    it starts from: the first pass may return the priorities it was
    given in another form, every later one raises their sum. *)
Lemma algo_loop_ends ev1 ev2 g0 g1 g2 (pri : option (gmap Z Z)) :
  refinable g1 →
  raises_in step_exn (algo_loop (algo_fuel g1 pri) ev1 ev2 g0 g1 g2 pri).
Proof.
  intros Hg1. unfold algo_fuel.
  set (pri0 := dict_.by_key_fill (default ∅ pri) (atom_keys (implicit g1)) 0).
  remember (S (Z.to_nat (pri_slack pri0))) as fuel eqn:Hfuel.
  rewrite algo_loop_unfold.
  destruct Hg1 as (Hc & Hd & Hi).
  destruct (refine_priorities_total g1 pri Hc Hd Hi)
    as (pri1 & Href & Hdom1 & Hraise & HB1).
  fold pri0 in Hraise, HB1.
  rewrite Href. simpl.
  apply raises_in_bind; [apply step_stereogenic_keys_from_priorities|]. intros keys _.
  destruct (keys_empty keys); [apply raises_in_Ok|].
  apply raises_in_bind; [apply step_evaluate_parities|]. intros pars1 _.
  apply raises_in_bind; [apply step_evaluate_parities|]. intros pars2 _.
  case_bool_decide as Hsame; [apply raises_in_Ok|].
  pose proof (same_frame_set_stereo_parities g1 pars1) as Hf.
  apply (algo_loop_ends_from _ _ _ _ _ _ _ (pri_max pri0)).
  - exact (refinable_same_frame _ _ Hf (conj Hc (conj Hd Hi))).
  - by rewrite <- (same_frame_backbone _ _ Hf).
  - apply HB1, bounded_by_max.
  - assert (size pri1 = size pri0) as Hsz.
    { rewrite <- !size_dom, Hdom1. unfold pri0. by rewrite dom_by_key_fill. }
    rewrite Hsz, Hfuel. pose proof (raises_priorities_sum _ _ Hraise) as Hsum.
    unfold pri_slack.
    set (n := Z.of_nat (size pri0)) in *. set (m := pri_max pri0) in *.
    assert (0 ≤ n) by (unfold n; lia).
    assert (n * (m + n - 1) ≤ n * (m + n)) by nia.
    lia.
Qed.

Lemma algo_ends ev1 ev2 g (pri : option (gmap Z Z)) ts_rev :
  refinable g → raises_in step_exn (algo ev1 ev2 g pri ts_rev).
Proof.
  intros Hg. unfold algo.
  set (g0 := if ts_rev then ts_reverse g else g).
  assert (same_frame g (without_stereo g0)) as Hf.
  { eapply same_frame_trans; [|apply same_frame_without_stereo].
    unfold g0. destruct ts_rev; [apply same_frame_ts_reverse|done]. }
  apply raises_in_bind.
  { apply algo_loop_ends. by eapply refinable_same_frame. }
  intros [[??]?] _. apply raises_in_Ok.
Qed.

(** On a connected graph without dummy atoms whose backbone [implicit]
    leaves as it is, the driver for one component ends: what it raises
    is an exception of one of its steps. *)
Lemma calculate_connected_ends g ev1 ev2 break_ties backbone_only :
  refinable g →
  raises_in step_exn
    (calculate_priorities_and_assign_stereo_connected g ev1 ev2 break_ties backbone_only None).
Proof.
  intros Hg. unfold calculate_priorities_and_assign_stereo_connected.
  set (e1 := default ReadCanonical ev1). set (e2 := default e1 ev2).
  apply raises_in_bind; [by apply algo_ends|]. intros [[pri1 g1] g2] Halgo.
  apply algo_ranked in Halgo as [Hr1 Hf1]; [|done|done].
  apply raises_in_bind.
  { destruct (is_ts_graph g); [|apply raises_in_Ok].
    apply raises_in_bind; [by apply algo_ends|]. intros [[rpri rg1] rg2] _.
    apply raises_in_bind; [apply step_ts_is_canonical_direciton|].
    intros; apply raises_in_Ok. }
  intros [[pri2 g1'] g2'] Hts.
  assert (ranked (atom_keys (implicit g)) pri2 ∧ same_frame g g1') as [Hr2 Hf2].
  { destruct (is_ts_graph g).
    - apply bind_Ok in Hts as ([[rpri rg1] rg2] & Hralgo & Hts).
      apply algo_ranked in Hralgo as [Hrr Hfr]; [|done|by intros ? [= <-]].
      apply bind_Ok in Hts as (is_can & _ & Heq).
      destruct is_can; by injection Heq as <- <- _.
    - by injection Hts as <- <- _. }
  apply raises_in_bind.
  { destruct break_ties; [|apply raises_in_Ok].
    destruct (refinable_same_frame _ _ Hf2 Hg) as (Hc & Hd & Hi).
    destruct (break_priority_ties_total g1' pri2 Hc Hd Hi) as (pri3 & -> & _).
    - rewrite <- (same_frame_backbone _ _ Hf2). apply Hr2.
    - apply raises_in_Ok. }
  intros pri3 _.
  apply raises_in_bind.
  { destruct (negb backbone_only); [apply step_assign_hydrogen_priorities|apply raises_in_Ok]. }
  intros; apply raises_in_Ok.
Qed.

End loops_end.

Section connected_graphs.
Context `{External}.

(** A connected graph is its own and only component. *)
Lemma connected_components_connected (g : graph) :
  wf_bonds g → is_connected g = true → connected_components g = [g].
Proof.
  intros Hwf Hc. unfold is_connected in Hc. apply bool_decide_eq_true in Hc.
  unfold connected_components in *. rewrite length_fmap in Hc.
  unfold connected_components_atom_keys in *.
  set (aks := atom_keys g) in *. set (bks := bond_keys g) in *.
  destruct (elements_Z aks) as [|k rest] eqn:Hel.
  { by rewrite components_aux_nil in Hc. }
  assert (k ∈ aks) as Hk by (apply elem_of_elements_Z; rewrite Hel; left).
  destruct (size aks) as [|n] eqn:Hsz; [done|].
  rewrite components_aux_cons in Hc |- *. simpl in Hc.
  set (c := component_of aks bks k) in *.
  destruct (components_aux n aks bks (filter (λ k', k' ∉ c) rest)) as [|??] eqn:Haux;
    [|simpl in Hc; lia].
  assert (c = aks) as ->.
  { apply set_eq. intros x. split; [by apply component_of_within|]. intros Hx.
    apply elem_of_elements_Z in Hx. rewrite Hel in Hx.
    apply elem_of_cons in Hx as [->|Hx]; [apply component_of_self|].
    destruct (decide (x ∈ c)) as [|Hnx]; [done|]. exfalso.
    destruct n as [|n].
    - pose proof (length_elements_Z aks) as Hlen. rewrite Hel, Hsz in Hlen. simpl in Hlen.
      destruct rest; [by apply elem_of_nil in Hx|done].
    - assert (x ∈ filter (λ k', k' ∉ c) rest) as Hin by (by apply list_elem_of_filter).
      destruct (filter (λ k', k' ∉ c) rest); [by apply elem_of_nil in Hin|].
      by rewrite components_aux_cons in Haux. }
  simpl. f_equal. apply graph_eq; unfold subgraph; simpl; apply map_filter_id.
  - intros k' a Ha. simpl. apply elem_of_atom_keys. eauto.
  - intros b bd Hb. simpl. apply Hwf, elem_of_bond_keys. eauto.
Qed.

Lemma without_dummy_atoms_idemp (g : graph) :
  without_dummy_atoms g = without_dummy_atoms (without_dummy_atoms g).
Proof.
  unfold without_dummy_atoms at 1 2. apply without_dummy_atoms_subgraph.
  fold (non_dummy_keys g). done.
Qed.

(** The priorities that the driver gives a connected graph, backbone
    only and with no priorities given. *)
Lemma calculate_ranked (g : graph) ev1 ev2 break_ties pri' g' :
  refinable (without_dummy_atoms g) →
  calculate_priorities_and_assign_stereo g ev1 ev2 break_ties true None = Ok (pri', g') →
  ranked (atom_keys (implicit (without_dummy_atoms g))) pri'
  ∧ (break_ties = true →
     ∀ k k' p, pri' !! k = Some p → pri' !! k' = Some p → k = k').
Proof.
  intros Hg. unfold calculate_priorities_and_assign_stereo.
  rewrite connected_components_connected;
    [|apply wf_bonds_without_dummy_atoms|apply Hg].
  simpl. intros (acc & Hc & Heq)%bind_Ok. injection Heq as ->.
  apply bind_Ok in Hc as ([cpri cgra2] & Hc & Heq). injection Heq as <- _.
  unfold dict_.update. rewrite (right_id_L ∅ (∪)).
  by eapply calculate_connected_ranked.
Qed.

(** The driver ends on a connected graph: it has one component. *)
Lemma calculate_ends (g : graph) ev1 ev2 break_ties backbone_only :
  refinable (without_dummy_atoms g) →
  raises_in step_exn
    (calculate_priorities_and_assign_stereo g ev1 ev2 break_ties backbone_only None).
Proof.
  intros Hg. unfold calculate_priorities_and_assign_stereo.
  rewrite connected_components_connected;
    [|apply wf_bonds_without_dummy_atoms|apply Hg].
  apply raises_in_rfoldl. intros acc cgra ->%list_elem_of_singleton.
  apply raises_in_bind; [by apply calculate_connected_ends|].
  intros [??] _. apply raises_in_Ok.
Qed.

(** X15: on a graph that is connected once its dummy atoms are left
    out, and whose backbone [implicit] leaves as it is, the loops of
    [calculate_priorities_and_assign_stereo] (backbone only, no
    priorities given) end: the call returns, or it raises an exception
    of one of its steps (a failed lookup, an empty sequence, too many
    neighbours), never a precondition violation, and the model never
    runs out of fuel.  Whenever it returns, it returns priorities for
    exactly the backbone atoms, and every priority is a rank: it is the
    number of backbone atoms of smaller priority, so with [n] backbone
    atoms it lies in [0, n).  This holds for each of the two parity
    evaluators of the module, read-canonical and flip-local, in either
    position, and with or without tie breaking. *)
Theorem calculate_priorities_range
    (g : graph) (ev1 ev2 : option evaluator) (break_ties : bool) :
  is_connected (without_dummy_atoms g) = true →
  atom_keys (implicit (implicit (without_dummy_atoms g)))
  = atom_keys (implicit (without_dummy_atoms g)) →
  (∀ e, calculate_priorities_and_assign_stereo g ev1 ev2 break_ties true None = Raise e →
        step_exn e)
  ∧ ∀ pri' g',
      calculate_priorities_and_assign_stereo g ev1 ev2 break_ties true None = Ok (pri', g') →
      dom pri' = atom_keys (implicit (without_dummy_atoms g))
      ∧ ∀ k p, pri' !! k = Some p →
          p = Z.of_nat (size (below pri' p))
          ∧ 0 ≤ p < Z.of_nat (size (atom_keys (implicit (without_dummy_atoms g)))).
Proof.
  intros Hc Hi.
  assert (refinable (without_dummy_atoms g)) as Hg.
  { split; [done|]. split; [apply without_dummy_atoms_idemp|done]. }
  split; [by apply calculate_ends|].
  intros pri' g' Hcalc.
  destruct (calculate_ranked g _ _ _ _ _ Hg Hcalc) as [Hr _].
  split; [apply Hr|]. intros k p Hk. split; [|by eapply ranked_range].
  destruct Hr as [_ He]. by apply (He k).
Qed.

(** X16: on such a graph with [n] backbone atoms the loops of
    [canonical_keys] (backbone only) end: the call returns, or it
    raises an exception of one of its steps or a consistency violation,
    never a precondition violation, and the model never runs out of
    fuel.  Whenever it returns, the canonical keys are a numbering of
    the backbone atoms by 0, ..., n-1: every backbone atom has a key in
    [0, n), and every number in [0, n) is the key of exactly one
    atom. *)
Theorem canonical_keys_permutation (g : graph) :
  is_connected (without_dummy_atoms g) = true →
  atom_keys (implicit (implicit (without_dummy_atoms g)))
  = atom_keys (implicit (without_dummy_atoms g)) →
  (∀ e, canonical_keys g true = Raise e →
        step_exn e ∨ is_consistency_violation e = true)
  ∧ ∀ can_key_dct, canonical_keys g true = Ok can_key_dct →
      dom can_key_dct = atom_keys (implicit (without_dummy_atoms g))
      ∧ (∀ k p, can_key_dct !! k = Some p → 0 ≤ p < Z.of_nat (size can_key_dct))
      ∧ ∀ p, 0 ≤ p < Z.of_nat (size can_key_dct) →
          ∃ k, can_key_dct !! k = Some p ∧ ∀ k', can_key_dct !! k' = Some p → k' = k.
Proof.
  intros Hc Hi.
  assert (refinable (without_dummy_atoms g)) as Hg.
  { split; [done|]. split; [apply without_dummy_atoms_idemp|done]. }
  unfold canonical_keys. split.
  - apply raises_in_bind.
    { eapply raises_in_mono; [|by apply calculate_ends]. intros e He. by left. }
    intros [d g'] _.
    apply raises_in_bind; [apply raises_in_assert; intros _; by right|]. intros _ _.
    apply raises_in_bind; [apply raises_in_assert; intros _; by right|]. intros _ _.
    apply raises_in_Ok.
  - intros can_key_dct.
    intros ([d g'] & Hcalc & (_ & _ & (_ & _ & Heq)%bind_Ok)%bind_Ok)%bind_Ok.
    injection Heq as <-.
    destruct (calculate_ranked g _ _ _ _ _ Hg Hcalc) as [Hr Hinj].
    specialize (Hinj eq_refl).
    assert (size d = size (atom_keys (implicit (without_dummy_atoms g)))) as Hsz.
    { destruct Hr as [<- _]. by rewrite size_dom. }
    rewrite Hsz. split; [apply Hr|]. split.
    + intros k p Hk. by eapply ranked_range.
    + intros p Hp. destruct (ranked_onto _ _ Hr Hinj p Hp) as [k Hk].
      exists k. split; [done|]. intros k' Hk'. by eapply Hinj.
Qed.

(** X18: [refine_priorities] refines: on a connected graph without
    dummy atoms whose backbone [implicit] leaves as it is, priorities of
    the backbone atoms that are ranks (each the number of atoms of
    smaller priority) are taken to ranks again, no priority is lowered,
    and atoms of different priority keep their order; classes are split,
    never merged or exchanged. *)
Theorem refine_priorities_refines (g : graph) (pri pri' : gmap Z Z) :
  is_connected g = true →
  g = without_dummy_atoms g →
  atom_keys (implicit (implicit g)) = atom_keys (implicit g) →
  dom pri = atom_keys (implicit g) →
  exact_ranks pri →
  refine_priorities g (Some pri) = Ok pri' →
  exact_ranks pri' ∧ raises_priorities pri pri' ∧ keeps_order pri pri'.
Proof.
  intros Hc Hd Hi Hdom He Href.
  assert (refinable g) as Hg by done.
  assert (ranked (atom_keys (implicit g)) pri') as [_ He'].
  { eapply refine_priorities_ranked; [done| |exact Href]. by intros ? [= <-]. }
  pose proof (refine_priorities_raises g pri pri' Hg Hdom Href) as Hraise.
  split; [done|]. split; [done|]. by apply exact_ranks_keep_order.
Qed.

(** X19: [break_priority_ties] refines as well: on such a graph it
    takes ranks of the backbone atoms to ranks, lowers no priority and
    keeps the order of atoms of different priority; the canonical keys
    follow the canonical priorities. *)
Theorem break_priority_ties_refines (g : graph) (pri pri' : gmap Z Z) :
  is_connected g = true →
  g = without_dummy_atoms g →
  atom_keys (implicit (implicit g)) = atom_keys (implicit g) →
  dom pri = atom_keys (implicit g) →
  exact_ranks pri →
  break_priority_ties g pri = Ok pri' →
  exact_ranks pri' ∧ raises_priorities pri pri' ∧ keeps_order pri pri'.
Proof.
  intros Hc Hd Hi Hdom He Hbreak.
  assert (refinable g) as Hg by done.
  destruct (break_priority_ties_ranked g pri pri' Hg (conj Hdom He) Hbreak)
    as [[_ He'] Hraise].
  split; [done|]. split; [done|]. by apply exact_ranks_keep_order.
Qed.

End connected_graphs.

Lemma calculate_priorities_range_witness :
  calculate_priorities_and_assign_stereo Examples.diol None None false true None
  = Ok (Examples.diol_priorities, Examples.diol)
  ∧ dom Examples.diol_priorities = atom_keys (implicit (without_dummy_atoms Examples.diol))
  ∧ ∀ k p, Examples.diol_priorities !! k = Some p →
      p = Z.of_nat (size (below Examples.diol_priorities p))
      ∧ 0 ≤ p < Z.of_nat (size (atom_keys (implicit (without_dummy_atoms Examples.diol)))).
Proof.
  assert (Hcalc : calculate_priorities_and_assign_stereo Examples.diol None None false true None
                  = Ok (Examples.diol_priorities, Examples.diol)) by by_evaluation.
  split; [exact Hcalc|].
  assert (Hc : is_connected (without_dummy_atoms Examples.diol) = true) by by_evaluation.
  assert (Hi : atom_keys (implicit (implicit (without_dummy_atoms Examples.diol)))
               = atom_keys (implicit (without_dummy_atoms Examples.diol))) by by_evaluation.
  exact (proj2 (calculate_priorities_range Examples.diol None None false Hc Hi) _ _ Hcalc).
Defined.

Lemma canonical_keys_permutation_witness :
  canonical_keys Examples.halo_ethane true = Ok Examples.halo_ethane_priorities
  ∧ dom Examples.halo_ethane_priorities
    = atom_keys (implicit (without_dummy_atoms Examples.halo_ethane))
  ∧ (∀ k p, Examples.halo_ethane_priorities !! k = Some p →
            0 ≤ p < Z.of_nat (size Examples.halo_ethane_priorities))
  ∧ ∀ p, 0 ≤ p < Z.of_nat (size Examples.halo_ethane_priorities) →
      ∃ k, Examples.halo_ethane_priorities !! k = Some p
           ∧ ∀ k', Examples.halo_ethane_priorities !! k' = Some p → k' = k.
Proof.
  assert (Hkeys : canonical_keys Examples.halo_ethane true
                  = Ok Examples.halo_ethane_priorities) by by_evaluation.
  split; [exact Hkeys|].
  assert (Hc : is_connected (without_dummy_atoms Examples.halo_ethane) = true)
    by by_evaluation.
  assert (Hi : atom_keys (implicit (implicit (without_dummy_atoms Examples.halo_ethane)))
               = atom_keys (implicit (without_dummy_atoms Examples.halo_ethane)))
    by by_evaluation.
  exact (proj2 (canonical_keys_permutation Examples.halo_ethane Hc Hi) _ Hkeys).
Defined.

Lemma refine_priorities_refines_witness :
  exact_ranks Examples.halo_ethane_priorities
  ∧ raises_priorities
      (list_to_map [(0, 0); (1, 0); (2, 2); (3, 2); (4, 2); (5, 2); (6, 2)])
      Examples.halo_ethane_priorities
  ∧ keeps_order
      (list_to_map [(0, 0); (1, 0); (2, 2); (3, 2); (4, 2); (5, 2); (6, 2)])
      Examples.halo_ethane_priorities.
Proof.
  apply (refine_priorities_refines Examples.halo_ethane); by_evaluation.
Defined.

Lemma break_priority_ties_refines_witness :
  exact_ranks (list_to_map [(0, 1); (1, 0); (2, 2); (3, 3)])
  ∧ raises_priorities Examples.diol_priorities
      (list_to_map [(0, 1); (1, 0); (2, 2); (3, 3)])
  ∧ keeps_order Examples.diol_priorities
      (list_to_map [(0, 1); (1, 0); (2, 2); (3, 3)]).
Proof.
  apply (break_priority_ties_refines Examples.diol); by_evaluation.
Defined.

(** ** Local priorities *)

Section local_priorities.
Context `{External}.

Lemma lookup_key_map (f : Z → loc_pri) (X : gset Z) (k : Z) :
  (set_to_map (λ k, (k, f k)) X : gmap Z loc_pri) !! k
  = if decide (k ∈ X) then Some (f k) else None.
Proof.
  destruct (decide (k ∈ X)) as [Hk|Hk].
  - apply lookup_set_to_map; [by intros ?? _ _|]. by exists k.
  - apply eq_None_not_Some. intros [x Hx].
    apply lookup_set_to_map in Hx as (y & Hy & [= -> _]); [done|by intros ?? _ _].
Qed.

Lemma atom_keys_symb_subseteq (g : graph) (s : string) : atom_keys_symb g s ⊆ atom_keys g.
Proof.
  intros k. unfold atom_keys_symb, atom_keys. rewrite !elem_of_dom.
  intros [a [Ha _]%map_lookup_filter_Some]. eauto.
Qed.

(** X17: [local_priority_dict] has a local priority for exactly the
    atoms of the graph: minus infinity for a hydrogen outside the
    backbone, [-abs(k)] for a backbone hydrogen [k], and the key itself
    for every other atom. *)
Theorem local_priority_dict_spec (g : graph) :
  dom (local_priority_dict g) = atom_keys g
  ∧ ∀ k, local_priority_dict g !! k
         = if decide (k ∈ nonbackbone_hydrogen_keys g) then Some NegInf
           else if decide (k ∈ backbone_hydrogen_keys g) then Some (Fin (- Z.abs k))
           else if decide (k ∈ atom_keys g) then Some (Fin k)
           else None.
Proof.
  assert (Hbh : backbone_hydrogen_keys g ⊆ atom_keys_symb g "H").
  { unfold backbone_hydrogen_keys. intros k Hk. by apply elem_of_filter in Hk as [_ Hk]. }
  pose proof (atom_keys_symb_subseteq g "H") as Hsub.
  assert (Hlookup : ∀ k, local_priority_dict g !! k
         = if decide (k ∈ nonbackbone_hydrogen_keys g) then Some NegInf
           else if decide (k ∈ backbone_hydrogen_keys g) then Some (Fin (- Z.abs k))
           else if decide (k ∈ atom_keys g) then Some (Fin k)
           else None).
  { intros k. unfold local_priority_dict, dict_.update.
    destruct (decide (k ∈ nonbackbone_hydrogen_keys g)) as [Hn|Hn].
    { apply lookup_union_Some_l. by apply lookup_gset_to_gmap_Some. }
    rewrite lookup_union_r by (by apply lookup_gset_to_gmap_None).
    destruct (decide (k ∈ backbone_hydrogen_keys g)) as [Hb|Hb].
    { apply lookup_union_Some_l. rewrite lookup_key_map. by rewrite decide_True. }
    rewrite lookup_union_r by (rewrite lookup_key_map; by rewrite decide_False).
    rewrite lookup_key_map. unfold backbone_keys_no_hyd.
    unfold nonbackbone_hydrogen_keys in Hn.
    destruct (decide (k ∈ atom_keys g)) as [Ha|Ha].
    - rewrite decide_True; [done|]. set_solver.
    - rewrite decide_False; [done|]. set_solver. }
  split; [|exact Hlookup].
  apply set_eq. intros k. rewrite elem_of_dom, Hlookup.
  unfold nonbackbone_hydrogen_keys.
  repeat case_decide; split; try done; try (by eexists); set_solver.
Qed.

End local_priorities.

(** ** Stability of the canonical enantiomer (C5) *)

Section enantiomer_stability.
Context `{External}.





End enantiomer_stability.


